(** * Moltly agent server: relay, sessions and challenge check

    A shallow embedding of [server/scripts/agent_server.js] (the WebSocket
    relay) and of the fingerprint function of
    [server/scripts/moltly_agent_bot.js], with the properties of the relay
    stated over it.

    Conventions of the embedding.
    - A JavaScript string is the list of its UTF-16 code units ([jsstring]).
    - A value obtained from [JSON.parse] is a [json]; a property read that
      finds nothing is [None] (JavaScript's [undefined]).
    - JSON numbers are IEEE doubles; the relay only converts them to strings
      and tests them for truthiness, so the number type and those two
      operations are parameters of the development.
    - [Date.now()], [crypto.randomBytes] and [crypto.randomUUID] are inputs of
      the event that reads them.
    - Every callback of the server is a function from the state before the
      event to an outcome and the state after it.
    - An expression that can throw has an [option] result, [None] being
      the exception; a callback that an exception leaves has the outcome
      [Uncaught], and the run of the server ends there. *)

From Stdlib Require Import ZArith List Ascii String QArith Lqa Lia.
From stdpp Require Import base option list gmap fin_maps pretty.

Set Warnings "-register-all".

Import ListNotations.
Local Open Scope Z_scope.

(** ** JavaScript strings *)

(** A string is the sequence of its UTF-16 code units. *)
Abbreviation jsstring := (list N).

(** A source literal (ASCII only in these scripts). *)
Definition lit (s : string) : jsstring :=
  map N_of_ascii (list_ascii_of_string s).

(** ** 32-bit integer arithmetic of JavaScript *)

(** [ToInt32] on an integer-valued number. *)
Definition ToInt32 (x : Z) : Z :=
  (x + 2 ^ 31) mod 2 ^ 32 - 2 ^ 31.

(** [a << n] for [0 <= n < 32]. *)
Definition js_shl (a n : Z) : Z := ToInt32 (Z.shiftl (ToInt32 a) n).

(** [a & b]. *)
Definition js_and (a b : Z) : Z := ToInt32 (Z.land (ToInt32 a) (ToInt32 b)).

(** *** [Number.prototype.toString(16)] on an integer *)

Definition hex_digit (d : N) : N :=
  if (d <? 10)%N then (48 + d)%N else (87 + d)%N.

Fixpoint hex_digits_aux (fuel : nat) (n : N) (acc : jsstring) : jsstring :=
  match fuel with
  | O => acc
  | S fuel' =>
      let acc' := hex_digit (n mod 16)%N :: acc in
      if (n <? 16)%N then acc' else hex_digits_aux fuel' (n / 16)%N acc'
  end.

(** Digits of a natural number, most significant first; [0] is ["0"]. *)
Definition hex_digits (n : N) : jsstring :=
  hex_digits_aux (S (N.to_nat (N.log2 n))) n [].

Definition toString16 (x : Z) : jsstring :=
  if x <? 0 then lit "-" ++ hex_digits (Z.to_N (- x))
  else hex_digits (Z.to_N x).

(** *** [String.prototype.trim] *)

(** The code units ECMAScript counts as white space or line terminators. *)
Definition is_js_whitespace (c : N) : bool :=
  ((9 <=? c) && (c <=? 13) || (c =? 32) || (c =? 160) || (c =? 5760)
   || (8192 <=? c) && (c <=? 8202) || (c =? 8232) || (c =? 8233)
   || (c =? 8239) || (c =? 8287) || (c =? 12288) || (c =? 65279))%N.

Fixpoint trim_start (s : jsstring) : jsstring :=
  match s with
  | c :: s' => if is_js_whitespace c then trim_start s' else s
  | [] => []
  end.

Definition trim (s : jsstring) : jsstring :=
  rev (trim_start (rev (trim_start s))).

(** *** [Buffer.prototype.toString('hex')] *)

Definition hex_of_byte (b : Byte.byte) : jsstring :=
  let n := Byte.to_N b in [hex_digit (n / 16)%N; hex_digit (n mod 16)%N].

Definition hex_of_bytes (bs : list Byte.byte) : jsstring :=
  concat (map hex_of_byte bs).

(** ** JSON values *)

(** What [JSON.parse] returns.  An object is the finite map of its own
    properties. *)
Inductive json (number : Type) : Type :=
| JNull
| JBool (b : bool)
| JNum (n : number)
| JStr (s : jsstring)
| JArr (l : list (json number))
| JObj (m : gmap jsstring (json number)).

Arguments JNull {number}.
Arguments JBool {number} b.
Arguments JNum {number} n.
Arguments JStr {number} s.
Arguments JArr {number} l.
Arguments JObj {number} m.

(** The parts of the JavaScript host the scripts call and that are not
    part of the repository: number formatting and truthiness, and the JSON
    codec.  [raw] is the text of a WebSocket frame or of a request body;
    [JSON_parse] is [None] where [JSON.parse] throws. *)
Class Host := {
  number : Type;
  Number_toString : number -> jsstring;
  Number_truthy : number -> bool;
  raw : Type;
  JSON_parse : raw -> option (json number);
  JSON_stringify : json number -> raw;
}.

(** The settings read from the environment at start-up, fixed afterwards. *)
Class Config := {
  MAX_CONNECTIONS : Z;
  HEARTBEAT_MS : Z;
  RATE_LIMIT_GAME : Z;
  RATE_LIMIT_AGENT : Z;
}.

(** [Number(process.env.X) || dflt] for an integer-valued setting: [None]
    is a variable that is unset or not numeric ([NaN]). *)
Definition from_env (v : option Z) (dflt : Z) : Z :=
  match v with
  | Some x => if x =? 0 then dflt else x
  | None => dflt
  end.

Record environment := {
  env_MAX_CONNECTIONS : option Z;
  env_HEARTBEAT_MS : option Z;
  env_RATE_LIMIT_GAME : option Z;
  env_RATE_LIMIT_AGENT : option Z;
}.

Definition startup (e : environment) : Config := {|
  MAX_CONNECTIONS := from_env (env_MAX_CONNECTIONS e) 2000;
  HEARTBEAT_MS := from_env (env_HEARTBEAT_MS e) 30000;
  RATE_LIMIT_GAME := from_env (env_RATE_LIMIT_GAME e) 25;
  RATE_LIMIT_AGENT := from_env (env_RATE_LIMIT_AGENT e) 65;
|}.

Definition empty_environment : environment := {|
  env_MAX_CONNECTIONS := None;
  env_HEARTBEAT_MS := None;
  env_RATE_LIMIT_GAME := None;
  env_RATE_LIMIT_AGENT := None;
|}.

(** ** JavaScript operators on parsed values *)

Section Values.
Context `{Host}.

(** A value read from a message: [None] is [undefined]. *)
Definition jsval : Type := option (json number).

(** Separator-joined concatenation, as [Array.prototype.join]. *)
Fixpoint join (sep : jsstring) (parts : list jsstring) : jsstring :=
  match parts with
  | [] => []
  | [p] => p
  | p :: rest => p ++ sep ++ join sep rest
  end.

(** The string a parsed value is converted to where [v + str] needs one;
    [None] where the conversion throws a [TypeError].  An array is its
    elements joined by commas, [null] rendered empty.  A plain object is
    converted by the [toString] it finds: its own property of that name
    hides [Object.prototype.toString], and as a value from [JSON.parse] is
    never a function the conversion then finds nothing to call and throws;
    without one the object is ["[object Object]"]. *)
Fixpoint ToString_json (v : json number) : option jsstring :=
  match v with
  | JNull => Some (lit "null")
  | JBool true => Some (lit "true")
  | JBool false => Some (lit "false")
  | JNum n => Some (Number_toString n)
  | JStr s => Some s
  | JArr l =>
      join (lit ",")
      <$> (fix elements (l : list (json number)) : option (list jsstring) :=
             match l with
             | [] => Some []
             | e :: l' =>
                 match (match e with
                        | JNull => Some []
                        | _ => ToString_json e
                        end) with
                 | Some p =>
                     match elements l' with
                     | Some ps => Some (p :: ps)
                     | None => None
                     end
                 | None => None
                 end
             end) l
  | JObj m =>
      match m !! lit "toString" with
      | Some _ => None
      | None => Some (lit "[object Object]")
      end
  end.

Definition ToString (v : jsval) : option jsstring :=
  match v with
  | None => Some (lit "undefined")
  | Some j => ToString_json j
  end.

(** [v + key] where [key] is a string: the conversion of [v], then string
    concatenation. *)
Definition js_add (v : jsval) (key : jsstring) : option jsstring :=
  s ← ToString v; Some (s ++ key).

(** [ToBoolean]. *)
Definition truthy (v : jsval) : bool :=
  match v with
  | None | Some JNull => false
  | Some (JBool b) => b
  | Some (JNum n) => Number_truthy n
  | Some (JStr s) => negb (bool_decide (s = []))
  | Some (JArr _) | Some (JObj _) => true
  end.

(** [v === 'literal']. *)
Definition strict_eq_str (v : jsval) (s : jsstring) : bool :=
  match v with
  | Some (JStr t) => bool_decide (t = s)
  | _ => false
  end.

(** [d.k] for the property names the scripts read ([type], [agentId],
    [challenge], [response], [role], [steer], [jump]) on a value [d] that
    is not [null]: only an object has such a property, and then only as an
    own property. *)
Definition get_prop (d : json number) (k : jsstring) : jsval :=
  match d with
  | JObj m => m !! k
  | _ => None
  end.

(** [{ ...base, ...d }] where [base] holds the properties written before
    the spread: the own properties of [d] are copied over them.  Only
    objects are spread by the relay. *)
Definition spread_over (base : gmap jsstring (json number))
    (d : json number) : json number :=
  match d with
  | JObj m => JObj (m ∪ base)
  | _ => JObj base
  end.

(** An object literal with string keys. *)
Definition object (fields : list (string * json number)) : json number :=
  JObj (list_to_map (map (fun kv => (lit kv.1, kv.2)) fields)).

End Values.

(** ** The fingerprint function (agent_server.js) *)

(** One iteration of the loop of [signChallenge]:
    [hash = ((hash << 5) - hash) + char; hash = hash & hash]. *)
Definition hash_step (hash : Z) (char : N) : Z :=
  let hash := (js_shl hash 5 - hash) + Z.of_N char in
  js_and hash hash.

Section Fingerprint.
Context `{Host}.

(** [None] where [challenge + key] throws. *)
Definition signChallenge (challenge : jsval) (key : jsstring) : option jsstring :=
  combined ← js_add challenge key;
  Some (toString16 (fold_left hash_step combined 0)).

Definition verifyChallenge (challenge response : jsval)
    (accessKey : jsstring) : option bool :=
  digest ← signChallenge challenge accessKey;
  Some (strict_eq_str response digest).

End Fingerprint.

(** ** The fingerprint function of the client (moltly_agent_bot.js) *)

Module Bot.

Definition hash_step (hash : Z) (char : N) : Z :=
  let hash := (js_shl hash 5 - hash) + Z.of_N char in
  js_and hash hash.

Section Fingerprint.
Context `{Host}.

Definition signChallenge (challenge : jsval) (key : jsstring) : option jsstring :=
  combined ← js_add challenge key;
  Some (toString16 (fold_left hash_step combined 0)).

End Fingerprint.
End Bot.

(** ** Sockets, sessions and connections *)

(** A [ws] object is named by a number; two references are the same
    object exactly when the numbers are equal. *)
Abbreviation sock := nat.

Inductive ready_state := CONNECTING | OPEN | CLOSING | CLOSED.

Inductive Role := Game | Agent.

#[global] Instance ready_state_eq_dec : EqDecision ready_state.
Proof. solve_decision. Defined.

#[global] Instance Role_eq_dec : EqDecision Role.
Proof. solve_decision. Defined.

Section Relay.
Context `{Host} `{Config}.

(** What the server has done to a socket: its [readyState], the code of
    the close frame the server has had written, the payloads passed to
    [send] in order, and the number of [ping] calls. *)
Record socket := {
  readyState : ready_state;
  closeCode : option Z;
  sent : list raw;
  pings : nat;
}.

(** An entry of the [agents] map. *)
Record session := {
  accessKey : jsstring;
  created : Z;
  gameWs : option sock;
  agentWs : option sock;
}.

(** The variables a ['connection'] callback closes over for an admitted
    socket.  [rateCount] is [rateCount.n]; [heartbeat] is the interval
    timer with its delay in milliseconds, [None] once cleared. *)
Record conn := {
  agentId : option jsstring;
  role : option Role;
  lastPing : Z;
  rateCount : Z;
  heartbeat : option Q;
}.

(** The module-level variables, the closures of the admitted sockets that
    have not closed, and every socket object handed to the server. *)
Record state := {
  agents : gmap jsstring session;
  totalConnections : Z;
  lastRateLimitReset : Z;
  conns : gmap sock conn;
  socks : gmap sock socket;
}.

Definition set_agents (a : gmap jsstring session) (st : state) : state :=
  {| agents := a; totalConnections := totalConnections st;
     lastRateLimitReset := lastRateLimitReset st;
     conns := conns st; socks := socks st |}.

Definition set_totalConnections (n : Z) (st : state) : state :=
  {| agents := agents st; totalConnections := n;
     lastRateLimitReset := lastRateLimitReset st;
     conns := conns st; socks := socks st |}.

Definition set_lastRateLimitReset (t : Z) (st : state) : state :=
  {| agents := agents st; totalConnections := totalConnections st;
     lastRateLimitReset := t;
     conns := conns st; socks := socks st |}.

Definition set_conns (c : gmap sock conn) (st : state) : state :=
  {| agents := agents st; totalConnections := totalConnections st;
     lastRateLimitReset := lastRateLimitReset st;
     conns := c; socks := socks st |}.

Definition set_socks (s : gmap sock socket) (st : state) : state :=
  {| agents := agents st; totalConnections := totalConnections st;
     lastRateLimitReset := lastRateLimitReset st;
     conns := conns st; socks := s |}.

(** The state when the script has been loaded at time [now]. *)
Definition init (now : Z) : state :=
  {| agents := ∅; totalConnections := 0; lastRateLimitReset := now;
     conns := ∅; socks := ∅ |}.

(** *** Socket operations *)

(** A socket as the ['connection'] event delivers it. *)
Definition accepted_socket : socket :=
  {| readyState := OPEN; closeCode := None; sent := []; pings := 0 |}.

Definition is_open (ss : gmap sock socket) (ws : sock) : bool :=
  match ss !! ws with
  | Some s => bool_decide (readyState s = OPEN)
  | None => false
  end.

(** The close codes [ws.close] accepts (the library's
    [isValidStatusCode]): the assigned codes of the protocol without the
    three reserved for local use, and the range left to applications. *)
Definition isValidStatusCode (code : Z) : bool :=
  (1000 <=? code) && (code <=? 1014)
  && negb (code =? 1004) && negb (code =? 1005) && negb (code =? 1006)
  || (3000 <=? code) && (code <=? 4999).

(** [ws.close(code)] on an open socket: the socket after the call,
    whether it returned or threw.  The library marks the socket as closing
    and then has the close frame written; for a code it does not accept
    that step throws a [TypeError] and no frame is written. *)
Definition ws_close (ws : sock) (code : Z)
    (ss : gmap sock socket) : gmap sock socket :=
  match ss !! ws with
  | Some s =>
      <[ws := {| readyState := CLOSING;
                 closeCode := if isValidStatusCode code then Some code
                              else closeCode s;
                 sent := sent s; pings := pings s |}]> ss
  | None => ss
  end.

(** [ws.send(payload)]. *)
Definition ws_send (ws : sock) (payload : raw)
    (ss : gmap sock socket) : gmap sock socket :=
  match ss !! ws with
  | Some s =>
      <[ws := {| readyState := readyState s; closeCode := closeCode s;
                 sent := sent s ++ [payload]; pings := pings s |}]> ss
  | None => ss
  end.

(** [ws.ping()]. *)
Definition ws_ping (ws : sock) (ss : gmap sock socket) : gmap sock socket :=
  match ss !! ws with
  | Some s =>
      <[ws := {| readyState := readyState s; closeCode := closeCode s;
                 sent := sent s; pings := S (pings s) |}]> ss
  | None => ss
  end.

(** The library marks the socket closed before it emits ['close']. *)
Definition ws_closed (ws : sock) (ss : gmap sock socket) : gmap sock socket :=
  match ss !! ws with
  | Some s =>
      <[ws := {| readyState := CLOSED; closeCode := closeCode s;
                 sent := sent s; pings := pings s |}]> ss
  | None => ss
  end.

(** [closeSafe(ws, code)]: [ws] may be [null], and what [ws.close]
    throws is caught and dropped. *)
Definition closeSafe (ws : option sock) (code : Z)
    (ss : gmap sock socket) : gmap sock socket :=
  match ws with
  | Some w => if is_open ss w then ws_close w code ss else ss
  | None => ss
  end.

(** *** Outcomes *)

(** Which way a callback ended. *)
Inductive outcome :=
| NoListener                      (* nothing is registered for the event *)
| Rejected                        (* connection: over capacity *)
| Accepted                        (* connection: handlers installed *)
| RateDropped                     (* message: [return] of the rate limiter *)
| ParseError                      (* message: [JSON.parse] threw, caught *)
| Uncaught                        (* an exception leaves the callback *)
| AuthFailure                     (* message: failure response sent *)
| AuthSuccess (id : jsstring) (r : Role)
| NotBound                        (* message: no identity or no session *)
| Forwarded (peer : sock)         (* message: sent to the peer *)
| PeerMissing                     (* message: peer absent or not open *)
| Ignored                         (* message: end of the callback reached *)
| TimedOut                        (* heartbeat: timer cleared, socket closed *)
| Probed                          (* heartbeat: tick without time-out *)
| Ponged
| Closed_
| Errored
| Registered (id key : jsstring)  (* HTTP 200 *)
| BadRequest.                     (* HTTP 400 *)

(** *** POST /api/agents/register *)

(** [(data.agentId || '').trim()]: [None] where [trim] is not a function
    of the value. *)
Definition requested_id (data : json number) : option jsstring :=
  let v := get_prop data (lit "agentId") in
  match (if truthy v then v else Some (JStr [])) with
  | Some (JStr s) => Some (trim s)
  | _ => None
  end.

(** The ['end'] callback of a registration request with body [body];
    [idBytes] and [keyBytes] are the results of [crypto.randomBytes(4)]
    and [crypto.randomBytes(16)]. *)
Definition on_register (body : raw) (now : Z)
    (idBytes keyBytes : list Byte.byte) (st : state) : outcome * state :=
  match JSON_parse body with
  | None | Some JNull => (BadRequest, st)
  | Some data =>
      match requested_id data with
      | None => (BadRequest, st)
      | Some trimmed =>
          let agentId :=
            if bool_decide (trimmed = []) then lit "agent-" ++ hex_of_bytes idBytes
            else trimmed in
          let accessKey := hex_of_bytes keyBytes in
          (Registered agentId accessKey,
           set_agents
             (<[agentId := {| accessKey := accessKey; created := now;
                              gameWs := None; agentWs := None |}]> (agents st))
             st)
      end
  end.

(** *** wss.on('connection') *)

Definition new_conn (now : Z) : conn :=
  {| agentId := None; role := None; lastPing := now; rateCount := 0;
     heartbeat := Some (HEARTBEAT_MS # 2) |}.

Definition on_connection (ws : sock) (now : Z) (st : state) : outcome * state :=
  let st := set_socks (<[ws := accepted_socket]> (socks st)) st in
  if totalConnections st >=? MAX_CONNECTIONS then
    (Rejected, set_socks (closeSafe (Some ws) 1013 (socks st)) st)
  else
    (Accepted,
     set_conns (<[ws := new_conn now]> (conns st))
       (set_totalConnections (totalConnections st + 1) st)).

(** *** The heartbeat timer and ws.on('pong') *)

Definition set_heartbeat (h : option Q) (c : conn) : conn :=
  {| agentId := agentId c; role := role c; lastPing := lastPing c;
     rateCount := rateCount c; heartbeat := h |}.

Definition set_lastPing (t : Z) (c : conn) : conn :=
  {| agentId := agentId c; role := role c; lastPing := t;
     rateCount := rateCount c; heartbeat := heartbeat c |}.

Definition set_rateCount (n : Z) (c : conn) : conn :=
  {| agentId := agentId c; role := role c; lastPing := lastPing c;
     rateCount := n; heartbeat := heartbeat c |}.

Definition set_identity (id : jsstring) (r : Role) (c : conn) : conn :=
  {| agentId := Some id; role := Some r; lastPing := lastPing c;
     rateCount := rateCount c; heartbeat := heartbeat c |}.

(** The callback of [setInterval]; a cleared timer does not fire. *)
Definition on_tick (ws : sock) (now : Z) (st : state) : outcome * state :=
  match conns st !! ws with
  | None => (NoListener, st)
  | Some c =>
      match heartbeat c with
      | None => (NoListener, st)
      | Some _ =>
          if now - lastPing c >? HEARTBEAT_MS then
            (TimedOut,
             set_socks (closeSafe (Some ws) 1000 (socks st))
               (set_conns (<[ws := set_heartbeat None c]> (conns st)) st))
          else
            (Probed,
             if is_open (socks st) ws
             then set_socks (ws_ping ws (socks st)) st
             else st)
      end
  end.

Definition on_pong (ws : sock) (now : Z) (st : state) : outcome * state :=
  match conns st !! ws with
  | None => (NoListener, st)
  | Some c => (Ponged, set_conns (<[ws := set_lastPing now c]> (conns st)) st)
  end.

(** *** ws.on('message') *)

(** [role === 'agent' ? RATE_LIMIT_AGENT : RATE_LIMIT_GAME]. *)
Definition rate_limit (r : option Role) : Z :=
  match r with
  | Some Agent => RATE_LIMIT_AGENT
  | _ => RATE_LIMIT_GAME
  end.

(** The window check at the head of the callback: the shared clock and
    this connection's counter after it. *)
Definition window_reset (now : Z) (st : state) (c : conn) : Z * Z :=
  if now - lastRateLimitReset st >? 1000 then (now, 0)
  else (lastRateLimitReset st, rateCount c).

(** [role !== null && rateCount.n >= limit]. *)
Definition over_limit (r : option Role) (n : Z) : bool :=
  match r with
  | None => false
  | Some _ => n >=? rate_limit r
  end.

Definition set_gameWs (w : option sock) (a : session) : session :=
  {| accessKey := accessKey a; created := created a;
     gameWs := w; agentWs := agentWs a |}.

Definition set_agentWs (w : option sock) (a : session) : session :=
  {| accessKey := accessKey a; created := created a;
     gameWs := gameWs a; agentWs := w |}.

(** [if (old && old !== ws) closeSafe(old, 4000)]. *)
Definition evict (old : option sock) (ws : sock)
    (ss : gmap sock socket) : gmap sock socket :=
  match old with
  | Some w => if bool_decide (w ≠ ws) then closeSafe old 4000 ss else ss
  | None => ss
  end.

(** [agents.get(id)]: every key of the map is a string. *)
Definition agents_get (a : gmap jsstring session) (id : jsval) : option session :=
  match id with
  | Some (JStr s) => a !! s
  | _ => None
  end.

Definition role_name (r : Role) : string :=
  match r with Game => "game" | Agent => "agent" end.

Definition auth_failure_response : json number :=
  object [("type", JStr (lit "auth_response"));
          ("status", JStr (lit "failure"));
          ("message", JStr (lit "Invalid credentials"))]%string.

Definition auth_success_response (uuid : jsstring) (r : Role) : json number :=
  object [("type", JStr (lit "auth_response"));
          ("status", JStr (lit "success"));
          ("sessionId", JStr uuid);
          ("role", JStr (lit (role_name r)))]%string.

(** The branch [data.type === 'auth']; [c] is the closure after the rate
    limiter and [uuid] the result of [crypto.randomUUID()].  The check runs
    for a registered identity only, and nothing catches what it throws. *)
Definition on_auth (ws : sock) (c : conn) (data : json number)
    (uuid : jsstring) (st : state) : outcome * state :=
  let id := get_prop data (lit "agentId") in
  let challenge := get_prop data (lit "challenge") in
  let response := get_prop data (lit "response") in
  match id, agents_get (agents st) id with
  | Some (JStr id), Some agent =>
      match verifyChallenge challenge response (accessKey agent) with
      | None => (Uncaught, st)
      | Some true =>
        let role :=
          if strict_eq_str (get_prop data (lit "role")) (lit "agent")
          then Agent else Game in
        let '(agent', ss) :=
          match role with
          | Game => (set_gameWs (Some ws) agent,
                     evict (gameWs agent) ws (socks st))
          | Agent => (set_agentWs (Some ws) agent,
                      evict (agentWs agent) ws (socks st))
          end in
        let ss := ws_send ws (JSON_stringify (auth_success_response uuid role)) ss in
        (AuthSuccess id role,
         set_socks ss
           (set_agents (<[id := agent']> (agents st))
              (set_conns (<[ws := set_identity id role c]> (conns st)) st)))
      | Some false =>
        (AuthFailure,
         set_socks (ws_send ws (JSON_stringify auth_failure_response) (socks st)) st)
      end
  | _, _ =>
      (AuthFailure,
       set_socks (ws_send ws (JSON_stringify auth_failure_response) (socks st)) st)
  end.

(** Delivery to the peer socket [peer] of the session, if it is there and
    open. *)
Definition deliver (peer : option sock) (payload : json number)
    (st : state) : outcome * state :=
  match peer with
  | Some w =>
      if is_open (socks st) w
      then (Forwarded w, set_socks (ws_send w (JSON_stringify payload) (socks st)) st)
      else (PeerMissing, st)
  | None => (PeerMissing, st)
  end.

(** [data.type === 'action' || (data.steer !== undefined && data.jump !== undefined)]. *)
Definition is_action (data : json number) : bool :=
  strict_eq_str (get_prop data (lit "type")) (lit "action")
  || (bool_decide (get_prop data (lit "steer") ≠ None)
      && bool_decide (get_prop data (lit "jump") ≠ None)).

(** [data.type === 'action' ? data : { type: 'action', ...data }]. *)
Definition action_payload (data : json number) : json number :=
  if strict_eq_str (get_prop data (lit "type")) (lit "action") then data
  else spread_over {[ lit "type" := JStr (lit "action") ]} data.

(** The part of the callback after the [auth] branch. *)
Definition route (c : conn) (data : json number) (st : state) : outcome * state :=
  match agentId c with
  | None | Some [] => (NotBound, st)
  | Some id =>
      match agents st !! id with
      | None => (NotBound, st)
      | Some agent =>
          if bool_decide (role c = Some Game)
             && strict_eq_str (get_prop data (lit "type")) (lit "state")
          then deliver (agentWs agent) data st
          else if bool_decide (role c = Some Agent) && is_action data
          then deliver (gameWs agent) (action_payload data) st
          else (Ignored, st)
      end
  end.

(** The whole callback for the frame [raw] received at time [now]. *)
Definition on_message (ws : sock) (raw_ : raw) (now : Z) (uuid : jsstring)
    (st : state) : outcome * state :=
  match conns st !! ws with
  | None => (NoListener, st)
  | Some c =>
      let '(reset, n) := window_reset now st c in
      let st := set_lastRateLimitReset reset st in
      if over_limit (role c) n then
        (RateDropped, set_conns (<[ws := set_rateCount n c]> (conns st)) st)
      else
        let c := set_rateCount (n + 1) c in
        let st := set_conns (<[ws := c]> (conns st)) st in
        match JSON_parse raw_ with
        | None => (ParseError, st)
        | Some JNull => (Uncaught, st)
        | Some data =>
            if strict_eq_str (get_prop data (lit "type")) (lit "auth")
            then on_auth ws c data uuid st
            else route c data st
        end
  end.

(** *** ws.on('close') and ws.on('error') *)

(** The detach of the close callback. *)
Definition detach (ws : sock) (c : conn)
    (a : gmap jsstring session) : gmap jsstring session :=
  match agentId c with
  | None | Some [] => a
  | Some id =>
      match a !! id with
      | None => a
      | Some agent =>
          if bool_decide (role c = Some Game)
             && bool_decide (gameWs agent = Some ws)
          then <[id := set_gameWs None agent]> a
          else if bool_decide (role c = Some Agent)
                  && bool_decide (agentWs agent = Some ws)
          then <[id := set_agentWs None agent]> a
          else a
      end
  end.

(** The ['close'] event: it is emitted once per socket, and no callback of
    the socket runs after it, so its closure leaves [conns]. *)
Definition on_close (ws : sock) (st : state) : outcome * state :=
  let st := set_socks (ws_closed ws (socks st)) st in
  match conns st !! ws with
  | None => (NoListener, st)
  | Some c =>
      (Closed_,
       set_agents (detach ws c (agents st))
         (set_conns (delete ws (conns st))
            (set_totalConnections (totalConnections st - 1) st)))
  end.

(** A socket that was handed to the server and has not emitted
    ['close'] yet. *)
Definition before_close (ss : gmap sock socket) (ws : sock) : bool :=
  match ss !! ws with
  | Some s => bool_decide (readyState s ≠ CLOSED)
  | None => false
  end.

(** The ['error'] event.  A socket without a closure that has not closed
    was turned away by the ['connection'] callback, which returns before
    it reaches [ws.on('error', ...)]: the event finds no listener, and an
    ['error'] event without a listener is thrown by the emitter. *)
Definition on_error (ws : sock) (st : state) : outcome * state :=
  match conns st !! ws with
  | None =>
      if before_close (socks st) ws then (Uncaught, st) else (NoListener, st)
  | Some c => (Errored, set_conns (<[ws := set_heartbeat None c]> (conns st)) st)
  end.

(** *** The event loop *)

(** What the run-time delivers to the server, one callback at a time. *)
Inductive event :=
| Register (body : raw) (now : Z) (idBytes keyBytes : list Byte.byte)
| Connection (ws : sock) (now : Z)
| Message (ws : sock) (raw_ : raw) (now : Z) (uuid : jsstring)
| Pong (ws : sock) (now : Z)
| Tick (ws : sock) (now : Z)
| Close (ws : sock)
| Error (ws : sock).

Definition handle (ev : event) (st : state) : outcome * state :=
  match ev with
  | Register body now idBytes keyBytes => on_register body now idBytes keyBytes st
  | Connection ws now => on_connection ws now st
  | Message ws raw_ now uuid => on_message ws raw_ now uuid st
  | Pong ws now => on_pong ws now st
  | Tick ws now => on_tick ws now st
  | Close ws => on_close ws st
  | Error ws => on_error ws st
  end.

(** The one assumption on the run-time: a ['connection'] event brings a
    socket object the server has not seen before. *)
Definition enabled (ev : event) (st : state) : bool :=
  match ev with
  | Connection ws _ =>
      match socks st !! ws with None => true | Some _ => false end
  | _ => true
  end.

Definition uncaught (o : outcome) : bool :=
  match o with Uncaught => true | _ => false end.

(** Running a sequence of events; an exception that leaves a callback
    ends the process. *)
Fixpoint run (evs : list event) (st : state) : option state :=
  match evs with
  | [] => Some st
  | ev :: evs' =>
      if enabled ev st then
        let '(o, st') := handle ev st in
        if uncaught o then None else run evs' st'
      else None
  end.

Inductive reachable : state -> Prop :=
| reachable_init (now : Z) : reachable (init now)
| reachable_step (st st' : state) (ev : event) (o : outcome) :
    reachable st ->
    enabled ev st = true ->
    handle ev st = (o, st') ->
    uncaught o = false ->
    reachable st'.

(** Heartbeat ticks of one socket at the times [ts], nothing else
    happening in between. *)
Definition run_ticks (ws : sock) (ts : list Z) (st : state) : state :=
  fold_left (fun s t => (on_tick ws t s).2) ts st.

(** *** Vocabulary of the properties *)

(** The closure and the state with which a message that passed the rate
    limiter is parsed. *)
Definition counted (ws : sock) (now : Z) (st : state) (c : conn) : conn * state :=
  let c' := set_rateCount ((window_reset now st c).2 + 1) c in
  (c', set_conns (<[ws := c']> (conns st))
         (set_lastRateLimitReset (window_reset now st c).1 st)).

(** The socket field of a session for a role. *)
Definition role_socket (r : Role) (a : session) : option sock :=
  match r with Game => gameWs a | Agent => agentWs a end.

Definition set_role_socket (r : Role) (w : option sock) (a : session) : session :=
  match r with Game => set_gameWs w a | Agent => set_agentWs w a end.

(** [data.role === 'agent' ? 'agent' : 'game']. *)
Definition requested_role (data : json number) : Role :=
  if strict_eq_str (get_prop data (lit "role")) (lit "agent") then Agent else Game.

(** The time between two heartbeat ticks is at most the delay of the timer
    plus [jitter] milliseconds, from the tick (or the start of the timer) at
    [prev] on. *)
Fixpoint paced (jitter prev : Z) (ts : list Z) : Prop :=
  match ts with
  | [] => True
  | t :: ts' =>
      prev <= t
      /\ (inject_Z (t - prev) <= (HEARTBEAT_MS # 2) + inject_Z jitter)%Q
      /\ paced jitter t ts'
  end.

(** A closure is bound when its identity and role are set together and
    the identity is registered. *)
Definition bound (a : gmap jsstring session) (c : conn) : Prop :=
  match role c with
  | Some _ => exists id, agentId c = Some id /\ is_Some (a !! id)
  | None => agentId c = None
  end.

(** What every state the server can be in satisfies. *)
Record consistent (st : state) : Prop := {
  inv_total : totalConnections st = Z.of_nat (size (conns st));
  inv_capacity : totalConnections st <= Z.max 0 MAX_CONNECTIONS;
  inv_socks : forall ws, is_Some (conns st !! ws) -> is_Some (socks st !! ws);
  inv_keys : agents st !! [] = None;
  inv_bound : forall ws c, conns st !! ws = Some c -> bound (agents st) c;
}.

(** The change of [totalConnections] that goes with an outcome. *)
Definition total_delta (o : outcome) : Z :=
  match o with
  | Accepted => 1
  | Closed_ => -1
  | _ => 0
  end.

(** The role a payload of a role is delivered to. *)
Definition peer_role (r : Role) : Role :=
  match r with Game => Agent | Agent => Game end.

(** The own properties of a value with [type: 'action'] set among them. *)
Definition tagged_action (data : json number) : json number :=
  match data with
  | JObj m => JObj (<[lit "type" := JStr (lit "action")]> m)
  | _ => JObj {[ lit "type" := JStr (lit "action") ]}
  end.

(** The shapes the router forwards for a role. *)
Definition forwardable (r : Role) (data : json number) : bool :=
  match r with
  | Game => strict_eq_str (get_prop data (lit "type")) (lit "state")
  | Agent => is_action data
  end.

End Relay.

Arguments closeSafe : simpl never.
Arguments evict : simpl never.
Arguments ws_send : simpl never.
Arguments ws_close : simpl never.
Arguments ws_ping : simpl never.
Arguments ws_closed : simpl never.
Arguments is_open : simpl never.
Arguments detach : simpl never.
Arguments window_reset : simpl never.
Arguments before_close : simpl never.

(** ** Further parts of the scripts *)

(** *** Reading a digest back *)

(** The hash of [signChallenge] without the wrap-around: the polynomial
    in 31 with the code units as coefficients. *)
Definition poly31 (s : jsstring) (h : Z) : Z :=
  fold_left (fun h c => 31 * h + Z.of_N c) s h.

(** The polynomial of a string wrapped to 32 bits. *)
Definition hash32 (s : jsstring) : Z := ToInt32 (poly31 s 0).

(** The inverse of [toString16], to state that the rendering loses
    nothing: the value of a hexadecimal digit, of a digit string, and of
    a signed digit string. *)
Definition hex_digit_value (c : N) : N :=
  if (c <? 58)%N then (c - 48)%N else (c - 87)%N.

Definition hex_value (s : jsstring) : N :=
  fold_left (fun v c => (16 * v + hex_digit_value c)%N) s 0%N.

Definition parse16 (s : jsstring) : Z :=
  match s with
  | 45%N :: r => - Z.of_N (hex_value r)
  | _ => Z.of_N (hex_value s)
  end.

(** The characters of a digest: the digits and [a] to [f]. *)
Definition is_hex_char (c : N) : bool :=
  ((48 <=? c) && (c <=? 57) || (97 <=? c) && (c <=? 102))%N.

(** *** The first message of the client (moltly_agent_bot.js) *)

Module BotClient.
Section Client.
Context `{Host}.

(** [s.padStart(len, fill)] for a one-character [fill]. *)
Definition padStart (len : nat) (fill : N) (s : jsstring) : jsstring :=
  replicate (len - length s) fill ++ s.

(** [Array.from(bytes).map(b => b.toString(16).padStart(2, '0')).join('')]. *)
Definition challenge_of (bytes : list Byte.byte) : jsstring :=
  concat (map (fun b => padStart 2 48%N (toString16 (Z.of_N (Byte.to_N b)))) bytes).

(** The object sent by the ['open'] callback of [runBot(agentId,
    accessKey)]; [bytes] is [crypto.randomBytes(32)] and [timestamp] is
    [Date.now()].  [None] where [signChallenge] throws. *)
Definition auth_message (agentId accessKey : jsstring)
    (bytes : list Byte.byte) (timestamp : number) : option (json number) :=
  let challenge := challenge_of bytes in
  response ← Bot.signChallenge (Some (JStr challenge)) accessKey;
  Some (object [("type", JStr (lit "auth"));
                ("role", JStr (lit "agent"));
                ("agentId", JStr agentId);
                ("challenge", JStr challenge);
                ("response", JStr response);
                ("timestamp", JNum timestamp)]%string).

(** The body of the request of [register()]. *)
Definition register_body (agentId : jsstring) : json number :=
  object [("agentId", JStr agentId)]%string.

End Client.
End BotClient.

(** *** GET /stats and the liveness of a connection *)

Section Observers.
Context `{Host} `{Config}.

(** [w && w.readyState === WebSocket.OPEN]. *)
Definition is_open_ref (ss : gmap sock socket) (w : option sock) : bool :=
  match w with
  | Some w => is_open ss w
  | None => false
  end.

(** The numbers reported by [/stats]. *)
Record stats := {
  stat_connections : Z;
  stat_games : nat;
  stat_agents : nat;
  stat_registeredAgents : nat;
  stat_maxConnections : Z;
}.

Definition on_stats (st : state) : stats :=
  {| stat_connections := totalConnections st;
     stat_games :=
       size (filter (fun kv => is_open_ref (socks st) (gameWs kv.2) = true) (agents st));
     stat_agents :=
       size (filter (fun kv => is_open_ref (socks st) (agentWs kv.2) = true) (agents st));
     stat_registeredAgents := size (agents st);
     stat_maxConnections := MAX_CONNECTIONS |}.

(** The keys listed by [GET /api/agents], and their number.  The script
    lists them in the order of insertion, which the finite map does not
    record: the list stands for its elements only. *)
Definition on_list_agents (st : state) : list jsstring * nat :=
  ((map_to_list (agents st)).*1, size (agents st)).

(** Heartbeat events of one socket. *)
Inductive hb_event := HTick (t : Z) | HPong (t : Z).

Definition run_heartbeat (ws : sock) (evs : list hb_event) (st : state) : state :=
  fold_left
    (fun s e => match e with
                | HTick t => (on_tick ws t s).2
                | HPong t => (on_pong ws t s).2
                end) evs st.

(** Every tick comes at most [HEARTBEAT_MS] after the latest pong before
    it, [last] being the time of the latest pong so far. *)
Fixpoint answered (last : Z) (evs : list hb_event) : Prop :=
  match evs with
  | [] => True
  | HTick t :: evs' => t - last <= HEARTBEAT_MS /\ answered last evs'
  | HPong t :: evs' => answered t evs'
  end.

Fixpoint ticks_in (evs : list hb_event) : nat :=
  match evs with
  | [] => 0
  | HTick _ :: evs' => S (ticks_in evs')
  | HPong _ :: evs' => ticks_in evs'
  end.

(** The order in which a socket passes through its states. *)
Definition ready_rank (r : ready_state) : nat :=
  match r with CONNECTING => 0 | OPEN => 1 | CLOSING => 2 | CLOSED => 3 end.

(** [s'] is a later stage of the socket [s]: nothing sent is taken back,
    the state has not moved backwards, and the close code of a socket
    that is closing or closed is kept. *)
Definition later_socket (s s' : socket) : Prop :=
  sent s `prefix_of` sent s'
  /\ (pings s <= pings s')%nat
  /\ (ready_rank (readyState s) <= ready_rank (readyState s'))%nat
  /\ ((2 <= ready_rank (readyState s))%nat -> closeCode s' = closeCode s).

(** The sockets of [ss] are all in [ss'], each at a later stage. *)
Definition sockets_grow (ss ss' : gmap sock socket) : Prop :=
  forall w s, ss !! w = Some s ->
              exists s', ss' !! w = Some s' /\ later_socket s s'.

(** The socket an event belongs to. *)
Definition event_sock (ev : event) : option sock :=
  match ev with
  | Register _ _ _ _ => None
  | Connection ws _ | Message ws _ _ _ | Pong ws _ | Tick ws _
  | Close ws | Error ws => Some ws
  end.

(** Every open socket belongs to an admitted connection that has not
    closed. *)
Definition open_sockets_live (st : state) : Prop :=
  forall w s, socks st !! w = Some s -> readyState s = OPEN ->
              is_Some (conns st !! w).

End Observers.

(** ** A concrete host, for running the model *)

Module Demo.

(** Integers stand for the numbers, and a frame carries the parsed value
    itself, [None] standing for a text that is not JSON. *)
#[local] Instance host : Host := {|
  number := Z;
  Number_toString := fun z => lit (pretty z);
  Number_truthy := fun z => negb (z =? 0);
  raw := option (json Z);
  JSON_parse := fun r => r;
  JSON_stringify := fun j => Some j;
|}.

(** The configuration with no environment variable set. *)
#[local] Instance defaults : Config := startup empty_environment.

(** A server that admits two connections. *)
Definition two_slots : Config :=
  startup {| env_MAX_CONNECTIONS := Some 2; env_HEARTBEAT_MS := None;
             env_RATE_LIMIT_GAME := None; env_RATE_LIMIT_AGENT := None |}.

(** A server whose game ceiling is above its agent ceiling. *)
Definition game_heavy : Config :=
  startup {| env_MAX_CONNECTIONS := None; env_HEARTBEAT_MS := None;
             env_RATE_LIMIT_GAME := Some 50; env_RATE_LIMIT_AGENT := Some 10 |}.

Definition str (s : string) : json Z := JStr (lit s).

(** The identity ["x"] with the secret ["s1"]. *)
Definition session_x : session :=
  {| accessKey := lit "s1"; created := 0; gameWs := None; agentWs := None |}.

(** The digest of a challenge string and a key. *)
Definition digest (challenge key : string) : jsstring :=
  default [] (signChallenge (Some (str challenge)) (lit key)).

(** An [auth] message for the identity [id] signed with [key]. *)
Definition auth_msg (id key challenge role : string) : json Z :=
  object [("type", str "auth"); ("role", str role); ("agentId", str id);
          ("challenge", str challenge);
          ("response", JStr (digest challenge key));
          ("timestamp", JNum 0)]%string.

(** The state reached from start-up at time 0 by the events [evs]. *)
Definition after (evs : list event) : state :=
  default (init 0) (run evs (init 0)).

Definition uuid : jsstring := lit "1b4e28ba-2fa1-11d2-883f-0016d3cca427".

(** Registration of the identity ["x"]; the key bytes give the secret
    ["7331"]. *)
Definition register_x : event :=
  Register (Some (object [("agentId", str "x")]%string)) 0 []
    [Byte.x73; Byte.x31].

(** A second registration of ["x"], with other key bytes. *)
Definition register_x_again : event :=
  Register (Some (object [("agentId", str "x")]%string)) 5 []
    [Byte.xab; Byte.xcd].

Definition auth_x (role : string) : raw :=
  Some (auth_msg "x" "7331" "c0ffee" role).

Definition bad_auth_x : raw :=
  Some (auth_msg "x" "wrong" "c0ffee" "game").

Definition state_msg : json Z :=
  object [("type", str "state"); ("data", object [("level", JNum 1)])]%string.

Definition steer_msg : json Z :=
  object [("steer", JNum 1); ("jump", JBool false);
          ("boost", JBool false); ("usePowerUp", JBool false)]%string.

(** Control fields under a type tag of their own. *)
Definition tagged_steer_msg : json Z :=
  object [("type", str "move"); ("steer", JNum 1); ("jump", JBool false)]%string.

(** Control fields in an [auth] message with a wrong response. *)
Definition auth_steer_msg : json Z :=
  object [("type", str "auth"); ("agentId", str "x"); ("challenge", str "c");
          ("response", str "0"); ("steer", JNum 1); ("jump", JBool false)]%string.

(** An [auth] message for the registered identity ["x"] whose challenge is
    the object [{"toString": 1}]; the response is the digest of
    ["[object Object]"] and the secret. *)
Definition unprintable_auth_msg : json Z :=
  object [("type", str "auth"); ("agentId", str "x");
          ("challenge", object [("toString", JNum 1)]);
          ("response", str "-74c753ae")]%string.

(** The same for an identity that is not registered. *)
Definition unprintable_stranger_msg : json Z :=
  object [("type", str "auth"); ("agentId", str "nobody");
          ("challenge", object [("toString", JNum 1)]);
          ("response", str "0")]%string.

Definition chat_msg : json Z :=
  object [("type", str "chat"); ("text", str "hello")]%string.

(** One connection, not authenticated. *)
Definition connected_events : list event :=
  [register_x; Connection 1 10].

(** Socket 1 is the game and socket 2 the agent of ["x"]. *)
Definition paired_events : list event :=
  connected_events
  ++ [Connection 2 11; Message 1 (auth_x "game") 20 uuid;
      Message 2 (auth_x "agent") 21 uuid].

(** A third socket, connected and not authenticated. *)
Definition challenger_events : list event :=
  paired_events ++ [Connection 3 30].

(** Twenty-four frames that are not JSON, all within the first second. *)
Definition noise (ws : sock) : list event :=
  replicate 24 (Message ws None 15 uuid).

(** Noise first, then a successful authentication as game. *)
Definition noisy_events : list event :=
  connected_events ++ noise 1 ++ [Message 1 (auth_x "game") 20 uuid].

(** Two admitted connections on the server with two slots. *)
Definition full_house : state :=
  default (init 0) (run (H0 := two_slots) [Connection 1 10; Connection 2 11] (init 0)).

(** Heartbeat ticks of the connection admitted at time 10, one timer
    delay apart. *)
Definition ticks : list Z := [15010; 30010; 45010].

Definition session_x_paired : session :=
  {| accessKey := lit "7331"; created := 0;
     gameWs := Some 1%nat; agentWs := Some 2%nat |}.

(** Socket 2 of the paired session: it has been sent the success
    response. *)
Definition agent_socket : socket :=
  {| readyState := OPEN; closeCode := None;
     sent := [Some (auth_success_response uuid Agent)]; pings := 0 |}.

(** The body of the registration request for ["x"]. *)
Definition body_x : raw := Some (object [("agentId", str "x")]%string).

(** The session of ["x"] as registered, before any socket. *)
Definition session_x_fresh : session :=
  {| accessKey := lit "7331"; created := 0; gameWs := None; agentWs := None |}.

(** Ticks of the connection admitted at time 10 with a pong after each of
    the first two. *)
Definition answers : list hb_event :=
  [HTick 15010; HPong 15020; HTick 30010; HPong 30020; HTick 45010].

(** The paired session after the agent socket has closed. *)
Definition agent_gone_events : list event :=
  paired_events ++ [Close 2].

(** The paired session after twenty-four more frames of the game socket
    within the first second: its counter is at the ceiling. *)
Definition throttled_events : list event :=
  paired_events ++ replicate 24 (Message 1 (Some chat_msg) 30 uuid).

(** The server with two slots after it has turned a third socket away. *)
Definition turned_away : state :=
  (on_connection (H0 := two_slots) 3 30 full_house).2.

Definition game_conn : conn :=
  {| agentId := Some (lit "x"); role := Some Game; lastPing := 10;
     rateCount := 1; heartbeat := Some (30000 # 2) |}.

Definition agent_conn : conn :=
  {| agentId := Some (lit "x"); role := Some Agent; lastPing := 11;
     rateCount := 1; heartbeat := Some (30000 # 2) |}.

End Demo.

(** * Properties *)

(** ** The fingerprint *)

Lemma ToInt32_range (x : Z) : - 2 ^ 31 <= ToInt32 x < 2 ^ 31.
Proof.
  unfold ToInt32.
  pose proof (Z.mod_pos_bound (x + 2 ^ 31) (2 ^ 32) ltac:(lia)). lia.
Qed.

Lemma ToInt32_small (x : Z) : - 2 ^ 31 <= x < 2 ^ 31 -> ToInt32 x = x.
Proof.
  intros Hx. unfold ToInt32. rewrite Z.mod_small by lia. lia.
Qed.

Lemma js_and_diag (x : Z) : js_and x x = ToInt32 x.
Proof.
  unfold js_and. rewrite Z.land_diag.
  apply ToInt32_small, ToInt32_range.
Qed.

Lemma ToInt32_wraps (x : Z) : exists k : Z, ToInt32 x = x + 2 ^ 32 * k.
Proof.
  exists (- ((x + 2 ^ 31) / 2 ^ 32)). unfold ToInt32.
  pose proof (Z.div_mod (x + 2 ^ 31) (2 ^ 32) ltac:(lia)). lia.
Qed.

Lemma ToInt32_periodic (x k : Z) : ToInt32 (x + 2 ^ 32 * k) = ToInt32 x.
Proof.
  unfold ToInt32. f_equal.
  replace (x + 2 ^ 32 * k + 2 ^ 31) with (x + 2 ^ 31 + k * 2 ^ 32) by lia.
  apply Z_mod_plus_full.
Qed.

(** The loop body keeps the hash a 32-bit integer: it is [31 * hash + char]
    wrapped to 32 bits. *)
Lemma hash_step_wrap (hash : Z) (char : N) :
  hash_step hash char = ToInt32 (31 * hash + Z.of_N char).
Proof.
  unfold hash_step. rewrite js_and_diag.
  unfold js_shl. rewrite Z.shiftl_mul_pow2 by lia.
  destruct (ToInt32_wraps hash) as [k1 ->].
  destruct (ToInt32_wraps ((hash + 2 ^ 32 * k1) * 2 ^ 5)) as [k2 ->].
  replace ((hash + 2 ^ 32 * k1) * 2 ^ 5 + 2 ^ 32 * k2 - hash + Z.of_N char)
    with (31 * hash + Z.of_N char + 2 ^ 32 * (32 * k1 + k2)) by lia.
  apply ToInt32_periodic.
Qed.

Lemma hash_fold_range (s : jsstring) (h : Z) :
  - 2 ^ 31 <= h < 2 ^ 31 -> - 2 ^ 31 <= fold_left hash_step s h < 2 ^ 31.
Proof.
  intros Hh. destruct s as [|c s _] using rev_ind; [exact Hh|].
  rewrite fold_left_app. cbn [fold_left]. rewrite hash_step_wrap.
  apply ToInt32_range.
Qed.

Lemma bot_hash_step_eq (h : Z) (c : N) : Bot.hash_step h c = hash_step h c.
Proof. unfold Bot.hash_step, hash_step. reflexivity. Qed.

Section FingerprintProperties.
Context `{Host}.

Lemma strict_eq_str_refl (s : jsstring) : strict_eq_str (Some (JStr s)) s = true.
Proof. unfold strict_eq_str. by rewrite bool_decide_eq_true. Qed.

Lemma strict_eq_str_true (v : jsval) (s : jsstring) :
  strict_eq_str v s = true <-> v = Some (JStr s).
Proof.
  unfold strict_eq_str. split.
  - destruct v as [[]|]; try discriminate.
    intros E. apply bool_decide_eq_true in E. by subst.
  - intros ->. by rewrite bool_decide_eq_true.
Qed.

Lemma signChallenge_None (challenge : jsval) (key : jsstring) :
  signChallenge challenge key = None <-> ToString challenge = None.
Proof.
  unfold signChallenge, js_add. by destruct (ToString challenge).
Qed.

Lemma signChallenge_string (challenge key : jsstring) :
  signChallenge (Some (JStr challenge)) key
  = Some (toString16 (fold_left hash_step (challenge ++ key) 0)).
Proof. reflexivity. Qed.

Lemma verifyChallenge_true (challenge response : jsval) (key : jsstring) :
  verifyChallenge challenge response key = Some true
  <-> exists digest, signChallenge challenge key = Some digest
                     /\ response = Some (JStr digest).
Proof.
  unfold verifyChallenge. destruct (signChallenge challenge key) as [d|]; simpl.
  - split.
    + intros [= E]. apply strict_eq_str_true in E. eauto.
    + intros (d' & [= <-] & ->). by rewrite strict_eq_str_refl.
  - split; [discriminate | by intros (d' & ? & _)].
Qed.

Lemma verifyChallenge_false (challenge response : jsval) (key : jsstring) :
  verifyChallenge challenge response key = Some false
  <-> exists digest, signChallenge challenge key = Some digest
                     /\ response ≠ Some (JStr digest).
Proof.
  unfold verifyChallenge. destruct (signChallenge challenge key) as [d|]; simpl.
  - split.
    + intros [= E]. exists d. split; [done|]. intros E'.
      apply strict_eq_str_true in E'. congruence.
    + intros (d' & [= <-] & Hne). f_equal.
      destruct (strict_eq_str response d) eqn:E; [|done].
      apply strict_eq_str_true in E. done.
  - split; [discriminate | by intros (d' & ? & _)].
Qed.

(** The check throws exactly where the challenge has no string. *)
Lemma verifyChallenge_None (challenge response : jsval) (key : jsstring) :
  verifyChallenge challenge response key = None <-> ToString challenge = None.
Proof.
  unfold verifyChallenge. rewrite <- (signChallenge_None challenge key).
  by destruct (signChallenge challenge key).
Qed.

Lemma bot_signChallenge_eq (c : jsval) (k : jsstring) :
  Bot.signChallenge c k = signChallenge c k.
Proof.
  unfold Bot.signChallenge, signChallenge, Bot.hash_step, hash_step. reflexivity.
Qed.

(** C1. For every challenge string and secret string, the digest exists
    and the check accepts it; the client's function gives a digest that the
    check accepts as well, the two functions being equal on every challenge
    value and key. *)
Theorem C1_verify_accepts_sign (challenge secret : jsstring) :
  (exists digest,
      signChallenge (Some (JStr challenge)) secret = Some digest
      /\ verifyChallenge (Some (JStr challenge)) (Some (JStr digest)) secret
         = Some true)
  /\ (exists digest,
         Bot.signChallenge (Some (JStr challenge)) secret = Some digest
         /\ verifyChallenge (Some (JStr challenge)) (Some (JStr digest)) secret
            = Some true)
  /\ (forall (c : jsval) (k : jsstring), Bot.signChallenge c k = signChallenge c k).
Proof.
  assert (Heq : forall (c : jsval) (k : jsstring),
             Bot.signChallenge c k = signChallenge c k).
  { intros c k. unfold Bot.signChallenge, signChallenge, Bot.hash_step, hash_step.
    reflexivity. }
  split; [|split; [|exact Heq]].
  - eexists. split; [apply signChallenge_string|].
    apply verifyChallenge_true. eexists. split; [apply signChallenge_string|done].
  - eexists. split; [rewrite Heq; apply signChallenge_string|].
    apply verifyChallenge_true. eexists. split; [apply signChallenge_string|done].
Qed.

End FingerprintProperties.

(** ** The relay *)

Section RelayProperties.
Context `{Host} `{Config}.

(** *** Sockets *)

Lemma ws_send_lookup_ne (ws w : sock) (p : raw) (ss : gmap sock socket) :
  w ≠ ws -> ws_send ws p ss !! w = ss !! w.
Proof.
  intros Hne. unfold ws_send. destruct (ss !! ws); [|done].
  by rewrite lookup_insert_ne.
Qed.

Lemma ws_send_lookup (ws : sock) (p : raw) (ss : gmap sock socket) (s : socket) :
  ss !! ws = Some s ->
  ws_send ws p ss !! ws
  = Some {| readyState := readyState s; closeCode := closeCode s;
            sent := sent s ++ [p]; pings := pings s |}.
Proof. intros E. unfold ws_send. rewrite E. apply lookup_insert_eq. Qed.

Lemma ws_send_is_Some (ws w : sock) (p : raw) (ss : gmap sock socket) :
  is_Some (ws_send ws p ss !! w) <-> is_Some (ss !! w).
Proof.
  unfold ws_send. destruct (ss !! ws) as [s|] eqn:E; [|done].
  destruct (decide (ws = w)) as [->|Hne].
  - rewrite lookup_insert_eq, E. split; eauto.
  - by rewrite lookup_insert_ne.
Qed.

Lemma ws_close_is_Some (ws w : sock) (code : Z) (ss : gmap sock socket) :
  is_Some (ws_close ws code ss !! w) <-> is_Some (ss !! w).
Proof.
  unfold ws_close. destruct (ss !! ws) as [s|] eqn:E; [|done].
  destruct (decide (ws = w)) as [->|Hne].
  - rewrite lookup_insert_eq, E. split; eauto.
  - by rewrite lookup_insert_ne.
Qed.

Lemma ws_ping_is_Some (ws w : sock) (ss : gmap sock socket) :
  is_Some (ws_ping ws ss !! w) <-> is_Some (ss !! w).
Proof.
  unfold ws_ping. destruct (ss !! ws) as [s|] eqn:E; [|done].
  destruct (decide (ws = w)) as [->|Hne].
  - rewrite lookup_insert_eq, E. split; eauto.
  - by rewrite lookup_insert_ne.
Qed.

Lemma ws_closed_is_Some (ws w : sock) (ss : gmap sock socket) :
  is_Some (ws_closed ws ss !! w) <-> is_Some (ss !! w).
Proof.
  unfold ws_closed. destruct (ss !! ws) as [s|] eqn:E; [|done].
  destruct (decide (ws = w)) as [->|Hne].
  - rewrite lookup_insert_eq, E. split; eauto.
  - by rewrite lookup_insert_ne.
Qed.

Lemma closeSafe_is_Some (old : option sock) (w : sock) (code : Z)
    (ss : gmap sock socket) :
  is_Some (closeSafe old code ss !! w) <-> is_Some (ss !! w).
Proof.
  unfold closeSafe. destruct old as [o|]; [|done].
  destruct (is_open ss o); [apply ws_close_is_Some | done].
Qed.

Lemma evict_is_Some (old : option sock) (ws w : sock) (ss : gmap sock socket) :
  is_Some (evict old ws ss !! w) <-> is_Some (ss !! w).
Proof.
  unfold evict. destruct old as [o|]; [|done].
  case_bool_decide; [apply closeSafe_is_Some | done].
Qed.

Lemma is_open_true (ss : gmap sock socket) (ws : sock) :
  is_open ss ws = true <-> exists s, ss !! ws = Some s /\ readyState s = OPEN.
Proof.
  unfold is_open. destruct (ss !! ws) as [s|]; split.
  - intros E. apply bool_decide_eq_true in E. eauto.
  - intros (s' & [= <-] & E). by apply bool_decide_eq_true.
  - discriminate.
  - by intros (s' & ? & _).
Qed.

(** Closing an open socket: it is closing with the given code, and keeps
    what was sent. *)
Lemma closeSafe_open (ws : sock) (code : Z) (ss : gmap sock socket) (s : socket) :
  isValidStatusCode code = true ->
  ss !! ws = Some s -> readyState s = OPEN ->
  closeSafe (Some ws) code ss
  = <[ws := {| readyState := CLOSING; closeCode := Some code;
               sent := sent s; pings := pings s |}]> ss.
Proof.
  intros Hv E Ho. unfold closeSafe.
  replace (is_open ss ws) with true by (symmetry; apply is_open_true; eauto).
  unfold ws_close. by rewrite E, Hv.
Qed.

(** The same with a code the library does not accept: the socket is left
    closing and no code has gone out. *)
Lemma closeSafe_open_invalid (ws : sock) (code : Z) (ss : gmap sock socket)
    (s : socket) :
  isValidStatusCode code = false ->
  ss !! ws = Some s -> readyState s = OPEN ->
  closeSafe (Some ws) code ss
  = <[ws := {| readyState := CLOSING; closeCode := closeCode s;
               sent := sent s; pings := pings s |}]> ss.
Proof.
  intros Hv E Ho. unfold closeSafe.
  replace (is_open ss ws) with true by (symmetry; apply is_open_true; eauto).
  unfold ws_close. by rewrite E, Hv.
Qed.

Lemma closeSafe_open_any (ws : sock) (code : Z) (ss : gmap sock socket)
    (s : socket) :
  ss !! ws = Some s -> readyState s = OPEN ->
  exists cc, closeSafe (Some ws) code ss
             = <[ws := {| readyState := CLOSING; closeCode := cc;
                          sent := sent s; pings := pings s |}]> ss.
Proof.
  intros E Ho. destruct (isValidStatusCode code) eqn:Hv.
  - exists (Some code). by apply closeSafe_open.
  - exists (closeCode s). by apply closeSafe_open_invalid.
Qed.

(** *** The rate limiter *)

Lemma over_limit_unauthenticated (n : Z) : over_limit None n = false.
Proof. reflexivity. Qed.

Lemma over_limit_spec (r : Role) (n : Z) :
  over_limit (Some r) n = true <-> rate_limit (Some r) <= n.
Proof. unfold over_limit. rewrite Z.geb_le. reflexivity. Qed.

(** The callback on a socket with a closure, split at the rate limiter. *)
Lemma on_message_dropped (ws : sock) (raw_ : raw) (now : Z) (uuid : jsstring)
    (st : state) (c : conn) :
  conns st !! ws = Some c ->
  over_limit (role c) (window_reset now st c).2 = true ->
  on_message ws raw_ now uuid st
  = (RateDropped,
     set_conns (<[ws := set_rateCount (window_reset now st c).2 c]> (conns st))
       (set_lastRateLimitReset (window_reset now st c).1 st)).
Proof.
  intros Hc Hover. unfold on_message. rewrite Hc.
  destruct (window_reset now st c) as [reset n]. simpl in *. by rewrite Hover.
Qed.

Lemma on_message_passed (ws : sock) (raw_ : raw) (now : Z) (uuid : jsstring)
    (st : state) (c : conn) :
  conns st !! ws = Some c ->
  over_limit (role c) (window_reset now st c).2 = false ->
  on_message ws raw_ now uuid st
  = match JSON_parse raw_ with
    | None => (ParseError, (counted ws now st c).2)
    | Some JNull => (Uncaught, (counted ws now st c).2)
    | Some data =>
        if strict_eq_str (get_prop data (lit "type")) (lit "auth")
        then on_auth ws (counted ws now st c).1 data uuid (counted ws now st c).2
        else route (counted ws now st c).1 data (counted ws now st c).2
    end.
Proof.
  intros Hc Hover. unfold on_message, counted. rewrite Hc.
  destruct (window_reset now st c) as [reset n]. simpl in *. rewrite Hover.
  reflexivity.
Qed.

(** *** Authentication *)

Lemma on_auth_failure (ws : sock) (c : conn) (data : json number)
    (uuid : jsstring) (st : state) :
  (forall agent,
      agents_get (agents st) (get_prop data (lit "agentId")) = Some agent ->
      verifyChallenge (get_prop data (lit "challenge"))
        (get_prop data (lit "response")) (accessKey agent) = Some false) ->
  on_auth ws c data uuid st
  = (AuthFailure,
     set_socks (ws_send ws (JSON_stringify auth_failure_response) (socks st)) st).
Proof.
  intros Hfail. unfold on_auth.
  destruct (get_prop data (lit "agentId")) as [[]|] eqn:Eid; try reflexivity.
  simpl in *. destruct (agents st !! s) as [agent|] eqn:Ea; [|reflexivity].
  by rewrite (Hfail agent eq_refl).
Qed.

Lemma on_auth_success (ws : sock) (c : conn) (data : json number)
    (uuid : jsstring) (st : state) (id : jsstring) (agent : session) :
  get_prop data (lit "agentId") = Some (JStr id) ->
  agents st !! id = Some agent ->
  verifyChallenge (get_prop data (lit "challenge"))
    (get_prop data (lit "response")) (accessKey agent) = Some true ->
  let r := requested_role data in
  on_auth ws c data uuid st
  = (AuthSuccess id r,
     set_socks
       (ws_send ws (JSON_stringify (auth_success_response uuid r))
          (evict (role_socket r agent) ws (socks st)))
       (set_agents (<[id := set_role_socket r (Some ws) agent]> (agents st))
          (set_conns (<[ws := set_identity id r c]> (conns st)) st))).
Proof.
  intros Eid Ea Hv r. unfold on_auth. rewrite Eid. simpl. rewrite Ea, Hv.
  subst r. unfold requested_role.
  by destruct (strict_eq_str (get_prop data (lit "role")) (lit "agent")).
Qed.

(** The check throws, and with it the callback. *)
Lemma on_auth_throws (ws : sock) (c : conn) (data : json number)
    (uuid : jsstring) (st : state) (agent : session) :
  agents_get (agents st) (get_prop data (lit "agentId")) = Some agent ->
  ToString (get_prop data (lit "challenge")) = None ->
  on_auth ws c data uuid st = (Uncaught, st).
Proof.
  intros Ea Hc. unfold on_auth.
  destruct (get_prop data (lit "agentId")) as [[]|] eqn:Eid; try discriminate.
  simpl in *. rewrite Ea.
  by rewrite (proj2 (verifyChallenge_None _ _ _) Hc).
Qed.

(** The three ways the [auth] branch ends. *)
Lemma on_auth_cases (ws : sock) (c : conn) (data : json number)
    (uuid : jsstring) (st : state) :
  (on_auth ws c data uuid st
   = (AuthFailure,
      set_socks (ws_send ws (JSON_stringify auth_failure_response) (socks st)) st))
  \/ (exists id agent,
         get_prop data (lit "agentId") = Some (JStr id)
         /\ agents st !! id = Some agent
         /\ verifyChallenge (get_prop data (lit "challenge"))
              (get_prop data (lit "response")) (accessKey agent) = Some true)
  \/ (on_auth ws c data uuid st = (Uncaught, st)
      /\ (exists agent,
             agents_get (agents st) (get_prop data (lit "agentId")) = Some agent)
      /\ ToString (get_prop data (lit "challenge")) = None).
Proof.
  destruct (get_prop data (lit "agentId")) as [[| | |id| |]|] eqn:Eid;
    try (left; apply on_auth_failure; rewrite Eid; simpl; congruence).
  destruct (agents st !! id) as [agent|] eqn:Ea.
  - destruct (verifyChallenge (get_prop data (lit "challenge"))
                (get_prop data (lit "response")) (accessKey agent))
      as [[]|] eqn:Hv.
    + right. left. eauto.
    + left. apply on_auth_failure. rewrite Eid. simpl. congruence.
    + right. right. apply verifyChallenge_None in Hv.
      assert (Hg : agents_get (agents st) (get_prop data (lit "agentId"))
                   = Some agent) by (by rewrite Eid).
      split; [by apply (on_auth_throws ws c data uuid st agent)|].
      split; [eauto|done].
  - left. apply on_auth_failure. rewrite Eid. simpl. congruence.
Qed.

(** *** The router *)

Lemma deliver_cases (peer : option sock) (payload : json number) (st : state) :
  (exists w, peer = Some w /\ is_open (socks st) w = true
             /\ deliver peer payload st
                = (Forwarded w,
                   set_socks (ws_send w (JSON_stringify payload) (socks st)) st))
  \/ ((forall w, peer = Some w -> is_open (socks st) w = false)
      /\ deliver peer payload st = (PeerMissing, st)).
Proof.
  unfold deliver. destruct peer as [w|].
  - destruct (is_open (socks st) w) eqn:E.
    + left. eauto.
    + right. split; [|done]. by intros ? [= <-].
  - right. split; [|done]. discriminate.
Qed.

Lemma route_agents (c : conn) (data : json number) (st : state) :
  agents (route c data st).2 = agents st
  /\ conns (route c data st).2 = conns st
  /\ totalConnections (route c data st).2 = totalConnections st
  /\ lastRateLimitReset (route c data st).2 = lastRateLimitReset st.
Proof.
  unfold route.
  destruct (agentId c) as [[|u id]|]; [done| |done].
  destruct (agents st !! (u :: id)) as [agent|]; [|done].
  repeat match goal with
         | |- context [if ?b then _ else _] => destruct b
         end; try done;
    unfold deliver;
    repeat match goal with
           | |- context [match ?x with _ => _ end] => destruct x
           end; done.
Qed.

Lemma route_not_forwardable (c : conn) (r : Role) (data : json number) (st : state) :
  role c = Some r -> forwardable r data = false ->
  (route c data st).2 = st
  /\ ((route c data st).1 = NotBound \/ (route c data st).1 = Ignored).
Proof.
  intros Hr Hf. unfold route.
  destruct (agentId c) as [[|u id]|]; [auto| |auto].
  destruct (agents st !! (u :: id)) as [agent|]; [|auto].
  rewrite Hr. destruct r; simpl in Hf; rewrite Hf;
    rewrite ?andb_false_r; simpl; auto.
Qed.

(** *** Unauthenticated connections and the rate limiter *)

Lemma on_auth_conn (ws : sock) (c : conn) (data : json number)
    (uuid : jsstring) (st : state) :
  conns st !! ws = Some c ->
  exists c', conns (on_auth ws c data uuid st).2 !! ws = Some c'
             /\ rateCount c' = rateCount c
             /\ lastPing c' = lastPing c
             /\ heartbeat c' = heartbeat c.
Proof.
  intros Hc.
  destruct (on_auth_cases ws c data uuid st)
    as [->|[(id & agent & Eid & Ea & Hv)|(-> & _)]].
  - simpl. eauto.
  - rewrite (on_auth_success ws c data uuid st id agent Eid Ea Hv). simpl.
    rewrite lookup_insert_eq. eauto.
  - simpl. eauto.
Qed.

Lemma on_auth_outcome (ws : sock) (c : conn) (data : json number)
    (uuid : jsstring) (st : state) :
  (on_auth ws c data uuid st).1 = AuthFailure
  \/ (exists id r, (on_auth ws c data uuid st).1 = AuthSuccess id r)
  \/ ((on_auth ws c data uuid st).1 = Uncaught
      /\ (exists agent,
             agents_get (agents st) (get_prop data (lit "agentId")) = Some agent)
      /\ ToString (get_prop data (lit "challenge")) = None).
Proof.
  destruct (on_auth_cases ws c data uuid st)
    as [->|[(id & agent & Eid & Ea & Hv)|(-> & Hthrow)]].
  - by left.
  - rewrite (on_auth_success ws c data uuid st id agent Eid Ea Hv).
    right. left. eauto.
  - right. right. by split.
Qed.

Lemma on_auth_not_dropped (ws : sock) (c : conn) (data : json number)
    (uuid : jsstring) (st : state) :
  (on_auth ws c data uuid st).1 ≠ RateDropped.
Proof.
  destruct (on_auth_outcome ws c data uuid st) as [E|[(id & r & E)|(E & _)]];
    rewrite E; discriminate.
Qed.

Lemma route_outcome (c : conn) (data : json number) (st : state) :
  (route c data st).1 ≠ RateDropped.
Proof.
  unfold route, deliver.
  repeat match goal with
         | |- context [match ?x with _ => _ end] => destruct x
         end; discriminate.
Qed.

Lemma on_message_unauthenticated
    (ws : sock) (raw_ : raw) (now : Z) (uuid : jsstring) (st : state) (c : conn) :
  conns st !! ws = Some c ->
  role c = None ->
  (on_message ws raw_ now uuid st).1 ≠ RateDropped
  /\ (exists c', conns (on_message ws raw_ now uuid st).2 !! ws = Some c'
                 /\ rateCount c' = (window_reset now st c).2 + 1)
  /\ (forall data,
         JSON_parse raw_ = Some data ->
         strict_eq_str (get_prop data (lit "type")) (lit "auth") = true ->
         (on_message ws raw_ now uuid st).1 = AuthFailure
         \/ (exists id r, (on_message ws raw_ now uuid st).1 = AuthSuccess id r)
         \/ ((on_message ws raw_ now uuid st).1 = Uncaught
             /\ (exists agent,
                    agents_get (agents st) (get_prop data (lit "agentId"))
                    = Some agent)
             /\ ToString (get_prop data (lit "challenge")) = None)).
Proof.
  intros Hc Hrole.
  assert (Hover : over_limit (role c) (window_reset now st c).2 = false)
    by (rewrite Hrole; apply over_limit_unauthenticated).
  rewrite (on_message_passed ws raw_ now uuid st c Hc Hover).
  assert (Hc' : conns (counted ws now st c).2 !! ws = Some (counted ws now st c).1)
    by (simpl; apply lookup_insert_eq).
  assert (Hn : rateCount (counted ws now st c).1 = (window_reset now st c).2 + 1)
    by reflexivity.
  assert (Hag : agents (counted ws now st c).2 = agents st) by reflexivity.
  assert (Hauth : forall d : json number,
             exists c', conns (on_auth ws (counted ws now st c).1 d uuid
                                 (counted ws now st c).2).2 !! ws = Some c'
                        /\ rateCount c' = (window_reset now st c).2 + 1).
  { intros d. destruct (on_auth_conn ws _ d uuid _ Hc') as (c' & E & En & _).
    exists c'. split; [exact E|]. by rewrite En. }
  assert (Hroute : forall d : json number,
             exists c', conns (route (counted ws now st c).1 d
                                 (counted ws now st c).2).2 !! ws = Some c'
                        /\ rateCount c' = (window_reset now st c).2 + 1).
  { intros d. destruct (route_agents (counted ws now st c).1 d
                          (counted ws now st c).2) as (_ & -> & _). eauto. }
  generalize dependent (counted ws now st c). intros [c1 st1] Hc' Hn Hag Hauth Hroute.
  simpl in *.
  split; [|split].
  - destruct (JSON_parse raw_) as [data|]; [|discriminate].
    destruct data; try discriminate;
      (match goal with
       | |- context [if ?b then _ else _] => destruct b
       end;
       [apply on_auth_not_dropped | apply route_outcome]).
  - destruct (JSON_parse raw_) as [data|]; [|eauto].
    destruct data;
      try match goal with
          | |- context [if ?b then _ else _] => destruct b
          end; eauto.
  - intros data Hp Ht. rewrite Hp. rewrite <- Hag.
    destruct data; try discriminate; rewrite Ht; apply on_auth_outcome.
Qed.



(** *** Invariants of the event loop *)

Lemma bound_mono (a a' : gmap jsstring session) (c : conn) :
  (forall id, is_Some (a !! id) -> is_Some (a' !! id)) ->
  bound a c -> bound a' c.
Proof.
  intros Hsub. unfold bound. destruct (role c); [|done].
  intros (id & E & Hin). eauto.
Qed.

Lemma bound_same (a : gmap jsstring session) (c c' : conn) :
  role c' = role c -> agentId c' = agentId c -> bound a c -> bound a c'.
Proof. unfold bound. by intros -> ->. Qed.

(** Replacing the closure of a socket by one with the same identity and
    role, while no session disappears and the sockets stay, keeps the
    state consistent. *)
Lemma consistent_update (st st' : state) (ws : sock) (c c' : conn) :
  consistent st ->
  conns st !! ws = Some c ->
  conns st' = <[ws := c']> (conns st) ->
  bound (agents st') c' ->
  totalConnections st' = totalConnections st ->
  (forall id, is_Some (agents st !! id) -> is_Some (agents st' !! id)) ->
  agents st' !! [] = None ->
  (forall w, is_Some (socks st !! w) -> is_Some (socks st' !! w)) ->
  consistent st'.
Proof.
  intros [Ht Hcap Hs Hk Hb] Hc Ec Hb' Et Ha Hk' Hss. split.
  - rewrite Et, Ec, map_size_insert_Some by eauto. exact Ht.
  - by rewrite Et.
  - intros w. rewrite Ec. intros Hw. apply Hss, Hs.
    destruct (decide (ws = w)) as [<-|Hne]; [eauto|].
    by rewrite lookup_insert_ne in Hw.
  - exact Hk'.
  - intros w cw. rewrite Ec.
    destruct (decide (ws = w)) as [<-|Hne].
    + rewrite lookup_insert_eq. by intros [= <-].
    + rewrite lookup_insert_ne by done. intros Hw.
      eapply bound_mono; [apply Ha|]. eauto.
Qed.

(** The same when the closures are untouched. *)
Lemma consistent_frame (st st' : state) :
  consistent st ->
  conns st' = conns st ->
  totalConnections st' = totalConnections st ->
  (forall id, is_Some (agents st !! id) -> is_Some (agents st' !! id)) ->
  agents st' !! [] = None ->
  (forall w, is_Some (socks st !! w) -> is_Some (socks st' !! w)) ->
  consistent st'.
Proof.
  intros [Ht Hcap Hs Hk Hb] Ec Et Ha Hk' Hss. split.
  - by rewrite Et, Ec.
  - by rewrite Et.
  - intros w. rewrite Ec. intros Hw. by apply Hss, Hs.
  - exact Hk'.
  - intros w cw. rewrite Ec. intros Hw.
    eapply bound_mono; [apply Ha|]. eauto.
Qed.

Lemma init_consistent (now : Z) : consistent (init now).
Proof.
  split; simpl.
  - by rewrite map_size_empty.
  - lia.
  - intros ws. rewrite lookup_empty. by intros [? ?].
  - apply lookup_empty.
  - intros ws c. by rewrite lookup_empty.
Qed.

Lemma hex_of_bytes_lit_nonempty (bs : list Byte.byte) :
  lit "agent-" ++ hex_of_bytes bs ≠ [].
Proof. discriminate. Qed.

Lemma on_register_consistent (body : raw) (now : Z)
    (idBytes keyBytes : list Byte.byte) (st : state) :
  consistent st -> consistent (on_register body now idBytes keyBytes st).2.
Proof.
  intros Hst. unfold on_register.
  destruct (JSON_parse body) as [data|]; [|done].
  assert (Hgo :
    consistent
      (match requested_id data with
       | Some trimmed =>
           let agentId :=
             if bool_decide (trimmed = [])
             then lit "agent-" ++ hex_of_bytes idBytes else trimmed in
           let accessKey := hex_of_bytes keyBytes in
           (Registered agentId accessKey,
            set_agents
              (<[agentId := {| accessKey := accessKey; created := now;
                               gameWs := None; agentWs := None |}]> (agents st))
              st)
       | None => (BadRequest, st)
       end).2).
  { destruct (requested_id data) as [trimmed|]; [|done]. simpl.
    set (id := if bool_decide (trimmed = []) then _ else _).
    assert (Hid : id ≠ []).
    { subst id. case_bool_decide; [apply hex_of_bytes_lit_nonempty | done]. }
    apply (consistent_frame st); simpl; auto.
    - intros i Hi. rewrite lookup_insert_is_Some. destruct (decide (id = i)); auto.
    - rewrite lookup_insert_ne by done. apply Hst. }
  destruct data; try exact Hgo. exact Hst.
Qed.

Lemma on_connection_consistent (ws : sock) (now : Z) (st : state) :
  consistent st -> socks st !! ws = None ->
  consistent (on_connection ws now st).2.
Proof.
  intros Hst Hfresh. unfold on_connection. simpl.
  assert (Hnew : conns st !! ws = None).
  { destruct (conns st !! ws) eqn:E; [|done].
    destruct (inv_socks st Hst ws) as [s Hs]; [eauto|congruence]. }
  destruct (totalConnections st >=? MAX_CONNECTIONS) eqn:Hcap; simpl.
  - apply (consistent_frame st); simpl; auto; try apply Hst.
    intros w Hw. apply closeSafe_is_Some. rewrite lookup_insert_is_Some.
    destruct (decide (ws = w)); auto.
  - destruct Hst as [Ht Hc Hs Hk Hb]. split; simpl.
    + rewrite map_size_insert_None by done. lia.
    + assert (totalConnections st < MAX_CONNECTIONS).
      { destruct (Z.geb_spec (totalConnections st) MAX_CONNECTIONS); [done|lia]. }
      lia.
    + intros w. rewrite !lookup_insert_is_Some.
      intros [->|[Hne Hw]]; [auto|]. destruct (decide (ws = w)); auto.
    + exact Hk.
    + intros w cw. destruct (decide (ws = w)) as [<-|Hne].
      * rewrite lookup_insert_eq. by intros [= <-].
      * rewrite lookup_insert_ne by done. apply Hb.
Qed.

Lemma on_pong_consistent (ws : sock) (now : Z) (st : state) :
  consistent st -> consistent (on_pong ws now st).2.
Proof.
  intros Hst. unfold on_pong. destruct (conns st !! ws) as [c|] eqn:Hc; [|done].
  apply (consistent_update st _ ws c (set_lastPing now c)); simpl; auto;
    try apply Hst.
  apply (bound_same _ c); [done..|]. by eapply inv_bound.
Qed.

Lemma on_error_consistent (ws : sock) (st : state) :
  consistent st -> consistent (on_error ws st).2.
Proof.
  intros Hst. unfold on_error.
  destruct (conns st !! ws) as [c|] eqn:Hc; [|by destruct (before_close _ _)].
  apply (consistent_update st _ ws c (set_heartbeat None c)); simpl; auto;
    try apply Hst.
  apply (bound_same _ c); [done..|]. by eapply inv_bound.
Qed.

Lemma on_tick_consistent (ws : sock) (now : Z) (st : state) :
  consistent st -> consistent (on_tick ws now st).2.
Proof.
  intros Hst. unfold on_tick. destruct (conns st !! ws) as [c|] eqn:Hc; [|done].
  destruct (heartbeat c); [|done].
  destruct (now - lastPing c >? HEARTBEAT_MS).
  - apply (consistent_update st _ ws c (set_heartbeat None c)); simpl; auto;
      try apply Hst.
    + apply (bound_same _ c); [done..|]. by eapply inv_bound.
    + intros w Hw. by apply closeSafe_is_Some.
  - simpl. destruct (is_open (socks st) ws); [|done].
    apply (consistent_frame st); simpl; auto; try apply Hst.
    intros w Hw. by apply ws_ping_is_Some.
Qed.

Lemma detach_is_Some (ws : sock) (c : conn) (a : gmap jsstring session)
    (id : jsstring) :
  is_Some (detach ws c a !! id) <-> is_Some (a !! id).
Proof.
  unfold detach. destruct (agentId c) as [[|u i]|]; [done| |done].
  destruct (a !! (u :: i)) as [agent|] eqn:Ea; [|done].
  repeat match goal with
         | |- context [if ?b then _ else _] => destruct b
         end; try done;
    rewrite lookup_insert_is_Some;
    (split; [intros [<-|[_ ?]]; eauto | intros ?; destruct (decide (u :: i = id)); auto]).
Qed.

Lemma on_close_consistent (ws : sock) (st : state) :
  consistent st -> consistent (on_close ws st).2.
Proof.
  intros Hst. unfold on_close. simpl.
  destruct (conns st !! ws) as [c|] eqn:Hc; simpl.
  - destruct Hst as [Ht Hcap Hs Hk Hb]. split; simpl.
    + rewrite map_size_delete_Some by eauto.
      assert (size (conns st) ≠ 0%nat).
      { intros E. apply map_size_empty_inv in E. rewrite E in Hc.
        by rewrite lookup_empty in Hc. }
      lia.
    + lia.
    + intros w Hw. apply ws_closed_is_Some, Hs.
      apply lookup_delete_is_Some in Hw. tauto.
    + destruct (detach ws c (agents st) !! []) eqn:E; [|done].
      assert (is_Some (agents st !! [])) as [? ?] by (apply (detach_is_Some ws c); eauto).
      congruence.
    + intros w cw Hw. apply lookup_delete_Some in Hw as [_ Hw].
      eapply bound_mono; [|by eapply Hb].
      intros id. apply detach_is_Some.
  - apply (consistent_frame st); simpl; auto; try apply Hst.
    intros w Hw. by apply ws_closed_is_Some.
Qed.

Lemma counted_consistent (ws : sock) (now : Z) (st : state) (c : conn) :
  consistent st -> conns st !! ws = Some c ->
  consistent (counted ws now st c).2.
Proof.
  intros Hst Hc.
  apply (consistent_update st _ ws c (counted ws now st c).1); simpl; auto;
    try apply Hst.
  apply (bound_same _ c); [done..|]. by eapply inv_bound.
Qed.

Lemma on_auth_consistent (ws : sock) (c : conn) (data : json number)
    (uuid : jsstring) (st : state) :
  consistent st -> conns st !! ws = Some c ->
  consistent (on_auth ws c data uuid st).2.
Proof.
  intros Hst Hc.
  destruct (on_auth_cases ws c data uuid st)
    as [->|[(id & agent & Eid & Ea & Hv)|(-> & _)]]; [| |exact Hst].
  - apply (consistent_frame st); simpl; auto; try apply Hst.
    intros w Hw. by apply ws_send_is_Some.
  - rewrite (on_auth_success ws c data uuid st id agent Eid Ea Hv).
    set (r := requested_role data).
    assert (Hid : id ≠ []).
    { intros ->. pose proof (inv_keys st Hst). congruence. }
    apply (consistent_update st _ ws c (set_identity id r c)); simpl; auto.
    + exists id. split; [done|]. rewrite lookup_insert_eq. eauto.
    + intros i Hi. rewrite lookup_insert_is_Some. destruct (decide (id = i)); auto.
    + rewrite lookup_insert_ne by done. apply Hst.
    + intros w Hw. by apply ws_send_is_Some, evict_is_Some.
Qed.

Lemma deliver_socks_is_Some (peer : option sock) (payload : json number)
    (st : state) (w : sock) :
  is_Some (socks st !! w) -> is_Some (socks (deliver peer payload st).2 !! w).
Proof.
  intros Hw.
  destruct (deliver_cases peer payload st) as [(p & _ & _ & ->)|[_ ->]]; [|done].
  by apply ws_send_is_Some.
Qed.

Lemma route_socks_is_Some (c : conn) (data : json number) (st : state) (w : sock) :
  is_Some (socks st !! w) -> is_Some (socks (route c data st).2 !! w).
Proof.
  intros Hw. unfold route.
  destruct (agentId c) as [[|u id]|]; [done| |done].
  destruct (agents st !! (u :: id)) as [agent|]; [|done].
  repeat match goal with
         | |- context [if ?b then _ else _] => destruct b
         end; try done; by apply deliver_socks_is_Some.
Qed.

Lemma route_consistent (c : conn) (data : json number) (st : state) :
  consistent st -> consistent (route c data st).2.
Proof.
  intros Hst. destruct (route_agents c data st) as (Ea & Ec & Et & _).
  apply (consistent_frame st); auto.
  - by rewrite Ea.
  - rewrite Ea. apply Hst.
  - intros w. apply route_socks_is_Some.
Qed.

Lemma on_message_consistent (ws : sock) (raw_ : raw) (now : Z)
    (uuid : jsstring) (st : state) :
  consistent st -> consistent (on_message ws raw_ now uuid st).2.
Proof.
  intros Hst. destruct (conns st !! ws) as [c|] eqn:Hc.
  - destruct (over_limit (role c) (window_reset now st c).2) eqn:Hover.
    + rewrite (on_message_dropped ws raw_ now uuid st c Hc Hover).
      apply (consistent_update st _ ws c
               (set_rateCount (window_reset now st c).2 c)); simpl; auto;
        try apply Hst.
      apply (bound_same _ c); [done..|]. by eapply inv_bound.
    + rewrite (on_message_passed ws raw_ now uuid st c Hc Hover).
      pose proof (counted_consistent ws now st c Hst Hc) as Hst1.
      assert (Hc1 : conns (counted ws now st c).2 !! ws
                    = Some (counted ws now st c).1)
        by (simpl; apply lookup_insert_eq).
      destruct (JSON_parse raw_) as [data|]; [|exact Hst1].
      destruct data; try exact Hst1;
        match goal with
        | |- context [if ?b then _ else _] => destruct b
        end; (by apply on_auth_consistent) || (by apply route_consistent).
  - unfold on_message. by rewrite Hc.
Qed.

Lemma handle_consistent (ev : event) (st : state) :
  consistent st -> enabled ev st = true -> consistent (handle ev st).2.
Proof.
  intros Hst Hen. destruct ev; simpl.
  - by apply on_register_consistent.
  - apply on_connection_consistent; [done|].
    simpl in Hen. by destruct (socks st !! ws).
  - by apply on_message_consistent.
  - by apply on_pong_consistent.
  - by apply on_tick_consistent.
  - by apply on_close_consistent.
  - by apply on_error_consistent.
Qed.

(** Every state the server reaches is consistent. *)
Lemma reachable_consistent (st : state) : reachable st -> consistent st.
Proof.
  induction 1 as [now|st st' ev o Hr IH Hen Hh Hu].
  - apply init_consistent.
  - replace st' with (handle ev st).2 by (by rewrite Hh).
    by apply handle_consistent.
Qed.

Lemma run_reachable (evs : list event) (st st' : state) :
  reachable st -> run evs st = Some st' -> reachable st'.
Proof.
  revert st. induction evs as [|ev evs IH]; intros st Hr; simpl.
  - by intros [= <-].
  - destruct (enabled ev st) eqn:Hen; [|discriminate].
    destruct (handle ev st) as [o st1] eqn:Hh.
    destruct (uncaught o) eqn:Hu; [discriminate|].
    apply IH. by eapply reachable_step.
Qed.

(** *** Admission *)

Lemma on_auth_total (ws : sock) (c : conn) (data : json number)
    (uuid : jsstring) (st : state) :
  totalConnections (on_auth ws c data uuid st).2 = totalConnections st
  /\ lastRateLimitReset (on_auth ws c data uuid st).2 = lastRateLimitReset st.
Proof.
  destruct (on_auth_cases ws c data uuid st)
    as [->|[(id & agent & Eid & Ea & Hv)|(-> & _)]].
  - done.
  - by rewrite (on_auth_success ws c data uuid st id agent Eid Ea Hv).
  - done.
Qed.

Lemma on_message_total (ws : sock) (raw_ : raw) (now : Z)
    (uuid : jsstring) (st : state) :
  totalConnections (on_message ws raw_ now uuid st).2 = totalConnections st
  /\ (on_message ws raw_ now uuid st).1 ≠ Accepted
  /\ (on_message ws raw_ now uuid st).1 ≠ Closed_.
Proof.
  destruct (conns st !! ws) as [c|] eqn:Hc.
  - destruct (over_limit (role c) (window_reset now st c).2) eqn:Hover.
    + by rewrite (on_message_dropped ws raw_ now uuid st c Hc Hover).
    + rewrite (on_message_passed ws raw_ now uuid st c Hc Hover).
      assert (Ha : forall d,
                 totalConnections
                   (on_auth ws (counted ws now st c).1 d uuid (counted ws now st c).2).2
                 = totalConnections st
                 /\ (on_auth ws (counted ws now st c).1 d uuid (counted ws now st c).2).1
                    ≠ Accepted
                 /\ (on_auth ws (counted ws now st c).1 d uuid (counted ws now st c).2).1
                    ≠ Closed_).
      { intros d. split; [by rewrite (proj1 (on_auth_total _ _ _ _ _))|].
        destruct (on_auth_outcome ws (counted ws now st c).1 d uuid
                    (counted ws now st c).2) as [E|[(id & r & E)|(E & _)]];
          by rewrite E. }
      assert (Hr : forall d,
                 totalConnections (route (counted ws now st c).1 d (counted ws now st c).2).2
                 = totalConnections st
                 /\ (route (counted ws now st c).1 d (counted ws now st c).2).1 ≠ Accepted
                 /\ (route (counted ws now st c).1 d (counted ws now st c).2).1 ≠ Closed_).
      { intros d. split.
        - by destruct (route_agents (counted ws now st c).1 d (counted ws now st c).2)
            as (_ & _ & -> & _).
        - unfold route, deliver.
          repeat match goal with
                 | |- context [match ?x with _ => _ end] => destruct x
                 end; by split. }
      destruct (JSON_parse raw_) as [data|]; [|done].
      destruct data; try done;
        match goal with
        | |- context [if ?b then _ else _] => destruct b
        end; auto.
  - unfold on_message. by rewrite Hc.
Qed.

Lemma handle_total (ev : event) (st : state) :
  totalConnections (handle ev st).2
  = totalConnections st + total_delta (handle ev st).1.
Proof.
  destruct ev; simpl.
  - unfold on_register.
    destruct (JSON_parse body) as [[]|]; simpl; try lia;
      destruct (requested_id _); simpl; lia.
  - unfold on_connection. simpl.
    destruct (totalConnections st >=? MAX_CONNECTIONS); simpl; lia.
  - destruct (on_message_total ws raw_ now uuid st) as (-> & Ha & Hc).
    destruct (on_message ws raw_ now uuid st).1; simpl; try lia; done.
  - unfold on_pong. destruct (conns st !! ws); simpl; lia.
  - unfold on_tick. destruct (conns st !! ws) as [c|]; simpl; [|lia].
    destruct (heartbeat c); simpl; [|lia].
    destruct (now - lastPing c >? HEARTBEAT_MS); simpl; [lia|].
    destruct (is_open (socks st) ws); simpl; lia.
  - unfold on_close. simpl. destruct (conns st !! ws); simpl; lia.
  - unfold on_error. destruct (conns st !! ws); simpl; [lia|].
    destruct (before_close _ _); simpl; lia.
Qed.

(** C4. Below the ceiling a new socket is admitted and counted; at the
    ceiling it is closed with code 1013 while the counter, the closures
    and the sessions stay as they were; the counter goes down by one
    exactly in the close callback of an admitted socket, which runs once;
    so the counter is the number of admitted sockets that have not closed
    and lies between 0 and the ceiling in every reachable state. *)
Theorem C4_admission_control :
  0 <= MAX_CONNECTIONS ->
  (forall ws now st,
      totalConnections st < MAX_CONNECTIONS ->
      (on_connection ws now st).1 = Accepted
      /\ totalConnections (on_connection ws now st).2 = totalConnections st + 1
      /\ conns (on_connection ws now st).2 = <[ws := new_conn now]> (conns st)
      /\ socks (on_connection ws now st).2 = <[ws := accepted_socket]> (socks st))
  /\ (forall ws now st,
         MAX_CONNECTIONS <= totalConnections st ->
         (on_connection ws now st).1 = Rejected
         /\ totalConnections (on_connection ws now st).2 = totalConnections st
         /\ conns (on_connection ws now st).2 = conns st
         /\ agents (on_connection ws now st).2 = agents st
         /\ lastRateLimitReset (on_connection ws now st).2 = lastRateLimitReset st
         /\ socks (on_connection ws now st).2
            = <[ws := {| readyState := CLOSING; closeCode := Some 1013;
                         sent := []; pings := 0 |}]> (socks st))
  /\ (forall ev st,
         totalConnections (handle ev st).2
         = totalConnections st + total_delta (handle ev st).1)
  /\ (forall ws st,
         ((on_close ws st).1 = Closed_ <-> is_Some (conns st !! ws))
         /\ conns (on_close ws st).2 !! ws = None
         /\ (on_close ws (on_close ws st).2).1 = NoListener)
  /\ (forall st,
         reachable st ->
         totalConnections st = Z.of_nat (size (conns st))
         /\ 0 <= totalConnections st <= MAX_CONNECTIONS).
Proof.
  intros Hmax. split; [|split; [|split; [|split]]].
  - intros ws now st Hlt. unfold on_connection. simpl.
    destruct (Z.geb_spec (totalConnections st) MAX_CONNECTIONS); [lia|done].
  - intros ws now st Hge. unfold on_connection. simpl.
    destruct (Z.geb_spec (totalConnections st) MAX_CONNECTIONS); [|lia]. simpl.
    repeat split.
    rewrite (closeSafe_open ws 1013 _ accepted_socket)
      by (done || apply lookup_insert_eq).
    apply insert_insert_eq.
  - apply handle_total.
  - intros ws st.
    assert (Hgone : conns (on_close ws st).2 !! ws = None).
    { unfold on_close. simpl.
      destruct (conns st !! ws) eqn:E; simpl; [apply lookup_delete_eq|exact E]. }
    split; [|split; [exact Hgone|]].
    + unfold on_close. simpl. destruct (conns st !! ws).
      * split; eauto.
      * split; [discriminate|]. by intros [? ?].
    + unfold on_close at 1. simpl. by rewrite Hgone.
  - intros st Hr. apply reachable_consistent in Hr.
    pose proof (inv_total st Hr). pose proof (inv_capacity st Hr). lia.
Qed.

(** *** The heartbeat *)

Lemma on_tick_timeout (ws : sock) (now : Z) (st : state) (c : conn) (s : socket) :
  conns st !! ws = Some c -> is_Some (heartbeat c) ->
  socks st !! ws = Some s -> readyState s = OPEN ->
  HEARTBEAT_MS < now - lastPing c ->
  on_tick ws now st
  = (TimedOut,
     set_socks
       (<[ws := {| readyState := CLOSING; closeCode := Some 1000;
                   sent := sent s; pings := pings s |}]> (socks st))
       (set_conns (<[ws := set_heartbeat None c]> (conns st)) st)).
Proof.
  intros Hc [p Hp] Hs Ho Hlate. unfold on_tick. rewrite Hc, Hp.
  destruct (Z.gtb_spec (now - lastPing c) HEARTBEAT_MS); [|lia].
  simpl. by rewrite (closeSafe_open ws 1000 _ s).
Qed.

Lemma on_tick_alive (ws : sock) (now : Z) (st : state) (c : conn) (s : socket) :
  conns st !! ws = Some c -> is_Some (heartbeat c) ->
  socks st !! ws = Some s -> readyState s = OPEN ->
  now - lastPing c <= HEARTBEAT_MS ->
  on_tick ws now st
  = (Probed,
     set_socks
       (<[ws := {| readyState := readyState s; closeCode := closeCode s;
                   sent := sent s; pings := S (pings s) |}]> (socks st))
       st).
Proof.
  intros Hc [p Hp] Hs Ho Hin. unfold on_tick. rewrite Hc, Hp.
  destruct (Z.gtb_spec (now - lastPing c) HEARTBEAT_MS); [lia|].
  replace (is_open (socks st) ws) with true
    by (symmetry; apply is_open_true; eauto).
  unfold ws_ping. by rewrite Hs.
Qed.

Lemma on_tick_cleared (ws : sock) (now : Z) (st : state) (c : conn) :
  conns st !! ws = Some c -> heartbeat c = None ->
  on_tick ws now st = (NoListener, st).
Proof. intros Hc Hh. unfold on_tick. by rewrite Hc, Hh. Qed.

Lemma run_ticks_cleared (ws : sock) (ts : list Z) (st : state) (c : conn) :
  conns st !! ws = Some c -> heartbeat c = None ->
  run_ticks ws ts st = st.
Proof.
  intros Hc Hh. induction ts as [|t ts IH]; [done|].
  unfold run_ticks in *. simpl.
  by rewrite (on_tick_cleared ws t st c Hc Hh).
Qed.

Lemma state_eq (st st' : state) :
  agents st = agents st' -> totalConnections st = totalConnections st' ->
  lastRateLimitReset st = lastRateLimitReset st' ->
  conns st = conns st' -> socks st = socks st' -> st = st'.
Proof. destruct st, st'. simpl. by intros -> -> -> -> ->. Qed.

(** A socket that stays open and unacknowledged is probed at every tick
    until the first tick later than [HEARTBEAT_MS] after the last
    acknowledgement, which closes it; that tick comes no later than one
    interval, one timer delay and the jitter after the acknowledgement. *)
Lemma heartbeat_reclaims (ws : sock) (c : conn) (jitter : Z) (ts : list Z) :
  forall (st : state) (s : socket) (prev : Z),
    conns st !! ws = Some c -> is_Some (heartbeat c) ->
    socks st !! ws = Some s -> readyState s = OPEN ->
    prev - lastPing c <= HEARTBEAT_MS ->
    paced jitter prev ts ->
    (exists t, t ∈ ts /\ HEARTBEAT_MS < t - lastPing c) ->
    exists pre t post,
      ts = pre ++ t :: post
      /\ Forall (fun u => u - lastPing c <= HEARTBEAT_MS) pre
      /\ HEARTBEAT_MS < t - lastPing c
      /\ (inject_Z (t - lastPing c)
          <= inject_Z HEARTBEAT_MS + (HEARTBEAT_MS # 2) + inject_Z jitter)%Q
      /\ run_ticks ws ts st
         = set_socks
             (<[ws := {| readyState := CLOSING; closeCode := Some 1000;
                         sent := sent s;
                         pings := (pings s + length pre)%nat |}]> (socks st))
             (set_conns (<[ws := set_heartbeat None c]> (conns st)) st).
Proof.
  induction ts as [|t ts IH]; intros st s prev Hc Hh Hs Ho Hprev Hpace Hex.
  - destruct Hex as (t & Hin & _). by apply elem_of_nil in Hin.
  - destruct Hpace as (Hmono & Hgap & Hpace).
    destruct (Z_lt_le_dec HEARTBEAT_MS (t - lastPing c)) as [Hlate|Hin].
    + exists [], t, ts. repeat split; [constructor|exact Hlate| |].
      * replace (t - lastPing c) with ((t - prev) + (prev - lastPing c)) by lia.
        rewrite inject_Z_plus.
        rewrite Zle_Qle in Hprev. lra.
      * unfold run_ticks. simpl.
        rewrite (on_tick_timeout ws t st c s Hc Hh Hs Ho Hlate). simpl.
        fold (run_ticks ws ts
                (set_socks
                   (<[ws := {| readyState := CLOSING; closeCode := Some 1000;
                               sent := sent s; pings := pings s |}]> (socks st))
                   (set_conns (<[ws := set_heartbeat None c]> (conns st)) st))).
        rewrite (run_ticks_cleared ws ts _ (set_heartbeat None c))
          by (done || (simpl; apply lookup_insert_eq)).
        by rewrite Nat.add_0_r.
    + set (s1 := {| readyState := readyState s; closeCode := closeCode s;
                    sent := sent s; pings := S (pings s) |}).
      set (st1 := set_socks (<[ws := s1]> (socks st)) st).
      destruct (IH st1 s1 t) as (pre & t' & post & -> & Hpre & Hlate & Hb & Hrun);
        try done.
      * subst st1. simpl. apply lookup_insert_eq.
      * destruct Hex as (u & Hu & Hlate). exists u. split; [|done].
        apply elem_of_cons in Hu as [->|Hu]; [lia|done].
      * exists (t :: pre), t', post. repeat split; [by constructor|done|done|].
        unfold run_ticks in *. simpl.
        rewrite (on_tick_alive ws t st c s Hc Hh Hs Ho Hin). simpl.
        fold s1. fold st1. rewrite Hrun.
        apply state_eq; simpl; try done.
        rewrite insert_insert_eq. do 2 f_equal. lia.
Qed.

Lemma run_ticks_app (ws : sock) (ts ts' : list Z) (st : state) :
  run_ticks ws (ts ++ ts') st = run_ticks ws ts' (run_ticks ws ts st).
Proof. unfold run_ticks. apply fold_left_app. Qed.

(** C6. An admitted connection gets an interval timer with the delay
    [HEARTBEAT_MS / 2] and its last acknowledgement set to the time of
    admission.  A tick later than [HEARTBEAT_MS] after the last
    acknowledgement closes the open socket with code 1000 and clears the
    timer: the closure has no timer any more and no later tick does
    anything.  Any other tick pings the socket, and a pong moves the last
    acknowledgement to the present.  Hence, with ticks no further apart
    than the delay plus a jitter, a socket that is not acknowledged any more
    is pinged at each tick up to [HEARTBEAT_MS] after the last
    acknowledgement and closed by the next one, at most one and a half
    intervals plus the jitter after that acknowledgement, and the ticks
    that would have followed do not happen. *)
Theorem C6_heartbeat_monitor :
  0 <= HEARTBEAT_MS ->
  (forall ws now st,
      totalConnections st < MAX_CONNECTIONS ->
      exists c, conns (on_connection ws now st).2 !! ws = Some c
                /\ heartbeat c = Some (HEARTBEAT_MS # 2)
                /\ lastPing c = now)
  /\ (forall ws now st c s,
         conns st !! ws = Some c -> is_Some (heartbeat c) ->
         socks st !! ws = Some s -> readyState s = OPEN ->
         (HEARTBEAT_MS < now - lastPing c ->
          let st' :=
            set_socks
              (<[ws := {| readyState := CLOSING; closeCode := Some 1000;
                          sent := sent s; pings := pings s |}]> (socks st))
              (set_conns
                 (<[ws := {| agentId := agentId c; role := role c;
                             lastPing := lastPing c; rateCount := rateCount c;
                             heartbeat := None |}]> (conns st)) st) in
          on_tick ws now st = (TimedOut, st')
          /\ (forall later, on_tick ws later st' = (NoListener, st'))
          /\ (forall ts, run_ticks ws ts st' = st'))
         /\ (now - lastPing c <= HEARTBEAT_MS ->
             on_tick ws now st
             = (Probed,
                set_socks
                  (<[ws := {| readyState := OPEN; closeCode := closeCode s;
                              sent := sent s; pings := S (pings s) |}]> (socks st))
                  st)))
  /\ (forall ws now st c,
         conns st !! ws = Some c ->
         on_pong ws now st
         = (Ponged,
            set_conns
              (<[ws := {| agentId := agentId c; role := role c;
                          lastPing := now; rateCount := rateCount c;
                          heartbeat := heartbeat c |}]> (conns st)) st))
  /\ (forall ws st c s jitter ts,
         conns st !! ws = Some c -> is_Some (heartbeat c) ->
         socks st !! ws = Some s -> readyState s = OPEN ->
         paced jitter (lastPing c) ts ->
         (exists t, t ∈ ts /\ HEARTBEAT_MS < t - lastPing c) ->
         exists pre t post,
           ts = pre ++ t :: post
           /\ Forall (fun u => u - lastPing c <= HEARTBEAT_MS) pre
           /\ HEARTBEAT_MS < t - lastPing c
           /\ (inject_Z (t - lastPing c)
               <= inject_Z HEARTBEAT_MS + (HEARTBEAT_MS # 2) + inject_Z jitter)%Q
           /\ run_ticks ws ts st
              = set_socks
                  (<[ws := {| readyState := CLOSING; closeCode := Some 1000;
                              sent := sent s;
                              pings := (pings s + length pre)%nat |}]> (socks st))
                  (set_conns
                     (<[ws := {| agentId := agentId c; role := role c;
                                 lastPing := lastPing c; rateCount := rateCount c;
                                 heartbeat := None |}]> (conns st)) st)
           /\ (forall more, run_ticks ws (ts ++ more) st = run_ticks ws ts st)).
Proof.
  intros Hpos. split; [|split; [|split]].
  - intros ws now st Hlt. exists (new_conn now).
    unfold on_connection. simpl.
    destruct (Z.geb_spec (totalConnections st) MAX_CONNECTIONS); [lia|].
    simpl. by rewrite lookup_insert_eq.
  - intros ws now st c s Hc Hh Hs Ho. split; intros Ht.
    + intros st'.
      assert (Hc' : conns st' !! ws = Some (set_heartbeat None c))
        by (subst st'; simpl; apply lookup_insert_eq).
      split; [by apply (on_tick_timeout ws now st c s)|]. split.
      * intros later. by apply (on_tick_cleared ws later st' _ Hc').
      * intros ts. by apply (run_ticks_cleared ws ts st' _ Hc').
    + rewrite <- Ho. by apply (on_tick_alive ws now st c s).
  - intros ws now st c Hc. unfold on_pong. by rewrite Hc.
  - intros ws st c s jitter ts Hc Hh Hs Ho Hpace Hex.
    destruct (heartbeat_reclaims ws c jitter ts st s (lastPing c))
      as (pre & t & post & E & Hpre & Hlate & Hb & Hrun); auto; [lia|].
    exists pre, t, post. repeat split; try done.
    intros more. rewrite run_ticks_app, Hrun.
    apply (run_ticks_cleared ws more _ (set_heartbeat None c)); [|done].
    simpl. apply lookup_insert_eq.
Qed.

(** *** Attaching and detaching *)

Lemma route_outcome_cases (c : conn) (data : json number) (st : state) :
  (route c data st).1 = NotBound
  \/ (exists w, (route c data st).1 = Forwarded w)
  \/ (route c data st).1 = PeerMissing
  \/ (route c data st).1 = Ignored.
Proof.
  unfold route, deliver.
  repeat match goal with
         | |- context [match ?x with _ => _ end] => destruct x
         end; simpl; eauto.
Qed.

(** What a successful authentication was made of. *)
Lemma on_message_auth_success_inv (ws : sock) (raw_ : raw) (now : Z)
    (uuid : jsstring) (st st' : state) (id : jsstring) (r : Role) :
  on_message ws raw_ now uuid st = (AuthSuccess id r, st') ->
  exists c data agent,
    conns st !! ws = Some c
    /\ over_limit (role c) (window_reset now st c).2 = false
    /\ JSON_parse raw_ = Some data
    /\ strict_eq_str (get_prop data (lit "type")) (lit "auth") = true
    /\ get_prop data (lit "agentId") = Some (JStr id)
    /\ agents st !! id = Some agent
    /\ verifyChallenge (get_prop data (lit "challenge"))
         (get_prop data (lit "response")) (accessKey agent) = Some true
    /\ r = requested_role data
    /\ st' = set_socks
               (ws_send ws (JSON_stringify (auth_success_response uuid r))
                  (evict (role_socket r agent) ws (socks st)))
               (set_agents (<[id := set_role_socket r (Some ws) agent]> (agents st))
                  (set_conns
                     (<[ws := set_identity id r (counted ws now st c).1]>
                        (conns (counted ws now st c).2))
                     (counted ws now st c).2)).
Proof.
  intros Hm. destruct (conns st !! ws) as [c|] eqn:Hc.
  2:{ unfold on_message in Hm. rewrite Hc in Hm. discriminate. }
  destruct (over_limit (role c) (window_reset now st c).2) eqn:Hover.
  { rewrite (on_message_dropped ws raw_ now uuid st c Hc Hover) in Hm. discriminate. }
  rewrite (on_message_passed ws raw_ now uuid st c Hc Hover) in Hm.
  destruct (JSON_parse raw_) as [data|] eqn:Hp; [|discriminate].
  assert (Hroute : forall d,
             route (counted ws now st c).1 d (counted ws now st c).2
             ≠ (AuthSuccess id r, st')).
  { intros d E.
    destruct (route_outcome_cases (counted ws now st c).1 d (counted ws now st c).2)
      as [E'|[[w E']|[E'|E']]]; rewrite E in E'; discriminate. }
  assert (Hauth : forall d,
             on_auth ws (counted ws now st c).1 d uuid (counted ws now st c).2
             = (AuthSuccess id r, st') ->
             exists agent,
               get_prop d (lit "agentId") = Some (JStr id)
               /\ agents st !! id = Some agent
               /\ verifyChallenge (get_prop d (lit "challenge"))
                    (get_prop d (lit "response")) (accessKey agent) = Some true
               /\ r = requested_role d
               /\ st' = set_socks
                          (ws_send ws (JSON_stringify (auth_success_response uuid r))
                             (evict (role_socket r agent) ws (socks st)))
                          (set_agents
                             (<[id := set_role_socket r (Some ws) agent]> (agents st))
                             (set_conns
                                (<[ws := set_identity id r (counted ws now st c).1]>
                                   (conns (counted ws now st c).2))
                                (counted ws now st c).2))).
  { intros d E.
    destruct (on_auth_cases ws (counted ws now st c).1 d uuid (counted ws now st c).2)
      as [E'|[(id' & agent & Eid & Ea & Hv)|(E' & _)]].
    - rewrite E in E'. discriminate.
    - rewrite (on_auth_success _ _ _ _ _ id' agent Eid Ea Hv) in E.
      injection E as <- <- <-. exists agent. repeat split; done.
    - rewrite E in E'. discriminate. }
  exists c, data.
  destruct data; try discriminate;
    (destruct (strict_eq_str (get_prop _ (lit "type")) (lit "auth")) eqn:Ht;
     [apply Hauth in Hm as (agent & ? & ? & ? & ? & ?); exists agent;
      repeat split; done
     |by apply Hroute in Hm]).
Qed.

(** The close callback of a socket leaves a field that holds another
    socket alone. *)
Lemma detach_keeps_other (A B : sock) (c : conn) (a : gmap jsstring session)
    (id : jsstring) (r : Role) (a2 : session) :
  A ≠ B -> a !! id = Some a2 -> role_socket r a2 = Some B ->
  exists a3, detach A c a !! id = Some a3 /\ role_socket r a3 = Some B.
Proof.
  intros Hne Ha Hr. unfold detach.
  destruct (agentId c) as [[|u i]|]; [eauto| |eauto].
  destruct (a !! (u :: i)) as [agent|] eqn:Eagent; [|eauto].
  destruct (bool_decide (role c = Some Game) && bool_decide (gameWs agent = Some A))
    eqn:E1.
  { apply andb_true_iff in E1 as [_ E1]. apply bool_decide_eq_true in E1.
    destruct (decide (u :: i = id)) as [<-|Hid].
    - rewrite lookup_insert_eq. eexists. split; [done|].
      assert (agent = a2) as -> by congruence.
      destruct r; simpl in *; congruence.
    - rewrite lookup_insert_ne by done. eauto. }
  destruct (bool_decide (role c = Some Agent) && bool_decide (agentWs agent = Some A))
    eqn:E2; [|eauto].
  apply andb_true_iff in E2 as [_ E2]. apply bool_decide_eq_true in E2.
  destruct (decide (u :: i = id)) as [<-|Hid].
  - rewrite lookup_insert_eq. eexists. split; [done|].
    assert (agent = a2) as -> by congruence.
    destruct r; simpl in *; congruence.
  - rewrite lookup_insert_ne by done. eauto.
Qed.

Lemma on_close_keeps_other (A B : sock) (st : state) (id : jsstring) (r : Role)
    (a2 : session) :
  A ≠ B -> agents st !! id = Some a2 -> role_socket r a2 = Some B ->
  exists a3, agents (on_close A st).2 !! id = Some a3 /\ role_socket r a3 = Some B.
Proof.
  intros Hne Ha Hr. unfold on_close. simpl.
  destruct (conns st !! A) as [c|]; simpl; [|eauto].
  by apply (detach_keeps_other A B c _ id r a2).
Qed.

(** C3. When a socket [B] authenticates for a role of an identity whose
    field for that role holds another, open socket [A], then [A] is closed
    with code 4000 and the field holds [B]; the close callback of [A],
    whenever it runs while the field holds [B], leaves [B] in the field.
    The statement is the same for both roles. *)
Theorem C3_role_eviction (A B : sock) (raw_ : raw) (now : Z) (uuid : jsstring)
    (st st' : state) (id : jsstring) (r : Role) (a : session) (sA : socket) :
  on_message B raw_ now uuid st = (AuthSuccess id r, st') ->
  agents st !! id = Some a ->
  role_socket r a = Some A ->
  A ≠ B ->
  socks st !! A = Some sA ->
  readyState sA = OPEN ->
  socks st' !! A
  = Some {| readyState := CLOSING; closeCode := Some 4000;
            sent := sent sA; pings := pings sA |}
  /\ (exists a', agents st' !! id = Some a' /\ role_socket r a' = Some B)
  /\ (exists a', agents (on_close A st').2 !! id = Some a'
                 /\ role_socket r a' = Some B)
  /\ (forall st2 a2,
         agents st2 !! id = Some a2 -> role_socket r a2 = Some B ->
         exists a3, agents (on_close A st2).2 !! id = Some a3
                    /\ role_socket r a3 = Some B).
Proof.
  intros Hm Ha Hr Hne Hs Ho.
  apply on_message_auth_success_inv in Hm
    as (c & data & agent & Hc & _ & _ & _ & _ & Ha' & _ & _ & ->).
  assert (agent = a) as -> by congruence.
  assert (Hfield : exists a', <[id := set_role_socket r (Some B) a]> (agents st) !! id
                              = Some a' /\ role_socket r a' = Some B).
  { rewrite lookup_insert_eq. eexists. split; [done|]. by destruct r. }
  split; [|split; [exact Hfield|split]].
  - simpl. rewrite ws_send_lookup_ne by done.
    unfold evict. rewrite Hr. rewrite bool_decide_eq_true_2 by done.
    rewrite (closeSafe_open A 4000 _ sA) by done. apply lookup_insert_eq.
  - destruct Hfield as (a' & E & Hf).
    by apply (on_close_keeps_other A B _ id r a').
  - intros st2 a2 E Hf. by apply (on_close_keeps_other A B st2 id r a2).
Qed.

(** *** Forwarding *)

(** An authenticated closure of a reachable state names a registered
    identity, which is not the empty string. *)
Lemma authenticated_bound (st : state) (ws : sock) (c : conn) (r : Role) :
  reachable st -> conns st !! ws = Some c -> role c = Some r ->
  exists u id agent,
    agentId c = Some (u :: id) /\ agents st !! (u :: id) = Some agent.
Proof.
  intros Hr Hc Hrole. apply reachable_consistent in Hr.
  pose proof (inv_bound st Hr ws c Hc) as Hb. unfold bound in Hb.
  rewrite Hrole in Hb. destruct Hb as (id & Eid & [agent Ea]).
  destruct id as [|u id]; [|eauto].
  pose proof (inv_keys st Hr). congruence.
Qed.

Lemma action_payload_tagged (data : json number) :
  get_prop data (lit "type") = Some (JStr (lit "action")) ->
  action_payload data = data.
Proof.
  intros E. unfold action_payload.
  by rewrite (proj2 (strict_eq_str_true _ _) E).
Qed.

Lemma action_payload_untagged (data : json number) :
  get_prop data (lit "type") = None ->
  action_payload data = tagged_action data.
Proof.
  intros E. unfold action_payload. rewrite E.
  change (strict_eq_str None (lit "action")) with false. cbv iota.
  destruct data; try done.
  unfold spread_over, tagged_action. f_equal. symmetry.
  apply insert_union_singleton_r. exact E.
Qed.

(** The router on a forwardable payload. *)
Lemma route_forwardable (c : conn) (r : Role) (data : json number) (st : state)
    (u : N) (id : jsstring) (agent : session) :
  role c = Some r -> agentId c = Some (u :: id) ->
  agents st !! (u :: id) = Some agent ->
  forwardable r data = true ->
  route c data st
  = deliver (role_socket (peer_role r) agent)
      (match r with Game => data | Agent => action_payload data end) st.
Proof.
  intros Hr Hid Ha Hf. unfold route. rewrite Hid, Ha, Hr.
  destruct r; simpl in *; rewrite Hf; reflexivity.
Qed.

(** C2 (as amended).  In a reachable state, a message that reaches the
    parser on a game-role socket and has type [state] is delivered
    unchanged to the agent-role socket of the same session; on an
    agent-role socket, a message of type [action] is delivered unchanged to
    the game-role socket, and a message without a type that has both
    [steer] and [jump] is delivered with [type: 'action'] added.  Delivery
    is one [send] to the peer if it is present and open; otherwise nothing
    is sent to anyone and only the sender's counter has moved. *)
Theorem C2_forwarding (ws : sock) (raw_ : raw) (now : Z) (uuid : jsstring)
    (st : state) (c : conn) (r : Role) (data : json number) :
  reachable st ->
  conns st !! ws = Some c ->
  role c = Some r ->
  over_limit (role c) (window_reset now st c).2 = false ->
  JSON_parse raw_ = Some data ->
  match r with
  | Game => get_prop data (lit "type") = Some (JStr (lit "state"))
  | Agent =>
      get_prop data (lit "type") = Some (JStr (lit "action"))
      \/ (get_prop data (lit "type") = None
          /\ get_prop data (lit "steer") ≠ None
          /\ get_prop data (lit "jump") ≠ None)
  end ->
  exists id agent payload,
    agentId c = Some id
    /\ agents st !! id = Some agent
    /\ payload
       = match r with
         | Game => data
         | Agent =>
             match get_prop data (lit "type") with
             | Some _ => data
             | None => tagged_action data
             end
         end
    /\ on_message ws raw_ now uuid st
       = match role_socket (peer_role r) agent with
         | Some w =>
             if is_open (socks st) w
             then (Forwarded w,
                   set_socks (ws_send w (JSON_stringify payload) (socks st))
                     (counted ws now st c).2)
             else (PeerMissing, (counted ws now st c).2)
         | None => (PeerMissing, (counted ws now st c).2)
         end.
Proof.
  intros Hreach Hc Hr Hover Hp Hshape.
  destruct (authenticated_bound st ws c r Hreach Hc Hr) as (u & id & agent & Eid & Ea).
  assert (Hnot_auth : strict_eq_str (get_prop data (lit "type")) (lit "auth") = false).
  { destruct r; [rewrite Hshape; by vm_compute|].
    destruct Hshape as [E|[E _]]; rewrite E; by vm_compute. }
  assert (Hfwd : forwardable r data = true).
  { destruct r; simpl.
    - by apply strict_eq_str_true.
    - unfold is_action. destruct Hshape as [E|(E & Hs & Hj)].
      + by rewrite (proj2 (strict_eq_str_true _ _) E).
      + rewrite E. simpl. by rewrite !bool_decide_eq_true_2. }
  exists (u :: id), agent.
  eexists. split; [exact Eid|]. split; [exact Ea|]. split; [reflexivity|].
  rewrite (on_message_passed ws raw_ now uuid st c Hc Hover), Hp.
  assert (Hnn : data ≠ JNull).
  { intros ->. destruct r; simpl in Hfwd; discriminate. }
  replace (match data with
           | JNull => (Uncaught, (counted ws now st c).2)
           | _ =>
               if strict_eq_str (get_prop data (lit "type")) (lit "auth")
               then on_auth ws (counted ws now st c).1 data uuid (counted ws now st c).2
               else route (counted ws now st c).1 data (counted ws now st c).2
           end)
    with (route (counted ws now st c).1 data (counted ws now st c).2)
    by (destruct data; try done; by rewrite Hnot_auth).
  rewrite (route_forwardable _ r data _ u id agent); try done.
  unfold deliver. simpl.
  replace (match r with Game => data | Agent => action_payload data end)
    with (match r with
          | Game => data
          | Agent => match get_prop data (lit "type") with
                     | Some _ => data
                     | None => tagged_action data
                     end
          end); [done|].
  destruct r; [done|].
  destruct Hshape as [E|(E & _)]; rewrite E.
  - by rewrite action_payload_tagged.
  - by rewrite action_payload_untagged.
Qed.

(** *** Counting and dropping *)

Lemma on_message_counts (ws : sock) (raw_ : raw) (now : Z) (uuid : jsstring)
    (st : state) (c : conn) :
  conns st !! ws = Some c ->
  over_limit (role c) (window_reset now st c).2 = false ->
  exists c', conns (on_message ws raw_ now uuid st).2 !! ws = Some c'
             /\ rateCount c' = (window_reset now st c).2 + 1.
Proof.
  intros Hc Hover.
  rewrite (on_message_passed ws raw_ now uuid st c Hc Hover).
  assert (Hc' : conns (counted ws now st c).2 !! ws = Some (counted ws now st c).1)
    by (simpl; apply lookup_insert_eq).
  assert (Hauth : forall d : json number,
             exists c', conns (on_auth ws (counted ws now st c).1 d uuid
                                 (counted ws now st c).2).2 !! ws = Some c'
                        /\ rateCount c' = (window_reset now st c).2 + 1).
  { intros d. destruct (on_auth_conn ws _ d uuid _ Hc') as (c' & E & En & _).
    exists c'. split; [exact E|]. by rewrite En. }
  assert (Hroute : forall d : json number,
             exists c', conns (route (counted ws now st c).1 d
                                 (counted ws now st c).2).2 !! ws = Some c'
                        /\ rateCount c' = (window_reset now st c).2 + 1).
  { intros d. destruct (route_agents (counted ws now st c).1 d
                          (counted ws now st c).2) as (_ & -> & _). eauto. }
  destruct (JSON_parse raw_) as [data|]; [|eauto].
  destruct data;
    try match goal with
        | |- context [if ?b then _ else _] => destruct b
        end; eauto.
Qed.

(** C5 (as amended).  Every message that is not dropped is counted,
    whatever the role of the connection, an unset role included.  On an
    authenticated connection a message that arrives when the counter has
    reached the ceiling of the role is dropped: nothing is sent and only
    the window bookkeeping is stored; below the ceiling it is not dropped.
    The ceilings are the configured ones, 25 for the game role and 65 for
    the agent role when the environment sets none. *)
Theorem C5_rate_limiter (ws : sock) (raw_ : raw) (now : Z) (uuid : jsstring)
    (st : state) (c : conn) :
  conns st !! ws = Some c ->
  (over_limit (role c) (window_reset now st c).2 = false ->
   exists c', conns (on_message ws raw_ now uuid st).2 !! ws = Some c'
              /\ rateCount c' = (window_reset now st c).2 + 1)
  /\ (forall r,
         role c = Some r ->
         rate_limit (Some r) <= (window_reset now st c).2 ->
         on_message ws raw_ now uuid st
         = (RateDropped,
            set_conns
              (<[ws := set_rateCount (window_reset now st c).2 c]> (conns st))
              (set_lastRateLimitReset (window_reset now st c).1 st)))
  /\ (forall r,
         role c = Some r ->
         (window_reset now st c).2 < rate_limit (Some r) ->
         (on_message ws raw_ now uuid st).1 ≠ RateDropped)
  /\ rate_limit (Some Game) = RATE_LIMIT_GAME
  /\ rate_limit (Some Agent) = RATE_LIMIT_AGENT
  /\ @RATE_LIMIT_GAME (startup empty_environment) = 25
  /\ @RATE_LIMIT_AGENT (startup empty_environment) = 65.
Proof.
  intros Hc. split; [|split; [|split]].
  - by apply on_message_counts.
  - intros r Hr Hle. apply on_message_dropped; [done|].
    rewrite Hr. by apply over_limit_spec.
  - intros r Hr Hlt.
    assert (Hover : over_limit (role c) (window_reset now st c).2 = false).
    { rewrite Hr. destruct (over_limit _ _) eqn:E; [|done].
      apply over_limit_spec in E. lia. }
    rewrite (on_message_passed ws raw_ now uuid st c Hc Hover).
    destruct (JSON_parse raw_) as [data|]; [|discriminate].
    destruct data; try discriminate;
      (match goal with
       | |- context [if ?b then _ else _] => destruct b
       end;
       [apply on_auth_not_dropped | apply route_outcome]).
  - done.
Qed.

(** *** Failed authentication *)

(** C7 (as amended).  An [auth] message on an unauthenticated connection
    that names no registered session, or for which the check against the
    session's secret returns false (the challenge has a string and the
    response is not the fingerprint of that string and the secret), is
    answered with the failure response and nothing else happens to the
    sockets: the connection is not closed.  The sessions, the connection count, the role and the
    identity of the connection are as before; the message has been
    counted, which is the only change of the connection.  The next
    message on the connection is not dropped by the rate limiter
    either. *)
Theorem C7_auth_failure (ws : sock) (raw_ : raw) (now : Z) (uuid : jsstring)
    (st : state) (c : conn) (data : json number) :
  conns st !! ws = Some c ->
  role c = None ->
  JSON_parse raw_ = Some data ->
  strict_eq_str (get_prop data (lit "type")) (lit "auth") = true ->
  (forall agent,
      agents_get (agents st) (get_prop data (lit "agentId")) = Some agent ->
      verifyChallenge (get_prop data (lit "challenge"))
        (get_prop data (lit "response")) (accessKey agent) = Some false) ->
  let st' := (on_message ws raw_ now uuid st).2 in
  on_message ws raw_ now uuid st
  = (AuthFailure,
     set_socks (ws_send ws (JSON_stringify auth_failure_response) (socks st))
       (set_conns
          (<[ws := set_rateCount ((window_reset now st c).2 + 1) c]> (conns st))
          (set_lastRateLimitReset (window_reset now st c).1 st)))
  /\ agents st' = agents st
  /\ totalConnections st' = totalConnections st
  /\ (forall w s, socks st !! w = Some s ->
                  exists s', socks st' !! w = Some s'
                             /\ readyState s' = readyState s
                             /\ closeCode s' = closeCode s)
  /\ (exists c', conns st' !! ws = Some c'
                 /\ role c' = None /\ agentId c' = agentId c
                 /\ lastPing c' = lastPing c /\ heartbeat c' = heartbeat c
                 /\ rateCount c' = (window_reset now st c).2 + 1)
  /\ (forall raw2 now2 uuid2, (on_message ws raw2 now2 uuid2 st').1 ≠ RateDropped).
Proof.
  intros Hc Hrole Hp Ht Hfail st'.
  assert (Hover : over_limit (role c) (window_reset now st c).2 = false)
    by (rewrite Hrole; apply over_limit_unauthenticated).
  assert (Heq : on_message ws raw_ now uuid st
                = (AuthFailure,
                   set_socks
                     (ws_send ws (JSON_stringify auth_failure_response) (socks st))
                     (counted ws now st c).2)).
  { rewrite (on_message_passed ws raw_ now uuid st c Hc Hover), Hp.
    pose proof (on_auth_failure ws (counted ws now st c).1 data uuid
                  (counted ws now st c).2 Hfail) as Hf.
    destruct data; try discriminate; by rewrite Ht, Hf. }
  subst st'. rewrite Heq. simpl.
  split; [done|]. split; [done|]. split; [done|]. split; [|split].
  - intros w s Hs. destruct (decide (w = ws)) as [->|Hne].
    + rewrite (ws_send_lookup ws _ _ s Hs). eauto.
    + rewrite ws_send_lookup_ne by done. eauto.
  - rewrite lookup_insert_eq. eexists. split; [done|]. by repeat split.
  - intros raw2 now2 uuid2.
    eapply (on_message_unauthenticated ws raw2 now2 uuid2).
    + simpl. apply lookup_insert_eq.
    + done.
Qed.

(** *** Authenticated connections *)

(** C8 (as amended).  On an authenticated connection a message that is
    dropped by the rate limiter, or is not JSON, or parses to a value other
    than [null] that is neither an [auth] message nor a forwardable payload
    for the role, is ignored without a trace: no socket is touched, the
    sessions are as before and the connection keeps its role and identity.
    An [auth] message is handled as on an unauthenticated connection: one
    that names no registered session, or for which the check returns
    false, is answered with the failure response and changes neither role
    nor identity nor sessions; one for which the check returns true binds
    the connection to the identity and role of the message. *)
Theorem C8_authenticated_connection (ws : sock) (raw_ : raw) (now : Z)
    (uuid : jsstring) (st : state) (c : conn) (r : Role) :
  conns st !! ws = Some c ->
  role c = Some r ->
  let o := (on_message ws raw_ now uuid st).1 in
  let st' := (on_message ws raw_ now uuid st).2 in
  ((over_limit (role c) (window_reset now st c).2 = true
    \/ JSON_parse raw_ = None
    \/ (exists data,
           JSON_parse raw_ = Some data /\ data ≠ JNull
           /\ strict_eq_str (get_prop data (lit "type")) (lit "auth") = false
           /\ forwardable r data = false)) ->
   socks st' = socks st
   /\ agents st' = agents st
   /\ totalConnections st' = totalConnections st
   /\ (exists c', conns st' !! ws = Some c'
                  /\ role c' = Some r /\ agentId c' = agentId c)
   /\ (o = RateDropped \/ o = ParseError \/ o = NotBound \/ o = Ignored))
  /\ (forall data,
         over_limit (role c) (window_reset now st c).2 = false ->
         JSON_parse raw_ = Some data ->
         strict_eq_str (get_prop data (lit "type")) (lit "auth") = true ->
         ((forall agent,
              agents_get (agents st) (get_prop data (lit "agentId")) = Some agent ->
              verifyChallenge (get_prop data (lit "challenge"))
                (get_prop data (lit "response")) (accessKey agent) = Some false) ->
          o = AuthFailure
          /\ socks st' = ws_send ws (JSON_stringify auth_failure_response) (socks st)
          /\ agents st' = agents st
          /\ (exists c', conns st' !! ws = Some c'
                         /\ role c' = Some r /\ agentId c' = agentId c))
         /\ (forall id agent,
                get_prop data (lit "agentId") = Some (JStr id) ->
                agents st !! id = Some agent ->
                verifyChallenge (get_prop data (lit "challenge"))
                  (get_prop data (lit "response")) (accessKey agent) = Some true ->
                o = AuthSuccess id (requested_role data)
                /\ (exists c', conns st' !! ws = Some c'
                               /\ role c' = Some (requested_role data)
                               /\ agentId c' = Some id))).
Proof.
  intros Hc Hr o st'. subst o st'. split.
  - intros [Hover|Hrest].
    { rewrite (on_message_dropped ws raw_ now uuid st c Hc Hover). simpl.
      repeat split; auto. rewrite lookup_insert_eq. eauto. }
    destruct (over_limit (role c) (window_reset now st c).2) eqn:Hover.
    { rewrite (on_message_dropped ws raw_ now uuid st c Hc Hover). simpl.
      repeat split; auto. rewrite lookup_insert_eq. eauto. }
    rewrite (on_message_passed ws raw_ now uuid st c Hc Hover).
    destruct Hrest as [Hp|(data & Hp & Hnn & Ht & Hf)]; rewrite Hp.
    { simpl. repeat split; auto. rewrite lookup_insert_eq. eauto. }
    replace (match data with
             | JNull => (Uncaught, (counted ws now st c).2)
             | _ =>
                 if strict_eq_str (get_prop data (lit "type")) (lit "auth")
                 then on_auth ws (counted ws now st c).1 data uuid
                        (counted ws now st c).2
                 else route (counted ws now st c).1 data (counted ws now st c).2
             end)
      with (route (counted ws now st c).1 data (counted ws now st c).2)
      by (destruct data; try done; by rewrite Ht).
    destruct (route_not_forwardable (counted ws now st c).1 r data
                (counted ws now st c).2 Hr Hf) as [E2 Ho].
    rewrite E2. split; [done|]. split; [done|]. split; [done|]. split.
    + simpl. rewrite lookup_insert_eq. eauto.
    + destruct Ho as [Ho|Ho]; rewrite Ho; auto.
  - intros data Hover Hp Ht.
    rewrite (on_message_passed ws raw_ now uuid st c Hc Hover), Hp.
    replace (match data with
             | JNull => (Uncaught, (counted ws now st c).2)
             | _ =>
                 if strict_eq_str (get_prop data (lit "type")) (lit "auth")
                 then on_auth ws (counted ws now st c).1 data uuid
                        (counted ws now st c).2
                 else route (counted ws now st c).1 data (counted ws now st c).2
             end)
      with (on_auth ws (counted ws now st c).1 data uuid (counted ws now st c).2)
      by (destruct data; try done; by rewrite Ht).
    split.
    + intros Hfail.
      rewrite (on_auth_failure ws (counted ws now st c).1 data uuid
                 (counted ws now st c).2 Hfail).
      simpl. repeat split; auto. rewrite lookup_insert_eq. eauto.
    + intros id agent Eid Ea Hv.
      rewrite (on_auth_success ws (counted ws now st c).1 data uuid
                 (counted ws now st c).2 id agent Eid Ea Hv).
      simpl. split; [done|]. rewrite lookup_insert_eq. eauto.
Qed.

(** *** The secret of a session *)

Lemma on_message_secret (ws : sock) (raw_ : raw) (now : Z) (uuid : jsstring)
    (st : state) (id : jsstring) (a : session) :
  agents st !! id = Some a ->
  exists a', agents (on_message ws raw_ now uuid st).2 !! id = Some a'
             /\ accessKey a' = accessKey a /\ created a' = created a.
Proof.
  intros Ha. destruct (conns st !! ws) as [c|] eqn:Hc.
  2:{ unfold on_message. rewrite Hc. eauto. }
  destruct (over_limit (role c) (window_reset now st c).2) eqn:Hover.
  { rewrite (on_message_dropped ws raw_ now uuid st c Hc Hover). eauto. }
  rewrite (on_message_passed ws raw_ now uuid st c Hc Hover).
  assert (Hauth : forall d,
             exists a', agents (on_auth ws (counted ws now st c).1 d uuid
                                  (counted ws now st c).2).2 !! id = Some a'
                        /\ accessKey a' = accessKey a /\ created a' = created a).
  { intros d.
    destruct (on_auth_cases ws (counted ws now st c).1 d uuid (counted ws now st c).2)
      as [->|[(id' & agent & Eid & Ea & Hv)|(-> & _)]]; [eauto| |eauto].
    rewrite (on_auth_success _ _ _ _ _ id' agent Eid Ea Hv). simpl.
    destruct (decide (id' = id)) as [->|Hne].
    - rewrite lookup_insert_eq. simpl in Ea. assert (agent = a) as -> by congruence.
      eexists. split; [done|]. by destruct (requested_role d).
    - rewrite lookup_insert_ne by done. eauto. }
  assert (Hroute : forall d,
             exists a', agents (route (counted ws now st c).1 d
                                  (counted ws now st c).2).2 !! id = Some a'
                        /\ accessKey a' = accessKey a /\ created a' = created a).
  { intros d. destruct (route_agents (counted ws now st c).1 d
                          (counted ws now st c).2) as (-> & _). eauto. }
  destruct (JSON_parse raw_) as [data|]; [|eauto].
  destruct data;
    try match goal with
        | |- context [if ?b then _ else _] => destruct b
        end; eauto.
Qed.

Lemma detach_secret (ws : sock) (c : conn) (ag : gmap jsstring session)
    (id : jsstring) (a : session) :
  ag !! id = Some a ->
  exists a', detach ws c ag !! id = Some a'
             /\ accessKey a' = accessKey a /\ created a' = created a.
Proof.
  intros Ha. unfold detach.
  destruct (agentId c) as [[|u i]|]; [eauto| |eauto].
  destruct (ag !! (u :: i)) as [agent|] eqn:Eagent; [|eauto].
  repeat match goal with
         | |- context [if ?b then _ else _] => destruct b
         end; eauto;
    (destruct (decide (u :: i = id)) as [<-|Hne];
     [rewrite lookup_insert_eq; assert (agent = a) as -> by congruence; eauto
     |rewrite lookup_insert_ne by done; eauto]).
Qed.

(** C9 (as amended).  A registration stores the session with the secret
    it returns, whether the identity was registered before or not: a
    request for a registered identity replaces its session, secret
    included, by a new one with no sockets.  Every other event, and every
    registration under another identity, leaves the secret and the creation
    time of a registered session as they are, and the session
    registered. *)
Theorem C9_secret_of_a_session (ev : event) (st : state) (id : jsstring) :
  (forall key,
      (handle ev st).1 = Registered id key ->
      exists now,
        agents (handle ev st).2 !! id
        = Some {| accessKey := key; created := now;
                  gameWs := None; agentWs := None |})
  /\ (forall a,
         agents st !! id = Some a ->
         (forall key, (handle ev st).1 ≠ Registered id key) ->
         exists a', agents (handle ev st).2 !! id = Some a'
                    /\ accessKey a' = accessKey a /\ created a' = created a).
Proof.
  split.
  - intros key Hreg. destruct ev; simpl in *.
    + exists now. unfold on_register in *.
      destruct (JSON_parse body) as [data|]; [|discriminate].
      assert (Hgo : forall o,
                 o = match requested_id data with
                     | Some trimmed =>
                         let agentId :=
                           if bool_decide (trimmed = [])
                           then lit "agent-" ++ hex_of_bytes idBytes else trimmed in
                         let accessKey := hex_of_bytes keyBytes in
                         (Registered agentId accessKey,
                          set_agents
                            (<[agentId := {| accessKey := accessKey; created := now;
                                             gameWs := None; agentWs := None |}]>
                               (agents st)) st)
                     | None => (BadRequest, st)
                     end ->
                 o.1 = Registered id key ->
                 agents o.2 !! id
                 = Some {| accessKey := key; created := now;
                           gameWs := None; agentWs := None |}).
      { intros o -> Ho. destruct (requested_id data); [|discriminate].
        simpl in *. injection Ho as <- <-. apply lookup_insert_eq. }
      destruct data; solve [done | by eapply Hgo].
    + unfold on_connection in Hreg. simpl in Hreg.
      by destruct (totalConnections st >=? MAX_CONNECTIONS).
    + exfalso.
      destruct (conns st !! ws) as [c|] eqn:Hc.
      2:{ unfold on_message in Hreg. by rewrite Hc in Hreg. }
      destruct (over_limit (role c) (window_reset now st c).2) eqn:Hover.
      { by rewrite (on_message_dropped ws raw_ now uuid st c Hc Hover) in Hreg. }
      rewrite (on_message_passed ws raw_ now uuid st c Hc Hover) in Hreg.
      assert (Hauth : forall d,
                 (on_auth ws (counted ws now st c).1 d uuid (counted ws now st c).2).1
                 ≠ Registered id key).
      { intros d. destruct (on_auth_outcome ws (counted ws now st c).1 d uuid
                              (counted ws now st c).2) as [E|[(i & r & E)|(E & _)]];
          by rewrite E. }
      assert (Hroute : forall d,
                 (route (counted ws now st c).1 d (counted ws now st c).2).1
                 ≠ Registered id key).
      { intros d. destruct (route_outcome_cases (counted ws now st c).1 d
                              (counted ws now st c).2) as [E|[[w E]|[E|E]]];
          by rewrite E. }
      destruct (JSON_parse raw_) as [data|]; [|done].
      destruct data; try done;
        match type of Hreg with
        | context [if ?b then _ else _] => destruct b
        end; (by eapply Hauth) || (by eapply Hroute).
    + unfold on_pong in Hreg. by destruct (conns st !! ws).
    + unfold on_tick in Hreg. destruct (conns st !! ws) as [c|]; [|done].
      destruct (heartbeat c); [|done].
      by destruct (now - lastPing c >? HEARTBEAT_MS).
    + unfold on_close in Hreg. simpl in Hreg. by destruct (conns st !! ws).
    + unfold on_error in Hreg. destruct (conns st !! ws); [done|].
      by destruct (before_close _ _).
  - intros a Ha Hother. destruct ev; simpl in *.
    + unfold on_register in *.
      destruct (JSON_parse body) as [data|]; [|eauto].
      assert (Hgo : forall o,
                 o = match requested_id data with
                     | Some trimmed =>
                         let agentId :=
                           if bool_decide (trimmed = [])
                           then lit "agent-" ++ hex_of_bytes idBytes else trimmed in
                         let accessKey := hex_of_bytes keyBytes in
                         (Registered agentId accessKey,
                          set_agents
                            (<[agentId := {| accessKey := accessKey; created := now;
                                             gameWs := None; agentWs := None |}]>
                               (agents st)) st)
                     | None => (BadRequest, st)
                     end ->
                 (forall key, o.1 ≠ Registered id key) ->
                 exists a', agents o.2 !! id = Some a'
                            /\ accessKey a' = accessKey a /\ created a' = created a).
      { intros o -> Ho. destruct (requested_id data) as [trimmed|]; [|eauto].
        simpl in *.
        rewrite lookup_insert_ne; [eauto|].
        intros E. eapply Ho. by rewrite E. }
      destruct data; solve [by eapply Hgo | eauto].
    + unfold on_connection. simpl.
      destruct (totalConnections st >=? MAX_CONNECTIONS); simpl; eauto.
    + by apply on_message_secret.
    + unfold on_pong. destruct (conns st !! ws); simpl; eauto.
    + unfold on_tick. destruct (conns st !! ws) as [c|]; simpl; [|eauto].
      destruct (heartbeat c); simpl; [|eauto].
      destruct (now - lastPing c >? HEARTBEAT_MS); simpl; [eauto|].
      destruct (is_open (socks st) ws); simpl; eauto.
    + unfold on_close. simpl. destruct (conns st !! ws); simpl; [|eauto].
      by apply detach_secret.
    + unfold on_error. destruct (conns st !! ws); simpl; [eauto|].
      destruct (before_close _ _); simpl; eauto.
Qed.

End RelayProperties.

(** * Further properties *)

(** ** The digest *)

Lemma ToInt32_mul31 (p : Z) (c : N) :
  ToInt32 (31 * ToInt32 p + Z.of_N c) = ToInt32 (31 * p + Z.of_N c).
Proof.
  destruct (ToInt32_wraps p) as [k ->].
  replace (31 * (p + 2 ^ 32 * k) + Z.of_N c)
    with (31 * p + Z.of_N c + 2 ^ 32 * (31 * k)) by lia.
  apply ToInt32_periodic.
Qed.

Lemma hash_fold_poly31 (s : jsstring) (h : Z) :
  - 2 ^ 31 <= h < 2 ^ 31 ->
  fold_left hash_step s h = ToInt32 (poly31 s h).
Proof.
  intros Hh. unfold poly31. induction s as [|c s IH] using rev_ind.
  - cbn [fold_left]. symmetry. by apply ToInt32_small.
  - rewrite !fold_left_app. cbn [fold_left].
    rewrite hash_step_wrap, IH. apply ToInt32_mul31.
Qed.

Lemma hex_digit_value_digit (d : N) :
  (d < 16)%N -> hex_digit_value (hex_digit d) = d.
Proof.
  intros Hd. unfold hex_digit, hex_digit_value.
  destruct (N.ltb_spec d 10).
  - destruct (N.ltb_spec (48 + d) 58); lia.
  - destruct (N.ltb_spec (87 + d) 58); lia.
Qed.

Lemma hex_digit_is_hex_char (d : N) :
  (d < 16)%N -> is_hex_char (hex_digit d) = true.
Proof.
  intros Hd. unfold hex_digit, is_hex_char.
  destruct (N.ltb_spec d 10).
  - apply orb_true_iff. left. apply andb_true_iff. split; apply N.leb_le; lia.
  - apply orb_true_iff. right. apply andb_true_iff. split; apply N.leb_le; lia.
Qed.

Lemma hex_digits_aux_acc (fuel : nat) (n : N) (acc : jsstring) :
  hex_digits_aux fuel n acc = hex_digits_aux fuel n [] ++ acc.
Proof.
  revert n acc. induction fuel as [|fuel IH]; intros n acc; [done|].
  cbn [hex_digits_aux]. destruct (n <? 16)%N; [done|].
  rewrite (IH _ (_ :: acc)), (IH _ [_]), <- app_assoc. done.
Qed.

(** The digits of a number, one step at a time. *)
Lemma hex_digits_aux_step (fuel : nat) (n : N) :
  hex_digits_aux (S fuel) n []
  = if (n <? 16)%N then [hex_digit n]
    else hex_digits_aux fuel (n / 16)%N [] ++ [hex_digit (n mod 16)%N].
Proof.
  cbn [hex_digits_aux]. destruct (N.ltb_spec n 16).
  - by rewrite N.mod_small.
  - apply hex_digits_aux_acc.
Qed.

Lemma hex_value_snoc (s : jsstring) (c : N) :
  hex_value (s ++ [c]) = (16 * hex_value s + hex_digit_value c)%N.
Proof. unfold hex_value. by rewrite fold_left_app. Qed.

Lemma hex_digits_aux_value (fuel : nat) (n : N) :
  (n < 2 ^ N.of_nat fuel)%N -> hex_value (hex_digits_aux fuel n []) = n.
Proof.
  revert n. induction fuel as [|fuel IH]; intros n Hn.
  - cbn in Hn. assert (n = 0%N) as -> by lia. reflexivity.
  - rewrite hex_digits_aux_step. destruct (N.ltb_spec n 16).
    + unfold hex_value. cbn [fold_left]. rewrite hex_digit_value_digit by done. lia.
    + rewrite hex_value_snoc, IH, hex_digit_value_digit.
      * pose proof (N.div_mod n 16 ltac:(lia)). lia.
      * apply N.mod_lt. lia.
      * rewrite Nat2N.inj_succ, N.pow_succ_r' in Hn.
        apply N.Div0.div_lt_upper_bound. lia.
Qed.

Lemma hex_digits_aux_chars (fuel : nat) (n : N) :
  Forall (fun c => is_hex_char c = true) (hex_digits_aux fuel n []).
Proof.
  revert n. induction fuel as [|fuel IH]; intros n; [constructor|].
  rewrite hex_digits_aux_step. destruct (N.ltb_spec n 16).
  - repeat constructor. by apply hex_digit_is_hex_char.
  - apply Forall_app. split; [apply IH|].
    repeat constructor. apply hex_digit_is_hex_char, N.mod_lt. lia.
Qed.

Lemma hex_digits_aux_length (fuel : nat) (n : N) (k : nat) :
  (n < 16 ^ N.of_nat (S k))%N -> (length (hex_digits_aux fuel n []) <= S k)%nat.
Proof.
  revert n k. induction fuel as [|fuel IH]; intros n k Hn; [cbn; lia|].
  rewrite hex_digits_aux_step. destruct (N.ltb_spec n 16); [cbn; lia|].
  rewrite length_app. cbn [length].
  destruct k as [|k]; [cbn in Hn; lia|].
  assert (length (hex_digits_aux fuel (n / 16) []) <= S k)%nat; [|lia].
  apply IH. rewrite (Nat2N.inj_succ (S k)), N.pow_succ_r' in Hn.
  apply N.Div0.div_lt_upper_bound. lia.
Qed.

Lemma hex_digits_value (n : N) : hex_value (hex_digits n) = n.
Proof.
  unfold hex_digits. apply hex_digits_aux_value.
  rewrite Nat2N.inj_succ, N2Nat.id.
  destruct n as [|p]; [cbn; lia|].
  apply N.log2_spec. lia.
Qed.

Lemma parse16_unsigned (c : N) (r : jsstring) :
  c ≠ 45%N -> parse16 (c :: r) = Z.of_N (hex_value (c :: r)).
Proof.
  intros Hne. unfold parse16. destruct c as [|p]; [done|].
  do 6 (destruct p as [p|p|]; try done).
Qed.

Lemma hex_digits_chars (n : N) :
  Forall (fun c => is_hex_char c = true) (hex_digits n).
Proof. apply hex_digits_aux_chars. Qed.

Lemma parse16_toString16 (x : Z) : parse16 (toString16 x) = x.
Proof.
  unfold toString16. destruct (Z.ltb_spec x 0).
  - change (lit "-" ++ hex_digits (Z.to_N (- x)))
      with (45%N :: hex_digits (Z.to_N (- x))).
    cbn [parse16]. rewrite hex_digits_value. lia.
  - pose proof (hex_digits_chars (Z.to_N x)) as Hc.
    pose proof (hex_digits_value (Z.to_N x)) as Hv.
    destruct (hex_digits (Z.to_N x)) as [|c r].
    + cbn in *. lia.
    + rewrite parse16_unsigned; [lia|].
      apply Forall_cons in Hc as [Hc _]. by intros ->.
Qed.

Lemma toString16_inj (x y : Z) : toString16 x = toString16 y -> x = y.
Proof.
  intros E. rewrite <- (parse16_toString16 x), <- (parse16_toString16 y).
  by rewrite E.
Qed.

Lemma toString16_length (x : Z) :
  - 2 ^ 31 <= x < 2 ^ 31 -> (length (toString16 x) <= 9)%nat.
Proof.
  intros Hx. unfold toString16. destruct (Z.ltb_spec x 0).
  - rewrite length_app. change (length (lit "-")) with 1%nat.
    pose proof (hex_digits_aux_length (S (N.to_nat (N.log2 (Z.to_N (- x)))))
                  (Z.to_N (- x)) 7) as Hl.
    fold (hex_digits (Z.to_N (- x))) in Hl.
    assert (length (hex_digits (Z.to_N (- x))) <= 8)%nat; [|lia].
    apply Hl. change (16 ^ N.of_nat 8)%N with 4294967296%N. lia.
  - pose proof (hex_digits_aux_length (S (N.to_nat (N.log2 (Z.to_N x))))
                  (Z.to_N x) 7) as Hl.
    fold (hex_digits (Z.to_N x)) in Hl.
    assert (length (hex_digits (Z.to_N x)) <= 8)%nat; [|lia].
    apply Hl. change (16 ^ N.of_nat 8)%N with 4294967296%N. lia.
Qed.

Lemma poly31_app (a b : jsstring) (h : Z) :
  poly31 (a ++ b) h = poly31 b (poly31 a h).
Proof. unfold poly31. apply fold_left_app. Qed.

Lemma ToInt32_eq_inv (x y : Z) :
  ToInt32 x = ToInt32 y -> exists k, x - y = 2 ^ 32 * k.
Proof.
  intros E. destruct (ToInt32_wraps x) as [k1 E1], (ToInt32_wraps y) as [k2 E2].
  exists (k2 - k1). lia.
Qed.

Section DigestProperties.
Context `{Host}.

Lemma signChallenge_poly31 (challenge : jsval) (key : jsstring) :
  signChallenge challenge key
  = (fun combined => toString16 (hash32 combined)) <$> js_add challenge key.
Proof.
  unfold signChallenge, hash32. destruct (js_add challenge key) as [s|]; [|done].
  simpl. by rewrite hash_fold_poly31 by lia.
Qed.

(** X1. The digest is the hexadecimal rendering of the polynomial in 31
    over the code units of challenge and key, wrapped once to 32 bits: the
    wrap-around at every step of the loop changes nothing.  It has at most
    nine characters, a minus sign and eight digits.  There is a digest
    exactly where the concatenation does not throw. *)
Theorem X1_digest_closed_form (challenge : jsval) (key : jsstring) :
  signChallenge challenge key
  = (fun combined => toString16 (hash32 combined)) <$> js_add challenge key
  /\ parse16 <$> signChallenge challenge key = hash32 <$> js_add challenge key
  /\ (forall digest,
         signChallenge challenge key = Some digest -> (length digest <= 9)%nat).
Proof.
  rewrite signChallenge_poly31. split; [done|]. split.
  - destruct (js_add challenge key); [|done]. simpl. f_equal.
    apply parse16_toString16.
  - intros digest. destruct (js_add challenge key); [|done]. intros [= <-].
    apply toString16_length, ToInt32_range.
Qed.

(** X2. The rendering of a hash loses nothing: reading a rendered integer
    back gives the integer, so two digests are equal exactly when the
    wrapped hashes are, and the check accepts a rendered integer exactly
    when it is the hash of challenge and key. *)
Theorem X2_digest_rendering_is_injective :
  (forall x : Z, parse16 (toString16 x) = x)
  /\ (forall (c c' : jsval) (k k' : jsstring),
         signChallenge c k = signChallenge c' k'
         <-> hash32 <$> js_add c k = hash32 <$> js_add c' k')
  /\ (forall (c : jsval) (k : jsstring) (x : Z),
         verifyChallenge c (Some (JStr (toString16 x))) k = Some true
         <-> hash32 <$> js_add c k = Some x).
Proof.
  split; [exact parse16_toString16|]. split.
  - intros c c' k k'. rewrite !signChallenge_poly31.
    destruct (js_add c k) as [s|], (js_add c' k') as [s'|]; simpl;
      split; try done.
    + intros [= E]. f_equal. by apply toString16_inj.
    + by intros [= ->].
  - intros c k x. rewrite verifyChallenge_true, signChallenge_poly31.
    destruct (js_add c k) as [s|]; simpl; split.
    + intros (d & [= <-] & [= E]). f_equal. symmetry. by apply toString16_inj.
    + intros [= <-]. eauto.
    + by intros (d & ? & _).
    + done.
Qed.

(** X3. The check does not identify the secret: two keys that differ by
    ["Aa"] against ["BB"] at any place give the same digest for every
    challenge, so a response computed with one is accepted for the
    other. *)
Theorem X3_colliding_secrets (challenge : jsval) (p q : jsstring) :
  p ++ lit "Aa" ++ q ≠ p ++ lit "BB" ++ q
  /\ signChallenge challenge (p ++ lit "Aa" ++ q)
     = signChallenge challenge (p ++ lit "BB" ++ q)
  /\ (forall digest,
         signChallenge challenge (p ++ lit "Aa" ++ q) = Some digest ->
         verifyChallenge challenge (Some (JStr digest)) (p ++ lit "BB" ++ q)
         = Some true)
  /\ (is_Some (ToString challenge) ->
      is_Some (signChallenge challenge (p ++ lit "Aa" ++ q))).
Proof.
  assert (Hsame : signChallenge challenge (p ++ lit "Aa" ++ q)
                  = signChallenge challenge (p ++ lit "BB" ++ q)).
  { rewrite !signChallenge_poly31. unfold js_add.
    destruct (ToString challenge) as [s|]; [|done].
    cbn [mbind option_bind fmap option_fmap option_map]. do 2 f_equal.
    unfold hash32.
    rewrite !app_assoc, !(poly31_app _ q), !(poly31_app _ (lit _)).
    do 2 f_equal. unfold poly31. cbn. lia. }
  split; [|split; [exact Hsame|split]].
  - intros E. apply app_inv_head in E. discriminate.
  - intros digest E. apply verifyChallenge_true. exists digest.
    split; [by rewrite <- Hsame|done].
  - intros [s E]. unfold signChallenge, js_add. rewrite E. simpl. eauto.
Qed.

(** X4. Two keys that differ in their last code unit only never share a
    digest: a response computed with one is rejected for the other,
    whatever the challenge. *)
Theorem X4_last_unit_matters (challenge : jsval) (k : jsstring) (a b : N) :
  (a < 65536)%N -> (b < 65536)%N -> a ≠ b ->
  (is_Some (ToString challenge) ->
   signChallenge challenge (k ++ [a]) ≠ signChallenge challenge (k ++ [b]))
  /\ (forall digest,
         signChallenge challenge (k ++ [a]) = Some digest ->
         signChallenge challenge (k ++ [b]) ≠ Some digest
         /\ verifyChallenge challenge (Some (JStr digest)) (k ++ [b])
            = Some false).
Proof.
  intros Ha Hb Hne.
  assert (Hdiff : forall digest,
             signChallenge challenge (k ++ [a]) = Some digest ->
             signChallenge challenge (k ++ [b]) ≠ Some digest).
  { intros digest. rewrite !signChallenge_poly31. unfold js_add.
    destruct (ToString challenge) as [s|]; [|done]. simpl.
    intros [= <-] [= E]. apply toString16_inj in E. unfold hash32 in E.
    rewrite !app_assoc, !poly31_app in E.
    set (h := poly31 k (poly31 s 0)) in E.
    change (poly31 [a] h) with (31 * h + Z.of_N a) in E.
    change (poly31 [b] h) with (31 * h + Z.of_N b) in E.
    apply ToInt32_eq_inv in E as [j E]. apply Hne. lia. }
  split.
  - intros [s E] Heq.
    destruct (signChallenge challenge (k ++ [a])) as [d|] eqn:Ed.
    + by apply (Hdiff d).
    + apply signChallenge_None in Ed. congruence.
  - intros digest E. split; [by apply Hdiff|].
    destruct (signChallenge challenge (k ++ [b])) as [d|] eqn:Ed.
    + apply verifyChallenge_false. exists d. split; [done|].
      intros [= <-]. by apply (Hdiff digest).
    + apply signChallenge_None in Ed.
      pose proof (proj2 (signChallenge_None challenge (k ++ [a])) Ed). congruence.
Qed.

End DigestProperties.

(** ** Keys, identities and white space *)

Lemma hex_digit_inj (d d' : N) :
  (d < 16)%N -> (d' < 16)%N -> hex_digit d = hex_digit d' -> d = d'.
Proof.
  intros Hd Hd' E.
  rewrite <- (hex_digit_value_digit d), <- (hex_digit_value_digit d') by done.
  by rewrite E.
Qed.

Lemma byte_to_N_bound (b : Byte.byte) : (Byte.to_N b < 256)%N.
Proof. pose proof (Byte.to_N_bounded b). lia. Qed.

Lemma hex_of_byte_inj (b b' : Byte.byte) :
  hex_of_byte b = hex_of_byte b' -> b = b'.
Proof.
  unfold hex_of_byte. cbv zeta. intros [= E1 E2].
  pose proof (byte_to_N_bound b). pose proof (byte_to_N_bound b').
  apply hex_digit_inj in E1;
    [|apply N.Div0.div_lt_upper_bound; lia|apply N.Div0.div_lt_upper_bound; lia].
  apply hex_digit_inj in E2; [|apply N.mod_lt; lia|apply N.mod_lt; lia].
  assert (E : Byte.to_N b = Byte.to_N b').
  { pose proof (N.div_mod (Byte.to_N b) 16 ltac:(lia)).
    pose proof (N.div_mod (Byte.to_N b') 16 ltac:(lia)). lia. }
  apply (f_equal Byte.of_N) in E. rewrite !Byte.of_to_N in E. congruence.
Qed.

Lemma hex_of_bytes_cons (b : Byte.byte) (bs : list Byte.byte) :
  hex_of_bytes (b :: bs) = hex_of_byte b ++ hex_of_bytes bs.
Proof. reflexivity. Qed.

Lemma trim_start_fixed (c : N) (s : jsstring) :
  is_js_whitespace c = false -> trim_start (c :: s) = c :: s.
Proof. intros E. cbn [trim_start]. by rewrite E. Qed.

(** What [trim_start] leaves is what follows the leading white space. *)
Lemma trim_start_spec (s : jsstring) :
  exists pre,
    s = pre ++ trim_start s
    /\ Forall (fun c => is_js_whitespace c = true) pre
    /\ match trim_start s with
       | c :: _ => is_js_whitespace c = false
       | [] => True
       end.
Proof.
  induction s as [|c s (pre & E & Hpre & Hhd)].
  - exists []. by repeat split.
  - cbn [trim_start]. destruct (is_js_whitespace c) eqn:Ec.
    + exists (c :: pre). split; [by rewrite <- app_comm_cons, <- E|].
      split; [by constructor|done].
    + exists []. by repeat split.
Qed.

Lemma trim_start_idem (s : jsstring) : trim_start (trim_start s) = trim_start s.
Proof.
  destruct (trim_start_spec s) as (_ & _ & _ & Hhd).
  destruct (trim_start s) as [|c r]; [done|]. by apply trim_start_fixed.
Qed.

(** The two ends of a trimmed string, when it is not empty. *)
Lemma trim_ends (s : jsstring) :
  match trim s with
  | [] => True
  | c :: _ => is_js_whitespace c = false
  end
  /\ match rev (trim s) with
     | [] => True
     | c :: _ => is_js_whitespace c = false
     end.
Proof.
  unfold trim. rewrite rev_involutive.
  destruct (trim_start_spec s) as (pre1 & E1 & _ & Hhd1).
  destruct (trim_start_spec (rev (trim_start s))) as (pre2 & E2 & _ & Hhd2).
  split; [|exact Hhd2].
  set (y := trim_start s) in *. set (z := trim_start (rev y)) in *.
  destruct (rev z) as [|c r] eqn:Ez; [done|].
  assert (Ey : y = rev z ++ rev pre2).
  { rewrite <- rev_app_distr, <- E2. by rewrite rev_involutive. }
  rewrite Ez in Ey. destruct y as [|c' y']; [discriminate|].
  injection Ey as -> _. exact Hhd1.
Qed.

Lemma trim_idem (s : jsstring) : trim (trim s) = trim s.
Proof.
  destruct (trim_ends s) as [Hhd Hlast].
  unfold trim at 1.
  assert (E1 : trim_start (trim s) = trim s).
  { destruct (trim s) as [|c r]; [done|]. by apply trim_start_fixed. }
  rewrite E1.
  assert (E2 : trim_start (rev (trim s)) = rev (trim s)).
  { destruct (rev (trim s)) as [|c r]; [done|]. by apply trim_start_fixed. }
  rewrite E2. apply rev_involutive.
Qed.

Lemma hex_of_bytes_length (bs : list Byte.byte) :
  length (hex_of_bytes bs) = (2 * length bs)%nat.
Proof.
  induction bs as [|b bs IH]; [done|].
  rewrite hex_of_bytes_cons, length_app, IH. cbn. lia.
Qed.

Lemma hex_of_bytes_chars (bs : list Byte.byte) :
  Forall (fun c => is_hex_char c = true) (hex_of_bytes bs).
Proof.
  induction bs as [|b bs IH]; [constructor|].
  rewrite hex_of_bytes_cons. apply Forall_app. split; [|exact IH].
  pose proof (byte_to_N_bound b). unfold hex_of_byte. cbv zeta.
  repeat constructor; apply hex_digit_is_hex_char.
  - apply N.Div0.div_lt_upper_bound. lia.
  - apply N.mod_lt. lia.
Qed.

Lemma hex_of_bytes_inj (bs bs' : list Byte.byte) :
  hex_of_bytes bs = hex_of_bytes bs' -> bs = bs'.
Proof.
  revert bs'. induction bs as [|b bs IH]; intros [|b' bs'] E; try done.
  rewrite !hex_of_bytes_cons in E.
  change (hex_of_byte b ++ hex_of_bytes bs)
    with (hex_digit (Byte.to_N b / 16) :: hex_digit (Byte.to_N b mod 16)
            :: hex_of_bytes bs) in E.
  change (hex_of_byte b' ++ hex_of_bytes bs')
    with (hex_digit (Byte.to_N b' / 16) :: hex_digit (Byte.to_N b' mod 16)
            :: hex_of_bytes bs') in E.
  injection E as E1 E2 E3.
  f_equal; [|by apply IH].
  apply hex_of_byte_inj. unfold hex_of_byte. cbv zeta. by rewrite E1, E2.
Qed.

(** X5. The challenge the client builds from its random bytes is their
    hexadecimal form, as [Buffer.toString('hex')] gives it: sixty-four
    characters for thirty-two bytes. *)
Theorem X5_client_challenge (bytes : list Byte.byte) :
  BotClient.challenge_of bytes = hex_of_bytes bytes
  /\ length (BotClient.challenge_of bytes) = (2 * length bytes)%nat.
Proof.
  assert (E : BotClient.challenge_of bytes = hex_of_bytes bytes).
  { unfold BotClient.challenge_of, hex_of_bytes. f_equal.
    apply map_ext. intros b. destruct b; vm_compute; reflexivity. }
  split; [exact E|]. rewrite E. apply hex_of_bytes_length.
Qed.

(** ** The relay, further *)

Section RelayFurther.
Context `{Host} `{Config}.

(** *** Registration *)

(** What a successful registration was made of. *)
Lemma on_register_inv (body : raw) (now : Z) (idBytes keyBytes : list Byte.byte)
    (st st' : state) (id key : jsstring) :
  on_register body now idBytes keyBytes st = (Registered id key, st') ->
  exists data trimmed,
    JSON_parse body = Some data
    /\ requested_id data = Some trimmed
    /\ id = (if bool_decide (trimmed = [])
             then lit "agent-" ++ hex_of_bytes idBytes else trimmed)
    /\ key = hex_of_bytes keyBytes
    /\ st' = set_agents
               (<[id := {| accessKey := key; created := now;
                           gameWs := None; agentWs := None |}]> (agents st)) st.
Proof.
  unfold on_register. intros E.
  destruct (JSON_parse body) as [data|]; [|discriminate].
  exists data.
  assert (Hgo :
    match requested_id data with
    | Some trimmed =>
        let agentId :=
          if bool_decide (trimmed = [])
          then lit "agent-" ++ hex_of_bytes idBytes else trimmed in
        let accessKey := hex_of_bytes keyBytes in
        (Registered agentId accessKey,
         set_agents
           (<[agentId := {| accessKey := accessKey; created := now;
                            gameWs := None; agentWs := None |}]> (agents st)) st)
    | None => (BadRequest, st)
    end = (Registered id key, st')).
  { destruct data; try exact E. discriminate. }
  destruct (requested_id data) as [trimmed|]; [|discriminate].
  exists trimmed. cbv zeta in Hgo. injection Hgo as <- <- <-. by repeat split.
Qed.

Lemma requested_id_trimmed (data : json number) (trimmed : jsstring) :
  requested_id data = Some trimmed -> trim trimmed = trimmed.
Proof.
  unfold requested_id. intros E.
  destruct (if truthy (get_prop data (lit "agentId"))
            then get_prop data (lit "agentId") else Some (JStr []))
    as [[| | |s| |]|]; try discriminate.
  injection E as <-. apply trim_idem.
Qed.

Lemma on_register_outcome (body : raw) (now : Z)
    (idBytes keyBytes : list Byte.byte) (st : state) :
  (on_register body now idBytes keyBytes st = (BadRequest, st))
  \/ exists id key, (on_register body now idBytes keyBytes st).1 = Registered id key.
Proof.
  unfold on_register. destruct (JSON_parse body) as [data|]; [|by left].
  destruct (requested_id data) as [trimmed|] eqn:E.
  - destruct data; [by left|right; eauto..].
  - left. by destruct data.
Qed.

(** X6. A registration that succeeds stores, under an identity that is
    not empty, a session with the returned key and no sockets; the
    identity is the generated ["agent-"] name or a string without white
    space at its ends; nothing else is touched: not the other sessions,
    not a connection, not a socket, not a counter.  A registration that
    fails changes nothing at all. *)
Theorem X6_registration (body : raw) (now : Z) (idBytes keyBytes : list Byte.byte)
    (st : state) :
  (forall id key,
      (on_register body now idBytes keyBytes st).1 = Registered id key ->
      let st' := (on_register body now idBytes keyBytes st).2 in
      id ≠ []
      /\ (id = lit "agent-" ++ hex_of_bytes idBytes \/ trim id = id)
      /\ agents st' !! id
         = Some {| accessKey := key; created := now;
                   gameWs := None; agentWs := None |}
      /\ (forall id', id' ≠ id -> agents st' !! id' = agents st !! id')
      /\ conns st' = conns st /\ socks st' = socks st
      /\ totalConnections st' = totalConnections st
      /\ lastRateLimitReset st' = lastRateLimitReset st)
  /\ ((on_register body now idBytes keyBytes st).1 = BadRequest ->
      (on_register body now idBytes keyBytes st).2 = st).
Proof.
  split.
  - intros id key E st'. subst st'.
    destruct (on_register body now idBytes keyBytes st) as [o s1] eqn:Er.
    simpl in E. subst o.
    apply on_register_inv in Er as (data & trimmed & _ & Ereq & Eid & Ekey & ->).
    simpl. split; [|split; [|split; [|split]]]; try done.
    + rewrite Eid. case_bool_decide; [apply hex_of_bytes_lit_nonempty|done].
    + rewrite Eid. case_bool_decide; [by left|right].
      by apply (requested_id_trimmed data).
    + apply lookup_insert_eq.
    + intros id' Hne. by rewrite lookup_insert_ne.
  - intros E. destruct (on_register_outcome body now idBytes keyBytes st)
      as [->|(id & key & E')]; [done|]. rewrite E in E'. discriminate.
Qed.

(** X7. The secret of a registration is the hexadecimal form of its key
    bytes: two characters per byte, digits and [a] to [f] only, and
    registrations with different key bytes give different secrets. *)
Theorem X7_minted_secret (body : raw) (now : Z) (idBytes keyBytes : list Byte.byte)
    (st : state) (id key : jsstring) :
  (on_register body now idBytes keyBytes st).1 = Registered id key ->
  key = hex_of_bytes keyBytes
  /\ length key = (2 * length keyBytes)%nat
  /\ Forall (fun c => is_hex_char c = true) key
  /\ (forall body' now' idBytes' keyBytes' st' id' key',
         (on_register body' now' idBytes' keyBytes' st').1 = Registered id' key' ->
         keyBytes' ≠ keyBytes -> key' ≠ key).
Proof.
  intros E.
  assert (Hkey : forall b n ib kb s i k,
             (on_register b n ib kb s).1 = Registered i k -> k = hex_of_bytes kb).
  { intros b n ib kb s i k Ek.
    destruct (on_register b n ib kb s) as [o s1] eqn:Er. simpl in Ek. subst o.
    by apply on_register_inv in Er as (_ & _ & _ & _ & _ & -> & _). }
  rewrite (Hkey _ _ _ _ _ _ _ E). split; [done|]. split; [|split].
  - apply hex_of_bytes_length.
  - apply hex_of_bytes_chars.
  - intros body' now' idBytes' keyBytes' st' id' key' E' Hne Heq.
    rewrite (Hkey _ _ _ _ _ _ _ E') in Heq. by apply hex_of_bytes_inj in Heq.
Qed.

(** *** Closing a socket *)

Lemma closeSafe_not_open (w : sock) (code : Z) (ss : gmap sock socket) :
  is_open ss w = false -> closeSafe (Some w) code ss = ss.
Proof. intros E. unfold closeSafe. by rewrite E. Qed.

Lemma closeSafe_lookup_ne (w w' : sock) (code : Z) (ss : gmap sock socket) :
  w ≠ w' -> closeSafe (Some w) code ss !! w' = ss !! w'.
Proof.
  intros Hne. unfold closeSafe. destruct (is_open ss w); [|done].
  unfold ws_close. destruct (ss !! w); [|done]. by rewrite lookup_insert_ne.
Qed.

Lemma closeSafe_closes (w : sock) (code : Z) (ss : gmap sock socket) :
  is_open (closeSafe (Some w) code ss) w = false.
Proof.
  destruct (is_open ss w) eqn:E.
  - apply is_open_true in E as (s & Es & Ho).
    destruct (closeSafe_open_any w code ss s Es Ho) as [cc ->].
    unfold is_open. rewrite lookup_insert_eq. by apply bool_decide_eq_false.
  - by rewrite closeSafe_not_open.
Qed.

(** X8. [closeSafe] closes an open socket with the given code and does
    nothing else: a missing reference, an unknown socket and a socket that
    is not open are left as they are, no other socket is touched, and a
    second call on the same socket changes nothing.  The code goes out if
    the library accepts it, as it does the three codes the server uses;
    for any other code what [ws.close] throws is swallowed, the socket is
    left closing and no code has gone out. *)
Theorem X8_closeSafe (code : Z) (ss : gmap sock socket) :
  closeSafe None code ss = ss
  /\ (forall w, is_open ss w = false -> closeSafe (Some w) code ss = ss)
  /\ (forall w s, ss !! w = Some s -> readyState s = OPEN ->
                  isValidStatusCode code = true ->
                  closeSafe (Some w) code ss !! w
                  = Some {| readyState := CLOSING; closeCode := Some code;
                            sent := sent s; pings := pings s |})
  /\ (forall w s, ss !! w = Some s -> readyState s = OPEN ->
                  isValidStatusCode code = false ->
                  closeSafe (Some w) code ss !! w
                  = Some {| readyState := CLOSING; closeCode := closeCode s;
                            sent := sent s; pings := pings s |})
  /\ (forall w w', w ≠ w' -> closeSafe (Some w) code ss !! w' = ss !! w')
  /\ (forall w code', closeSafe (Some w) code' (closeSafe (Some w) code ss)
                      = closeSafe (Some w) code ss)
  /\ (code = 1000 \/ code = 1013 \/ code = 4000 -> isValidStatusCode code = true).
Proof.
  split; [done|]. split; [|split; [|split; [|split; [|split]]]].
  - intros w. apply closeSafe_not_open.
  - intros w s Es Ho Hv. rewrite (closeSafe_open w code ss s Hv Es Ho).
    apply lookup_insert_eq.
  - intros w s Es Ho Hv. rewrite (closeSafe_open_invalid w code ss s Hv Es Ho).
    apply lookup_insert_eq.
  - intros w w'. apply closeSafe_lookup_ne.
  - intros w code'. apply closeSafe_not_open, closeSafe_closes.
  - by intros [->|[->| ->]].
Qed.

(** *** Sockets only move forward *)

Lemma later_socket_refl (s : socket) : later_socket s s.
Proof. by repeat split. Qed.

Lemma later_socket_trans (s1 s2 s3 : socket) :
  later_socket s1 s2 -> later_socket s2 s3 -> later_socket s1 s3.
Proof.
  intros (Hp1 & Hn1 & Hr1 & Hc1) (Hp2 & Hn2 & Hr2 & Hc2).
  split; [by etrans|]. split; [lia|]. split; [lia|].
  intros Hno. rewrite Hc2, Hc1; [done|done|lia].
Qed.

Lemma sockets_grow_refl (ss : gmap sock socket) : sockets_grow ss ss.
Proof. intros w s Es. exists s. split; [done|apply later_socket_refl]. Qed.

Lemma sockets_grow_trans (ss1 ss2 ss3 : gmap sock socket) :
  sockets_grow ss1 ss2 -> sockets_grow ss2 ss3 -> sockets_grow ss1 ss3.
Proof.
  intros H12 H23 w s Es.
  destruct (H12 w s Es) as (s2 & E2 & L2).
  destruct (H23 w s2 E2) as (s3 & E3 & L3).
  exists s3. split; [done|]. by eapply later_socket_trans.
Qed.

(** Replacing one socket by a later stage of itself. *)
Lemma sockets_grow_insert (ss : gmap sock socket) (w : sock) (s s' : socket) :
  ss !! w = Some s -> later_socket s s' -> sockets_grow ss (<[w := s']> ss).
Proof.
  intros Es L w0 s0 E0. destruct (decide (w = w0)) as [<-|Hne].
  - rewrite lookup_insert_eq. exists s'. split; [done|]. congruence.
  - rewrite lookup_insert_ne by done. exists s0. split; [done|].
    apply later_socket_refl.
Qed.

Lemma sockets_grow_send (ws : sock) (p : raw) (ss : gmap sock socket) :
  sockets_grow ss (ws_send ws p ss).
Proof.
  unfold ws_send. destruct (ss !! ws) as [s|] eqn:Es; [|apply sockets_grow_refl].
  apply (sockets_grow_insert ss ws s); [done|].
  split; [by apply prefix_app_r|]. by repeat split.
Qed.

Lemma sockets_grow_ping (ws : sock) (ss : gmap sock socket) :
  sockets_grow ss (ws_ping ws ss).
Proof.
  unfold ws_ping. destruct (ss !! ws) as [s|] eqn:Es; [|apply sockets_grow_refl].
  apply (sockets_grow_insert ss ws s); [done|].
  split; [done|]. split; [simpl; lia|]. by split.
Qed.

Lemma sockets_grow_closed (ws : sock) (ss : gmap sock socket) :
  sockets_grow ss (ws_closed ws ss).
Proof.
  unfold ws_closed. destruct (ss !! ws) as [s|] eqn:Es; [|apply sockets_grow_refl].
  apply (sockets_grow_insert ss ws s); [done|].
  split; [done|]. split; [done|]. split; [|done].
  destruct (readyState s); simpl; lia.
Qed.

Lemma sockets_grow_closeSafe (old : option sock) (code : Z) (ss : gmap sock socket) :
  sockets_grow ss (closeSafe old code ss).
Proof.
  destruct old as [w|]; [|apply sockets_grow_refl].
  destruct (is_open ss w) eqn:E; [|rewrite closeSafe_not_open by done;
                                   apply sockets_grow_refl].
  apply is_open_true in E as (s & Es & Ho).
  destruct (closeSafe_open_any w code ss s Es Ho) as [cc ->].
  apply (sockets_grow_insert ss w s); [done|].
  split; [done|]. split; [done|]. split; [rewrite Ho; simpl; lia|].
  rewrite Ho. simpl. lia.
Qed.

Lemma sockets_grow_evict (old : option sock) (ws : sock) (ss : gmap sock socket) :
  sockets_grow ss (evict old ws ss).
Proof.
  unfold evict. destruct old as [w|]; [|apply sockets_grow_refl].
  case_bool_decide; [apply sockets_grow_closeSafe|apply sockets_grow_refl].
Qed.

Lemma on_auth_sockets_grow (ws : sock) (c : conn) (data : json number)
    (uuid : jsstring) (st : state) :
  sockets_grow (socks st) (socks (on_auth ws c data uuid st).2).
Proof.
  destruct (on_auth_cases ws c data uuid st)
    as [->|[(id & agent & Eid & Ea & Hv)|(-> & _)]].
  - apply sockets_grow_send.
  - rewrite (on_auth_success ws c data uuid st id agent Eid Ea Hv). simpl.
    eapply sockets_grow_trans; [apply sockets_grow_evict|apply sockets_grow_send].
  - apply sockets_grow_refl.
Qed.

Lemma route_sockets_grow (c : conn) (data : json number) (st : state) :
  sockets_grow (socks st) (socks (route c data st).2).
Proof.
  unfold route.
  destruct (agentId c) as [[|u id]|]; try apply sockets_grow_refl.
  destruct (agents st !! (u :: id)) as [agent|]; [|apply sockets_grow_refl].
  assert (Hd : forall peer payload,
             sockets_grow (socks st) (socks (deliver peer payload st).2)).
  { intros peer payload.
    destruct (deliver_cases peer payload st) as [(w & _ & _ & ->)|[_ ->]].
    - apply sockets_grow_send.
    - apply sockets_grow_refl. }
  repeat match goal with
         | |- context [if ?b then _ else _] => destruct b
         end; try apply Hd; apply sockets_grow_refl.
Qed.

Lemma on_message_sockets_grow (ws : sock) (raw_ : raw) (now : Z)
    (uuid : jsstring) (st : state) :
  sockets_grow (socks st) (socks (on_message ws raw_ now uuid st).2).
Proof.
  destruct (conns st !! ws) as [c|] eqn:Hc.
  2:{ unfold on_message. rewrite Hc. apply sockets_grow_refl. }
  destruct (over_limit (role c) (window_reset now st c).2) eqn:Hover.
  { rewrite (on_message_dropped ws raw_ now uuid st c Hc Hover).
    apply sockets_grow_refl. }
  rewrite (on_message_passed ws raw_ now uuid st c Hc Hover).
  destruct (JSON_parse raw_) as [data|]; [|apply sockets_grow_refl].
  destruct data; try apply sockets_grow_refl;
    match goal with
    | |- context [if ?b then _ else _] => destruct b
    end;
    (apply (on_auth_sockets_grow ws (counted ws now st c).1 _ uuid
              (counted ws now st c).2)
     || apply (route_sockets_grow (counted ws now st c).1 _ (counted ws now st c).2)).
Qed.

(** X9. Across every event a socket only moves forward: what was sent
    to it stays sent and only grows at the end, its pings do not
    decrease, it never goes back to an earlier state (a socket that is
    closing or closed is never open again), and the close code it was
    given is never replaced. *)
Theorem X9_sockets_only_move_forward (ev : event) (st : state) :
  enabled ev st = true ->
  sockets_grow (socks st) (socks (handle ev st).2).
Proof.
  intros Hen. destruct ev; simpl.
  - destruct (on_register_outcome body now idBytes keyBytes st)
      as [->|(id & key & E)]; [apply sockets_grow_refl|].
    destruct (on_register body now idBytes keyBytes st) as [o s1] eqn:Er.
    simpl in E. subst o.
    apply on_register_inv in Er as (_ & _ & _ & _ & _ & _ & ->).
    apply sockets_grow_refl.
  - simpl in Hen. destruct (socks st !! ws) eqn:Efresh; [discriminate|].
    assert (Hins : sockets_grow (socks st) (<[ws := accepted_socket]> (socks st))).
    { intros w s Es. exists s. split; [|apply later_socket_refl].
      rewrite lookup_insert_ne; [done|]. intros ->. congruence. }
    unfold on_connection. simpl.
    destruct (totalConnections st >=? MAX_CONNECTIONS); simpl; [|done].
    eapply sockets_grow_trans; [exact Hins|apply sockets_grow_closeSafe].
  - apply on_message_sockets_grow.
  - unfold on_pong. destruct (conns st !! ws); apply sockets_grow_refl.
  - unfold on_tick. destruct (conns st !! ws) as [c|]; [|apply sockets_grow_refl].
    destruct (heartbeat c); [|apply sockets_grow_refl].
    destruct (now - lastPing c >? HEARTBEAT_MS); simpl.
    + apply sockets_grow_closeSafe.
    + destruct (is_open (socks st) ws); [apply sockets_grow_ping
                                        |apply sockets_grow_refl].
  - unfold on_close. simpl.
    destruct (conns st !! ws); simpl; apply sockets_grow_closed.
  - unfold on_error. destruct (conns st !! ws); [apply sockets_grow_refl|].
    destruct (before_close _ _); apply sockets_grow_refl.
Qed.

(** *** One socket at a time *)

Lemma on_message_conns_other (ws w : sock) (raw_ : raw) (now : Z)
    (uuid : jsstring) (st : state) :
  w ≠ ws -> conns (on_message ws raw_ now uuid st).2 !! w = conns st !! w.
Proof.
  intros Hne. destruct (conns st !! ws) as [c|] eqn:Hc.
  2:{ unfold on_message. by rewrite Hc. }
  destruct (over_limit (role c) (window_reset now st c).2) eqn:Hover.
  { rewrite (on_message_dropped ws raw_ now uuid st c Hc Hover). simpl.
    by rewrite lookup_insert_ne. }
  rewrite (on_message_passed ws raw_ now uuid st c Hc Hover).
  assert (Hc1 : conns (counted ws now st c).2 !! w = conns st !! w)
    by (simpl; by rewrite lookup_insert_ne).
  assert (Ha : forall d,
             conns (on_auth ws (counted ws now st c).1 d uuid
                      (counted ws now st c).2).2 !! w = conns st !! w).
  { intros d.
    destruct (on_auth_cases ws (counted ws now st c).1 d uuid (counted ws now st c).2)
      as [->|[(id & agent & Eid & Ea & Hv)|(-> & _)]]; [done| |done].
    rewrite (on_auth_success _ _ _ _ _ id agent Eid Ea Hv). simpl.
    by rewrite !lookup_insert_ne. }
  assert (Hr : forall d,
             conns (route (counted ws now st c).1 d (counted ws now st c).2).2 !! w
             = conns st !! w).
  { intros d. by destruct (route_agents (counted ws now st c).1 d
                             (counted ws now st c).2) as (_ & -> & _). }
  destruct (JSON_parse raw_) as [data|]; [|done].
  destruct data; try done;
    match goal with
    | |- context [if ?b then _ else _] => destruct b
    end; auto.
Qed.

(** X10. An event changes the closure of no socket but its own: role,
    identity, counter, last acknowledgement and timer of every other
    connection are as before, and a registration touches no closure at
    all. *)
Theorem X10_closures_are_isolated (ev : event) (st : state) (w : sock) :
  event_sock ev ≠ Some w ->
  conns (handle ev st).2 !! w = conns st !! w.
Proof.
  intros Hne. destruct ev; simpl in *.
  - destruct (on_register_outcome body now idBytes keyBytes st)
      as [->|(id & key & E)]; [done|].
    destruct (on_register body now idBytes keyBytes st) as [o s1] eqn:Er.
    simpl in E. subst o.
    by apply on_register_inv in Er as (_ & _ & _ & _ & _ & _ & ->).
  - unfold on_connection. simpl.
    destruct (totalConnections st >=? MAX_CONNECTIONS); simpl; [done|].
    rewrite lookup_insert_ne; [done|congruence].
  - apply on_message_conns_other. congruence.
  - unfold on_pong. destruct (conns st !! ws); simpl; [|done].
    rewrite lookup_insert_ne; [done|congruence].
  - unfold on_tick. destruct (conns st !! ws) as [c|]; [|done].
    destruct (heartbeat c); [|done].
    destruct (now - lastPing c >? HEARTBEAT_MS); simpl.
    + rewrite lookup_insert_ne; [done|congruence].
    + by destruct (is_open (socks st) ws).
  - unfold on_close. simpl. destruct (conns st !! ws); simpl; [|done].
    rewrite lookup_delete_ne; [done|congruence].
  - unfold on_error. destruct (conns st !! ws); simpl.
    + rewrite lookup_insert_ne; [done|congruence].
    + by destruct (before_close _ _).
Qed.

(** X11. For a socket without a closure (one that was turned away at
    admission, or has closed) no callback runs: its messages, pongs and
    ticks leave the state as it is, and its close only marks the socket
    closed.  An error is different: on a socket that was turned away and
    has not closed yet the event has no listener and is thrown, which ends
    the run; after the close it does nothing. *)
Theorem X11_no_closure_no_callback (ev : event) (st : state) (ws : sock) :
  conns st !! ws = None ->
  event_sock ev = Some ws ->
  (forall now, ev ≠ Connection ws now) ->
  match ev with
  | Close _ => handle ev st = (NoListener, set_socks (ws_closed ws (socks st)) st)
  | Error _ =>
      (before_close (socks st) ws = true ->
       handle ev st = (Uncaught, st) /\ forall rest, run (ev :: rest) st = None)
      /\ (before_close (socks st) ws = false -> handle ev st = (NoListener, st))
      /\ before_close (socks (on_close ws st).2) ws = false
  | _ => handle ev st = (NoListener, st)
  end.
Proof.
  intros Hc Hev Hnot. destruct ev; simpl in *; try discriminate;
    injection Hev as ->.
  - by destruct (Hnot now).
  - unfold on_message. by rewrite Hc.
  - unfold on_pong. by rewrite Hc.
  - unfold on_tick. by rewrite Hc.
  - unfold on_close. simpl. by rewrite Hc.
  - unfold on_error. rewrite Hc. split; [|split].
    + intros Hb. rewrite Hb. split; [done|]. intros rest.
      reflexivity.
    + intros Hb. by rewrite Hb.
    + unfold on_close. simpl. rewrite Hc. simpl.
      unfold before_close, ws_closed. destruct (socks st !! ws) as [s|] eqn:Es.
      * by rewrite lookup_insert_eq.
      * by rewrite Es.
Qed.

(** *** Before authentication *)

Lemma on_message_lastRateLimitReset (ws : sock) (raw_ : raw) (now : Z)
    (uuid : jsstring) (st : state) (c : conn) :
  conns st !! ws = Some c ->
  lastRateLimitReset (on_message ws raw_ now uuid st).2 = (window_reset now st c).1.
Proof.
  intros Hc.
  destruct (over_limit (role c) (window_reset now st c).2) eqn:Hover.
  { by rewrite (on_message_dropped ws raw_ now uuid st c Hc Hover). }
  rewrite (on_message_passed ws raw_ now uuid st c Hc Hover).
  assert (Ha : forall d,
             lastRateLimitReset
               (on_auth ws (counted ws now st c).1 d uuid (counted ws now st c).2).2
             = (window_reset now st c).1).
  { intros d. by rewrite (proj2 (on_auth_total _ _ _ _ _)). }
  assert (Hr : forall d,
             lastRateLimitReset
               (route (counted ws now st c).1 d (counted ws now st c).2).2
             = (window_reset now st c).1).
  { intros d. by destruct (route_agents (counted ws now st c).1 d
                             (counted ws now st c).2) as (_ & _ & _ & ->). }
  destruct (JSON_parse raw_) as [data|]; [|done].
  destruct data; try done;
    match goal with
    | |- context [if ?b then _ else _] => destruct b
    end; auto.
Qed.

Lemma route_unbound (c : conn) (data : json number) (st : state) :
  agentId c = None -> route c data st = (NotBound, st).
Proof. intros E. unfold route. by rewrite E. Qed.

(** X12. In a reachable state a connection that has not authenticated
    cannot make the relay forward anything: whatever it sends that is not
    an [auth] message is counted and dropped on the floor, no socket is
    sent anything and no session changes. *)
Theorem X12_unauthenticated_cannot_forward (ws : sock) (raw_ : raw) (now : Z)
    (uuid : jsstring) (st : state) (c : conn) :
  reachable st ->
  conns st !! ws = Some c ->
  role c = None ->
  (forall w, (on_message ws raw_ now uuid st).1 ≠ Forwarded w)
  /\ ((forall data, JSON_parse raw_ = Some data ->
                    strict_eq_str (get_prop data (lit "type")) (lit "auth") = false) ->
      socks (on_message ws raw_ now uuid st).2 = socks st
      /\ agents (on_message ws raw_ now uuid st).2 = agents st
      /\ ((on_message ws raw_ now uuid st).1 = ParseError
          \/ (on_message ws raw_ now uuid st).1 = Uncaught
          \/ (on_message ws raw_ now uuid st).1 = NotBound)).
Proof.
  intros Hreach Hc Hrole.
  assert (Hid : agentId c = None).
  { pose proof (inv_bound st (reachable_consistent st Hreach) ws c Hc) as Hb.
    unfold bound in Hb. by rewrite Hrole in Hb. }
  assert (Hover : over_limit (role c) (window_reset now st c).2 = false)
    by (rewrite Hrole; apply over_limit_unauthenticated).
  rewrite (on_message_passed ws raw_ now uuid st c Hc Hover).
  assert (Hr : forall d, route (counted ws now st c).1 d (counted ws now st c).2
                         = (NotBound, (counted ws now st c).2))
    by (intros d; by apply route_unbound).
  assert (Ha : forall d w,
             (on_auth ws (counted ws now st c).1 d uuid (counted ws now st c).2).1
             ≠ Forwarded w).
  { intros d w. destruct (on_auth_outcome ws (counted ws now st c).1 d uuid
                            (counted ws now st c).2) as [E|[(i & r & E)|(E & _)]];
      rewrite E; discriminate. }
  split.
  - intros w. destruct (JSON_parse raw_) as [data|]; [|discriminate].
    destruct data; try discriminate;
      (match goal with
       | |- context [if ?b then _ else _] => destruct b
       end; [apply Ha | rewrite Hr; discriminate]).
  - intros Hna. destruct (JSON_parse raw_) as [data|]; [|auto].
    specialize (Hna data eq_refl).
    destruct data; try (rewrite Hna, Hr); simpl; auto.
Qed.

(** X13. A frame whose text is JSON [null] makes the callback throw: once
    it has passed the rate limiter (as every frame of an unauthenticated
    connection does) the message is counted, [data.type] raises a
    [TypeError] that nothing catches, and the event loop of the model
    stops there. *)
Theorem X13_null_frame_throws (ws : sock) (raw_ : raw) (now : Z)
    (uuid : jsstring) (st : state) (c : conn) :
  conns st !! ws = Some c ->
  over_limit (role c) (window_reset now st c).2 = false ->
  JSON_parse raw_ = Some JNull ->
  on_message ws raw_ now uuid st = (Uncaught, (counted ws now st c).2)
  /\ (forall rest, run (Message ws raw_ now uuid :: rest) st = None).
Proof.
  intros Hc Hover Hp.
  assert (E : on_message ws raw_ now uuid st = (Uncaught, (counted ws now st c).2))
    by (by rewrite (on_message_passed ws raw_ now uuid st c Hc Hover), Hp).
  split; [exact E|]. intros rest. cbn [run enabled handle]. by rewrite E.
Qed.

(** *** The rate window *)

Lemma window_reset_crossed (now : Z) (st : state) (c : conn) :
  1000 < now - lastRateLimitReset st -> window_reset now st c = (now, 0).
Proof.
  intros Hx. unfold window_reset.
  by destruct (Z.gtb_spec (now - lastRateLimitReset st) 1000); [|lia].
Qed.

Lemma window_reset_within (now : Z) (st : state) (c : conn) :
  now - lastRateLimitReset st <= 1000 ->
  window_reset now st c = (lastRateLimitReset st, rateCount c).
Proof.
  intros Hx. unfold window_reset.
  by destruct (Z.gtb_spec (now - lastRateLimitReset st) 1000); [lia|].
Qed.

(** X14. The window clock is one variable for all connections.  A frame
    that arrives more than a second after the clock passes the limiter
    (for a positive ceiling), restarts its own counter at 1 and sets the
    clock to its arrival time.  The counters of the other connections are
    not restarted: a connection [B] at its ceiling whose next frame comes
    within a second of such a frame of another connection [A] is still
    dropped, although a second has passed since the clock [B] last saw. *)
Theorem X14_shared_window_clock (A B : sock) (rawA rawB : raw) (nowA nowB : Z)
    (uuidA uuidB : jsstring) (st : state) (cA cB : conn) (rA rB : Role) :
  A ≠ B ->
  conns st !! A = Some cA -> role cA = Some rA ->
  conns st !! B = Some cB -> role cB = Some rB ->
  0 < rate_limit (Some rA) -> 0 < rate_limit (Some rB) ->
  rate_limit (Some rB) <= rateCount cB ->
  1000 < nowA - lastRateLimitReset st ->
  1000 < nowB - lastRateLimitReset st ->
  nowB - nowA <= 1000 ->
  let stA := (on_message A rawA nowA uuidA st).2 in
  (on_message A rawA nowA uuidA st).1 ≠ RateDropped
  /\ lastRateLimitReset stA = nowA
  /\ (exists cA', conns stA !! A = Some cA' /\ rateCount cA' = 1)
  /\ conns stA !! B = Some cB
  /\ (on_message B rawB nowB uuidB stA).1 = RateDropped
  /\ (on_message B rawB nowB uuidB st).1 ≠ RateDropped.
Proof.
  intros Hne HcA HrA HcB HrB HlA HlB Hfull HxA HxB Hclose stA.
  assert (Hnot : forall (ws : sock) (raw_ : raw) (now : Z) (uuid : jsstring) c r,
             conns st !! ws = Some c -> role c = Some r ->
             0 < rate_limit (Some r) -> 1000 < now - lastRateLimitReset st ->
             over_limit (role c) (window_reset now st c).2 = false).
  { intros ws _ now _ c r Hc Hr Hl Hx. rewrite (window_reset_crossed now st c Hx), Hr.
    destruct (over_limit _ _) eqn:E; [|done]. apply over_limit_spec in E.
    cbn [snd] in E. lia. }
  assert (Hpass : forall ws raw_ now uuid c r,
             conns st !! ws = Some c -> role c = Some r ->
             0 < rate_limit (Some r) -> 1000 < now - lastRateLimitReset st ->
             (on_message ws raw_ now uuid st).1 ≠ RateDropped).
  { intros ws raw_ now uuid c r Hc Hr Hl Hx.
    rewrite (on_message_passed ws raw_ now uuid st c Hc
               (Hnot ws raw_ now uuid c r Hc Hr Hl Hx)).
    destruct (JSON_parse raw_) as [data|]; [|discriminate].
    destruct data; try discriminate;
      (match goal with
       | |- context [if ?b then _ else _] => destruct b
       end;
       [apply on_auth_not_dropped | apply route_outcome]). }
  assert (EB : conns stA !! B = Some cB).
  { subst stA. rewrite on_message_conns_other by done. exact HcB. }
  assert (Eclock : lastRateLimitReset stA = nowA).
  { subst stA. rewrite (on_message_lastRateLimitReset A rawA nowA uuidA st cA HcA).
    by rewrite window_reset_crossed. }
  split; [by apply (Hpass A rawA nowA uuidA cA rA)|].
  split; [exact Eclock|]. split; [|split; [exact EB|split]].
  - subst stA.
    destruct (on_message_counts A rawA nowA uuidA st cA HcA
                (Hnot A rawA nowA uuidA cA rA HcA HrA HlA HxA)) as (c' & E & En).
    exists c'. split; [exact E|]. rewrite En. by rewrite window_reset_crossed.
  - rewrite (on_message_dropped B rawB nowB uuidB stA cB EB); [done|].
    rewrite window_reset_within by lia. rewrite HrB. by apply over_limit_spec.
  - by apply (Hpass B rawB nowB uuidB cB rB).
Qed.

(** *** A peer that answers *)

Lemma run_heartbeat_answered (ws : sock) (evs : list hb_event) :
  forall (st : state) (c : conn) (s : socket),
    conns st !! ws = Some c -> is_Some (heartbeat c) ->
    socks st !! ws = Some s -> readyState s = OPEN ->
    answered (lastPing c) evs ->
    socks (run_heartbeat ws evs st) !! ws
    = Some {| readyState := OPEN; closeCode := closeCode s; sent := sent s;
              pings := (pings s + ticks_in evs)%nat |}
    /\ exists c', conns (run_heartbeat ws evs st) !! ws = Some c'
                  /\ heartbeat c' = heartbeat c
                  /\ role c' = role c /\ agentId c' = agentId c
                  /\ rateCount c' = rateCount c.
Proof.
  induction evs as [|[t|t] evs IH]; intros st c s Hc Hh Hs Ho Hans.
  - cbn. rewrite Nat.add_0_r, Hs, <- Ho. split; [by destruct s|eauto 10].
  - destruct Hans as [Hin Hans]. unfold run_heartbeat. cbn [fold_left].
    rewrite (on_tick_alive ws t st c s Hc Hh Hs Ho Hin). cbn [snd].
    set (s1 := {| readyState := readyState s; closeCode := closeCode s;
                  sent := sent s; pings := S (pings s) |}).
    destruct (IH (set_socks (<[ws := s1]> (socks st)) st) c s1)
      as (Es & c' & Ec & Hrest); try done.
    { simpl. apply lookup_insert_eq. }
    fold (run_heartbeat ws evs (set_socks (<[ws := s1]> (socks st)) st)).
    rewrite Es. split; [|eauto]. cbn [ticks_in]. subst s1. simpl.
    do 2 f_equal. lia.
  - cbn [answered] in Hans.
    assert (Ep : on_pong ws t st
                 = (Ponged, set_conns (<[ws := set_lastPing t c]> (conns st)) st))
      by (unfold on_pong; by rewrite Hc).
    unfold run_heartbeat. cbn [fold_left]. rewrite Ep. cbn [snd].
    destruct (IH (set_conns (<[ws := set_lastPing t c]> (conns st)) st)
                (set_lastPing t c) s)
      as (Es & c' & Ec & Hrest); try done.
    { simpl. apply lookup_insert_eq. }
    fold (run_heartbeat ws evs
            (set_conns (<[ws := set_lastPing t c]> (conns st)) st)).
    rewrite Es. split; [done|]. exists c'. by split.
Qed.

(** X15. A connection whose peer answers is never closed by the
    heartbeat: if every tick comes at most [HEARTBEAT_MS] after the latest
    pong before it (or after the last acknowledgement on record), then
    after any number of ticks and pongs the socket is still open, it has
    been pinged once per tick, and the timer is still running. *)
Theorem X15_answering_peer_stays_open (ws : sock) (evs : list hb_event)
    (st : state) (c : conn) (s : socket) :
  conns st !! ws = Some c -> is_Some (heartbeat c) ->
  socks st !! ws = Some s -> readyState s = OPEN ->
  answered (lastPing c) evs ->
  socks (run_heartbeat ws evs st) !! ws
  = Some {| readyState := OPEN; closeCode := closeCode s; sent := sent s;
            pings := (pings s + ticks_in evs)%nat |}
  /\ exists c', conns (run_heartbeat ws evs st) !! ws = Some c'
                /\ heartbeat c' = heartbeat c
                /\ role c' = role c /\ agentId c' = agentId c
                /\ rateCount c' = rateCount c.
Proof. apply run_heartbeat_answered. Qed.

(** *** Open sockets and the statistics *)

Lemma open_after_send (ws w : sock) (p : raw) (ss : gmap sock socket) :
  is_open (ws_send ws p ss) w = is_open ss w.
Proof.
  unfold is_open, ws_send. destruct (ss !! ws) as [s|] eqn:Es; [|done].
  destruct (decide (ws = w)) as [<-|Hne].
  - by rewrite lookup_insert_eq, Es.
  - by rewrite lookup_insert_ne.
Qed.

Lemma open_after_ping (ws w : sock) (ss : gmap sock socket) :
  is_open (ws_ping ws ss) w = is_open ss w.
Proof.
  unfold is_open, ws_ping. destruct (ss !! ws) as [s|] eqn:Es; [|done].
  destruct (decide (ws = w)) as [<-|Hne].
  - by rewrite lookup_insert_eq, Es.
  - by rewrite lookup_insert_ne.
Qed.

Lemma open_after_closeSafe (old : option sock) (code : Z) (w : sock)
    (ss : gmap sock socket) :
  is_open (closeSafe old code ss) w = true -> is_open ss w = true.
Proof.
  destruct old as [o|]; [|done].
  destruct (decide (o = w)) as [->|Hne].
  - by rewrite closeSafe_closes.
  - unfold is_open. by rewrite closeSafe_lookup_ne.
Qed.

Lemma open_after_evict (old : option sock) (ws w : sock) (ss : gmap sock socket) :
  is_open (evict old ws ss) w = true -> is_open ss w = true.
Proof.
  unfold evict. destruct old as [o|]; [|done].
  case_bool_decide; [apply open_after_closeSafe|done].
Qed.

Lemma open_after_closed (ws w : sock) (ss : gmap sock socket) :
  is_open (ws_closed ws ss) w = true -> is_open ss w = true /\ w ≠ ws.
Proof.
  unfold is_open, ws_closed. destruct (ss !! ws) as [s|] eqn:Es.
  - destruct (decide (ws = w)) as [<-|Hne].
    + rewrite lookup_insert_eq. intros E. by apply bool_decide_eq_true in E.
    + rewrite lookup_insert_ne by done. intros E. split; [done|congruence].
  - intros E. split; [done|]. intros ->. by rewrite Es in E.
Qed.

Lemma open_sockets_live_alt (st : state) :
  open_sockets_live st
  <-> forall w, is_open (socks st) w = true -> is_Some (conns st !! w).
Proof.
  unfold open_sockets_live. split.
  - intros Hl w E. apply is_open_true in E as (s & Es & Ho). eauto.
  - intros Hl w s Es Ho. apply Hl, is_open_true. eauto.
Qed.

(** The sockets open after a message were open before it, and the
    closures are still there. *)
Lemma on_message_open_before (ws : sock) (raw_ : raw) (now : Z)
    (uuid : jsstring) (st : state) (w : sock) :
  is_open (socks (on_message ws raw_ now uuid st).2) w = true ->
  is_open (socks st) w = true.
Proof.
  destruct (conns st !! ws) as [c|] eqn:Hc.
  2:{ unfold on_message. by rewrite Hc. }
  destruct (over_limit (role c) (window_reset now st c).2) eqn:Hover.
  { by rewrite (on_message_dropped ws raw_ now uuid st c Hc Hover). }
  rewrite (on_message_passed ws raw_ now uuid st c Hc Hover).
  assert (Ha : forall d,
             is_open (socks (on_auth ws (counted ws now st c).1 d uuid
                               (counted ws now st c).2).2) w = true ->
             is_open (socks st) w = true).
  { intros d.
    destruct (on_auth_cases ws (counted ws now st c).1 d uuid (counted ws now st c).2)
      as [->|[(id & agent & Eid & Ea & Hv)|(-> & _)]].
    - simpl. by rewrite open_after_send.
    - rewrite (on_auth_success _ _ _ _ _ id agent Eid Ea Hv). simpl.
      rewrite open_after_send. apply open_after_evict.
    - done. }
  assert (Hr : forall d,
             is_open (socks (route (counted ws now st c).1 d
                               (counted ws now st c).2).2) w = true ->
             is_open (socks st) w = true).
  { intros d. unfold route.
    destruct (agentId (counted ws now st c).1) as [[|u id]|]; try done.
    destruct (agents (counted ws now st c).2 !! (u :: id)) as [agent|]; [|done].
    assert (Hd : forall peer payload,
               is_open (socks (deliver peer payload (counted ws now st c).2).2) w
               = true -> is_open (socks st) w = true).
    { intros peer payload.
      destruct (deliver_cases peer payload (counted ws now st c).2)
        as [(p & _ & _ & ->)|[_ ->]]; [|done].
      simpl. by rewrite open_after_send. }
    repeat match goal with
           | |- context [if ?b then _ else _] => destruct b
           end; try apply Hd; done. }
  destruct (JSON_parse raw_) as [data|]; [|by intros E].
  destruct data; try (by intros E);
    match goal with
    | |- context [if ?b then _ else _] => destruct b
    end; (apply Ha || apply Hr).
Qed.

Lemma on_message_conns_is_Some (ws : sock) (raw_ : raw) (now : Z)
    (uuid : jsstring) (st : state) (w : sock) :
  is_Some (conns st !! w) -> is_Some (conns (on_message ws raw_ now uuid st).2 !! w).
Proof.
  intros Hw. destruct (decide (w = ws)) as [->|Hne].
  2:{ by rewrite on_message_conns_other. }
  destruct Hw as [c Hc].
  destruct (over_limit (role c) (window_reset now st c).2) eqn:Hover.
  - rewrite (on_message_dropped ws raw_ now uuid st c Hc Hover). simpl.
    rewrite lookup_insert_eq. eauto.
  - destruct (on_message_counts ws raw_ now uuid st c Hc Hover) as (c' & E & _).
    eauto.
Qed.

Lemma handle_open_sockets_live (ev : event) (st : state) :
  open_sockets_live st -> open_sockets_live (handle ev st).2.
Proof.
  rewrite !open_sockets_live_alt. intros Hl. destruct ev; simpl.
  - destruct (on_register_outcome body now idBytes keyBytes st)
      as [->|(id & key & E)]; [done|].
    destruct (on_register body now idBytes keyBytes st) as [o s1] eqn:Er.
    simpl in E. subst o.
    by apply on_register_inv in Er as (_ & _ & _ & _ & _ & _ & ->).
  - unfold on_connection. simpl.
    destruct (totalConnections st >=? MAX_CONNECTIONS); simpl.
    + intros w E. apply open_after_closeSafe in E as E'.
      destruct (decide (ws = w)) as [<-|Hne].
      * by rewrite closeSafe_closes in E.
      * apply Hl. unfold is_open in *. by rewrite lookup_insert_ne in E'.
    + intros w E. destruct (decide (ws = w)) as [<-|Hne].
      * rewrite lookup_insert_eq. eauto.
      * rewrite lookup_insert_ne by done. apply Hl.
        unfold is_open in *. by rewrite lookup_insert_ne in E.
  - intros w E. apply on_message_conns_is_Some, Hl.
    by apply (on_message_open_before ws raw_ now uuid).
  - unfold on_pong. destruct (conns st !! ws) as [c|] eqn:Hc; [|done]. simpl.
    intros w E. rewrite lookup_insert_is_Some.
    destruct (decide (ws = w)); auto.
  - unfold on_tick. destruct (conns st !! ws) as [c|] eqn:Hc; [|done].
    destruct (heartbeat c); [|done].
    destruct (now - lastPing c >? HEARTBEAT_MS); simpl.
    + intros w E. apply open_after_closeSafe in E.
      rewrite lookup_insert_is_Some. destruct (decide (ws = w)); auto.
    + destruct (is_open (socks st) ws) eqn:Eo; [|done]. simpl.
      intros w E. rewrite open_after_ping in E. auto.
  - unfold on_close. simpl. destruct (conns st !! ws) as [c|] eqn:Hc; simpl.
    + intros w E. apply open_after_closed in E as [E Hne].
      rewrite lookup_delete_ne by done. auto.
    + intros w E. apply open_after_closed in E as [E Hne]. auto.
  - unfold on_error.
    destruct (conns st !! ws) as [c|] eqn:Hc; [|by destruct (before_close _ _)].
    simpl. intros w E. rewrite lookup_insert_is_Some.
    destruct (decide (ws = w)); auto.
Qed.

Lemma reachable_open_sockets_live (st : state) :
  reachable st -> open_sockets_live st.
Proof.
  induction 1 as [now|st st' ev o Hr IH Hen Hh Hu].
  - intros w s E. simpl in E. by rewrite lookup_empty in E.
  - replace st' with (handle ev st).2 by (by rewrite Hh).
    by apply handle_open_sockets_live.
Qed.

(** X16. In every reachable state an open socket is an admitted
    connection that has not closed; so each session that [/stats] counts
    as a game or as an agent holds, in that field, a connection that is
    still there.  The two counts are at most the number of registered
    identities, and the reported number of connections is the number of
    closures. *)
Theorem X16_stats_count_live_connections (st : state) :
  reachable st ->
  open_sockets_live st
  /\ (forall id a r,
         agents st !! id = Some a ->
         is_open_ref (socks st) (role_socket r a) = true ->
         exists w, role_socket r a = Some w /\ is_Some (conns st !! w))
  /\ (stat_games (on_stats st) <= stat_registeredAgents (on_stats st))%nat
  /\ (stat_agents (on_stats st) <= stat_registeredAgents (on_stats st))%nat
  /\ stat_connections (on_stats st) = Z.of_nat (size (conns st)).
Proof.
  intros Hr. pose proof (reachable_open_sockets_live st Hr) as Hl.
  split; [exact Hl|]. split; [|split; [|split]].
  - intros id a r Ha E. destruct (role_socket r a) as [w|]; [|discriminate].
    exists w. split; [done|]. by apply open_sockets_live_alt.
  - apply map_size_filter.
  - apply map_size_filter.
  - apply (inv_total st (reachable_consistent st Hr)).
Qed.

(** *** Detaching on close *)

(** X17. When a socket closes, the close callback takes it out of the
    field of its own role in the session of its identity, leaves the other
    field, the secret and every other session alone, and drops the
    closure. *)
Theorem X17_close_detaches (ws : sock) (st : state) (c : conn)
    (id : jsstring) (r : Role) (a : session) :
  conns st !! ws = Some c ->
  agentId c = Some id -> id ≠ [] -> role c = Some r ->
  agents st !! id = Some a ->
  let st' := (on_close ws st).2 in
  conns st' !! ws = None
  /\ (forall id', id' ≠ id -> agents st' !! id' = agents st !! id')
  /\ exists a',
       agents st' !! id = Some a'
       /\ role_socket r a' ≠ Some ws
       /\ (role_socket r a ≠ Some ws -> a' = a)
       /\ role_socket (peer_role r) a' = role_socket (peer_role r) a
       /\ accessKey a' = accessKey a.
Proof.
  intros Hc Hid Hne Hr Ha st'. subst st'. unfold on_close. simpl.
  rewrite Hc. simpl. split; [apply lookup_delete_eq|].
  unfold detach. rewrite Hid. destruct id as [|u i]; [done|]. rewrite Ha, Hr.
  destruct r; simpl.
  - destruct (decide (gameWs a = Some ws)) as [E|E].
    + rewrite bool_decide_eq_true_2 by done. simpl. split.
      * intros id' Hne'. by rewrite lookup_insert_ne.
      * rewrite lookup_insert_eq. eexists. split; [done|]. by repeat split.
    + rewrite bool_decide_eq_false_2 by done. simpl. split; [done|].
      exists a. by repeat split.
  - destruct (decide (agentWs a = Some ws)) as [E|E].
    + rewrite bool_decide_eq_true_2 by done. simpl. split.
      * intros id' Hne'. by rewrite lookup_insert_ne.
      * rewrite lookup_insert_eq. eexists. split; [done|]. by repeat split.
    + rewrite bool_decide_eq_false_2 by done. simpl. split; [done|].
      exists a. by repeat split.
Qed.

(** *** Sockets that are not open *)

Lemma evict_lookup_not_open (old : option sock) (ws w : sock)
    (ss : gmap sock socket) :
  is_open ss w = false -> evict old ws ss !! w = ss !! w.
Proof.
  intros E. unfold evict. destruct old as [o|]; [|done].
  case_bool_decide; [|done].
  destruct (decide (o = w)) as [->|Hne].
  - by rewrite closeSafe_not_open.
  - by rewrite closeSafe_lookup_ne.
Qed.

Lemma deliver_lookup_not_open (peer : option sock) (payload : json number)
    (st : state) (w : sock) :
  is_open (socks st) w = false ->
  socks (deliver peer payload st).2 !! w = socks st !! w.
Proof.
  intros E. destruct (deliver_cases peer payload st) as [(p & _ & Ho & ->)|[_ ->]];
    [|done].
  simpl. apply ws_send_lookup_ne. intros ->. congruence.
Qed.

Lemma on_message_lookup_not_open (ws w : sock) (raw_ : raw) (now : Z)
    (uuid : jsstring) (st : state) :
  w ≠ ws -> is_open (socks st) w = false ->
  socks (on_message ws raw_ now uuid st).2 !! w = socks st !! w.
Proof.
  intros Hne E. destruct (conns st !! ws) as [c|] eqn:Hc.
  2:{ unfold on_message. by rewrite Hc. }
  destruct (over_limit (role c) (window_reset now st c).2) eqn:Hover.
  { by rewrite (on_message_dropped ws raw_ now uuid st c Hc Hover). }
  rewrite (on_message_passed ws raw_ now uuid st c Hc Hover).
  assert (Ha : forall d,
             socks (on_auth ws (counted ws now st c).1 d uuid
                      (counted ws now st c).2).2 !! w = socks st !! w).
  { intros d.
    destruct (on_auth_cases ws (counted ws now st c).1 d uuid (counted ws now st c).2)
      as [->|[(id & agent & Eid & Ea & Hv)|(-> & _)]].
    - simpl. by apply ws_send_lookup_ne.
    - rewrite (on_auth_success _ _ _ _ _ id agent Eid Ea Hv). simpl.
      rewrite ws_send_lookup_ne by done. by apply evict_lookup_not_open.
    - done. }
  assert (Hr : forall d,
             socks (route (counted ws now st c).1 d (counted ws now st c).2).2 !! w
             = socks st !! w).
  { intros d. unfold route.
    destruct (agentId (counted ws now st c).1) as [[|u id]|]; try done.
    destruct (agents (counted ws now st c).2 !! (u :: id)) as [agent|]; [|done].
    repeat match goal with
           | |- context [if ?b then _ else _] => destruct b
           end; try done;
      by apply (deliver_lookup_not_open _ _ (counted ws now st c).2). }
  destruct (JSON_parse raw_) as [data|]; [|done].
  destruct data; try done;
    match goal with
    | |- context [if ?b then _ else _] => destruct b
    end; (apply Ha || apply Hr).
Qed.

(** X18. A socket that is not open is never written to by an event of
    another socket: nothing is forwarded to it, it is not pinged, and it is
    not closed again.  So a peer that has gone away receives nothing,
    whatever the sessions still say. *)
Theorem X18_nothing_goes_to_a_socket_that_is_not_open (ev : event) (st : state)
    (w : sock) :
  event_sock ev ≠ Some w ->
  is_open (socks st) w = false ->
  socks (handle ev st).2 !! w = socks st !! w.
Proof.
  intros Hne E. destruct ev; simpl in *.
  - destruct (on_register_outcome body now idBytes keyBytes st)
      as [->|(id & key & E')]; [done|].
    destruct (on_register body now idBytes keyBytes st) as [o s1] eqn:Er.
    simpl in E'. subst o.
    by apply on_register_inv in Er as (_ & _ & _ & _ & _ & _ & ->).
  - assert (ws ≠ w) by congruence. unfold on_connection. simpl.
    destruct (totalConnections st >=? MAX_CONNECTIONS); simpl.
    + rewrite closeSafe_lookup_ne by done. by rewrite lookup_insert_ne.
    + by rewrite lookup_insert_ne.
  - apply on_message_lookup_not_open; [congruence|done].
  - unfold on_pong. by destruct (conns st !! ws).
  - assert (ws ≠ w) by congruence.
    unfold on_tick. destruct (conns st !! ws) as [c|]; [|done].
    destruct (heartbeat c); [|done].
    destruct (now - lastPing c >? HEARTBEAT_MS); simpl.
    + by rewrite closeSafe_lookup_ne.
    + destruct (is_open (socks st) ws); [|done]. simpl.
      unfold ws_ping. destruct (socks st !! ws); [|done].
      by rewrite lookup_insert_ne.
  - assert (ws ≠ w) by congruence.
    assert (Hcl : ws_closed ws (socks st) !! w = socks st !! w).
    { unfold ws_closed. destruct (socks st !! ws); [|done].
      by rewrite lookup_insert_ne. }
    unfold on_close. simpl. by destruct (conns st !! ws).
  - unfold on_error. destruct (conns st !! ws); [done|].
    by destruct (before_close _ _).
Qed.

(** *** After an error *)

(** X20. The error callback clears the heartbeat timer and nothing else:
    the connection is still counted and keeps its role and identity, and
    from then on no tick pings or closes its socket, however late. *)
Theorem X20_error_stops_the_heartbeat (ws : sock) (st : state) (c : conn)
    (ts : list Z) :
  conns st !! ws = Some c ->
  let st' := (on_error ws st).2 in
  conns st' !! ws = Some (set_heartbeat None c)
  /\ totalConnections st' = totalConnections st
  /\ socks st' = socks st /\ agents st' = agents st
  /\ run_ticks ws ts st' = st'.
Proof.
  intros Hc st'. subst st'. unfold on_error. rewrite Hc. simpl.
  assert (E : <[ws := set_heartbeat None c]> (conns st) !! ws
              = Some (set_heartbeat None c)) by apply lookup_insert_eq.
  split; [exact E|]. repeat split.
  by apply (run_ticks_cleared ws ts _ (set_heartbeat None c)).
Qed.

(** *** GET /api/agents *)

(** X21. The list of [/api/agents] holds exactly the registered
    identities, each once, and the count beside it is the length of the
    list. *)
Theorem X21_listed_agents (st : state) :
  (forall id, id ∈ (on_list_agents st).1 <-> is_Some (agents st !! id))
  /\ NoDup (on_list_agents st).1
  /\ (on_list_agents st).2 = length (on_list_agents st).1.
Proof.
  unfold on_list_agents. simpl. split; [|split].
  - intros id. rewrite list_elem_of_fmap. split.
    + intros ([i a] & -> & Hin). apply elem_of_map_to_list in Hin. simpl. eauto.
    + intros [a Ha]. exists (id, a). split; [done|]. by apply elem_of_map_to_list.
  - apply NoDup_fst_map_to_list.
  - by rewrite length_fmap, length_map_to_list.
Qed.

End RelayFurther.

(** ** The client against the server *)

Section ClientServer.
Context `{Host} `{Config}.

Ltac object_lookup :=
  unfold object, get_prop;
  cbn [map list_to_map foldr fst snd uncurry];
  repeat (rewrite lookup_insert_eq
          || rewrite lookup_insert_ne by (vm_compute; discriminate));
  try reflexivity.

(** The client's call of [signChallenge] is on two strings and returns. *)
Lemma auth_message_Some (id key : jsstring) (bytes : list Byte.byte)
    (ts : number) :
  exists digest,
    Bot.signChallenge (Some (JStr (BotClient.challenge_of bytes))) key
    = Some digest
    /\ BotClient.auth_message id key bytes ts
       = Some (object [("type", JStr (lit "auth"));
                       ("role", JStr (lit "agent"));
                       ("agentId", JStr id);
                       ("challenge", JStr (BotClient.challenge_of bytes));
                       ("response", JStr digest);
                       ("timestamp", JNum ts)]%string).
Proof.
  eexists. unfold BotClient.auth_message.
  rewrite bot_signChallenge_eq, signChallenge_string. split; reflexivity.
Qed.

Lemma auth_message_fields (id key : jsstring) (bytes : list Byte.byte)
    (ts : number) (msg : json number) :
  BotClient.auth_message id key bytes ts = Some msg ->
  get_prop msg (lit "type") = Some (JStr (lit "auth"))
  /\ get_prop msg (lit "role") = Some (JStr (lit "agent"))
  /\ get_prop msg (lit "agentId") = Some (JStr id)
  /\ get_prop msg (lit "challenge") = Some (JStr (BotClient.challenge_of bytes))
  /\ exists digest,
       Bot.signChallenge (Some (JStr (BotClient.challenge_of bytes))) key
       = Some digest
       /\ get_prop msg (lit "response") = Some (JStr digest).
Proof.
  destruct (auth_message_Some id key bytes ts) as (digest & Ed & ->).
  intros [= <-].
  split; [object_lookup|]. split; [object_lookup|]. split; [object_lookup|].
  split; [object_lookup|]. exists digest. split; [exact Ed|object_lookup].
Qed.

Lemma client_auth_accepted (ws : sock) (now : Z) (uuid : jsstring)
    (st : state) (c : conn) (id : jsstring) (agent : session)
    (bytes : list Byte.byte) (ts : number) (msg : json number) :
  BotClient.auth_message id (accessKey agent) bytes ts = Some msg ->
  conns st !! ws = Some c ->
  over_limit (role c) (window_reset now st c).2 = false ->
  agents st !! id = Some agent ->
  JSON_parse (JSON_stringify msg) = Some msg ->
  let st' := (on_message ws (JSON_stringify msg) now uuid st).2 in
  (on_message ws (JSON_stringify msg) now uuid st).1 = AuthSuccess id Agent
  /\ (exists c', conns st' !! ws = Some c'
                 /\ role c' = Some Agent /\ agentId c' = Some id)
  /\ (exists a', agents st' !! id = Some a'
                 /\ agentWs a' = Some ws /\ gameWs a' = gameWs agent
                 /\ accessKey a' = accessKey agent).
Proof.
  intros Hmsg Hc Hover Ha Hp st'. subst st'.
  destruct (auth_message_fields _ _ _ _ _ Hmsg)
    as (Etype & Erole & Eid & Ech & digest & Ed & Eresp).
  rewrite (on_message_passed ws _ now uuid st c Hc Hover), Hp.
  assert (Ht : strict_eq_str (get_prop msg (lit "type")) (lit "auth") = true).
  { rewrite Etype. apply strict_eq_str_refl. }
  assert (Hrole : requested_role msg = Agent).
  { unfold requested_role. rewrite Erole. by rewrite strict_eq_str_refl. }
  assert (Hv : verifyChallenge (get_prop msg (lit "challenge"))
                 (get_prop msg (lit "response")) (accessKey agent) = Some true).
  { rewrite Ech, Eresp. apply verifyChallenge_true. exists digest.
    split; [by rewrite <- bot_signChallenge_eq|done]. }
  assert (E : on_auth ws (counted ws now st c).1 msg uuid (counted ws now st c).2
              = (AuthSuccess id Agent,
                 set_socks
                   (ws_send ws (JSON_stringify (auth_success_response uuid Agent))
                      (evict (agentWs agent) ws (socks st)))
                   (set_agents (<[id := set_agentWs (Some ws) agent]> (agents st))
                      (set_conns
                         (<[ws := set_identity id Agent (counted ws now st c).1]>
                            (conns (counted ws now st c).2))
                         (counted ws now st c).2)))).
  { rewrite (on_auth_success ws _ msg uuid _ id agent);
      [|exact Eid|exact Ha|exact Hv].
    by rewrite Hrole. }
  replace (match msg with
           | JNull => (Uncaught, (counted ws now st c).2)
           | _ =>
               if strict_eq_str (get_prop msg (lit "type")) (lit "auth")
               then on_auth ws (counted ws now st c).1 msg uuid (counted ws now st c).2
               else route (counted ws now st c).1 msg (counted ws now st c).2
           end)
    with (on_auth ws (counted ws now st c).1 msg uuid (counted ws now st c).2).
  2:{ destruct msg; try discriminate. by rewrite Ht. }
  rewrite E. simpl. split; [done|]. split.
  - rewrite lookup_insert_eq. eauto.
  - rewrite lookup_insert_eq. eauto.
Qed.

(** X19. The server accepts the client's first message.  The ['open']
    callback of [runBot(agentId, accessKey)] has a message to send,
    whatever the random bytes and the time; on a connection that the rate
    limiter lets through, that message, for a registered identity and its
    secret, is answered with success: the connection becomes the agent of
    that identity and the session holds its socket.  (The frame must parse
    to what was serialised.) *)
Theorem X19_client_is_accepted (ws : sock) (now : Z) (uuid : jsstring)
    (st : state) (c : conn) (id : jsstring) (agent : session)
    (bytes : list Byte.byte) (ts : number) :
  exists msg,
    BotClient.auth_message id (accessKey agent) bytes ts = Some msg
    /\ (conns st !! ws = Some c ->
        over_limit (role c) (window_reset now st c).2 = false ->
        agents st !! id = Some agent ->
        JSON_parse (JSON_stringify msg) = Some msg ->
        let st' := (on_message ws (JSON_stringify msg) now uuid st).2 in
        (on_message ws (JSON_stringify msg) now uuid st).1 = AuthSuccess id Agent
        /\ (exists c', conns st' !! ws = Some c'
                       /\ role c' = Some Agent /\ agentId c' = Some id)
        /\ (exists a', agents st' !! id = Some a'
                       /\ agentWs a' = Some ws /\ gameWs a' = gameWs agent
                       /\ accessKey a' = accessKey agent)).
Proof.
  destruct (auth_message_Some id (accessKey agent) bytes ts) as (d & _ & E).
  eexists. split; [exact E|].
  by apply (client_auth_accepted ws now uuid st c id agent bytes ts).
Qed.

Lemma register_body_agentId (name : jsstring) :
  get_prop (BotClient.register_body name) (lit "agentId") = Some (JStr name).
Proof.
  unfold BotClient.register_body, object, get_prop.
  cbn [map list_to_map foldr fst snd uncurry]. apply lookup_insert_eq.
Qed.

Lemma trim_nil : trim [] = [].
Proof. reflexivity. Qed.

Lemma requested_id_register_body (name : jsstring) :
  requested_id (BotClient.register_body name) = Some (trim name).
Proof.
  unfold requested_id. rewrite register_body_agentId. cbn [truthy].
  case_bool_decide as E; [|done]. subst name. reflexivity.
Qed.

(** X22. Registering and connecting, end to end.  The request that
    [register()] sends for a name is answered with an identity (the
    trimmed name, or a generated one for a blank name) and a secret; on
    any connection of the resulting state that the rate limiter lets
    through, the first message of [runBot] with that identity and secret is
    accepted as agent.  (Both texts must parse to what was
    serialised.) *)
Theorem X22_register_then_connect (name : jsstring) (now : Z)
    (idBytes keyBytes bytes : list Byte.byte) (ts : number) (st : state)
    (ws : sock) (c : conn) (now' : Z) (uuid : jsstring) :
  let body := BotClient.register_body name in
  let id := if bool_decide (trim name = [])
            then lit "agent-" ++ hex_of_bytes idBytes else trim name in
  let key := hex_of_bytes keyBytes in
  let st1 := (on_register (JSON_stringify body) now idBytes keyBytes st).2 in
  exists msg,
    BotClient.auth_message id key bytes ts = Some msg
    /\ (JSON_parse (JSON_stringify body) = Some body ->
        JSON_parse (JSON_stringify msg) = Some msg ->
        conns st !! ws = Some c ->
        over_limit (role c) (window_reset now' st c).2 = false ->
        (on_register (JSON_stringify body) now idBytes keyBytes st).1
        = Registered id key
        /\ (on_message ws (JSON_stringify msg) now' uuid st1).1
           = AuthSuccess id Agent).
Proof.
  intros body id key st1.
  destruct (auth_message_Some id key bytes ts) as (d & _ & Emsg).
  eexists. split; [exact Emsg|].
  intros Hpb Hpm Hc Hover.
  assert (Er : on_register (JSON_stringify body) now idBytes keyBytes st
               = (Registered id key,
                  set_agents
                    (<[id := {| accessKey := key; created := now;
                                gameWs := None; agentWs := None |}]> (agents st)) st)).
  { unfold on_register. rewrite Hpb. subst body.
    rewrite requested_id_register_body. reflexivity. }
  subst st1. rewrite Er. split; [done|]. cbn [snd].
  set (agent := {| accessKey := key; created := now;
                   gameWs := None; agentWs := None |}).
  eapply (client_auth_accepted ws now' uuid _ c id agent bytes ts).
  - exact Emsg.
  - exact Hc.
  - exact Hover.
  - simpl. apply lookup_insert_eq.
  - exact Hpm.
Qed.

End ClientServer.

(** * The properties on concrete runs *)

Module Runs.
Import Demo.
#[local] Existing Instance host.
#[local] Existing Instance defaults.

Lemma outcome_eta (p : outcome * state) (o : outcome) :
  p.1 = o -> p = (o, p.2).
Proof. destruct p. simpl. by intros ->. Defined.

Lemma after_reachable (evs : list event) :
  bool_decide (is_Some (run evs (init 0))) = true -> reachable (after evs).
Proof.
  intros E. apply bool_decide_eq_true in E as [st E].
  unfold after. rewrite E.
  apply (run_reachable evs (init 0) st); [constructor|exact E].
Defined.

Lemma paired_reachable : reachable (after paired_events).
Proof. apply after_reachable. vm_compute. reflexivity. Defined.

(** The fingerprints of the examples: ["abc"] with the empty key hashes to
    96354, and a long input wraps around. *)
Example signChallenge_abc :
  signChallenge (Some (str "abc")) [] = Some (lit "17862").
Proof. vm_compute. reflexivity. Qed.

Example signChallenge_wraps :
  signChallenge (Some (str "abc")) (lit "zzzzzzzzzzzzzzzz") = Some (lit "40ba2e62")
  /\ toString16 (-255) = lit "-ff".
Proof. vm_compute. split; reflexivity. Qed.

(** Values other than strings as challenge: a plain object is
    ["[object Object]"], an array is its elements joined, and an object
    with a [toString] property of its own, alone or in an array, has no
    string. *)
Example signChallenge_of_values :
  ToString (Some (object [("a", JNum 1)]%string)) = Some (lit "[object Object]")
  /\ ToString (Some (JArr [JNum 1; JNull; str "b"])) = Some (lit "1,,b")
  /\ ToString (H := host) None = Some (lit "undefined")
  /\ signChallenge (Some (object [("toString", JNum 1)]%string)) (lit "7331") = None
  /\ signChallenge (Some (JArr [object [("toString", JNum 1)]%string])) (lit "7331")
     = None
  /\ signChallenge (Some (object []%string)) (lit "7331") = Some (lit "-74c753ae").
Proof. vm_compute. repeat split; reflexivity. Qed.

(** An [auth] frame with a challenge that has no string: for a registered
    identity the check throws, nothing is sent and the run ends, whatever
    the response; for an unknown identity the check is not reached and the
    failure response is sent. *)
Example unprintable_challenge :
  let st := after connected_events in
  on_message 1%nat (Some unprintable_auth_msg) 20 uuid st
  = (Uncaught, (counted 1%nat 20 st (new_conn 10)).2)
  /\ socks (on_message 1%nat (Some unprintable_auth_msg) 20 uuid st).2 = socks st
  /\ run [Message 1%nat (Some unprintable_auth_msg) 20 uuid] st = None
  /\ (on_message 1%nat (Some unprintable_stranger_msg) 20 uuid st).1 = AuthFailure.
Proof. vm_compute. repeat split; reflexivity. Qed.

(** An ['error'] event on a socket that was turned away ends the run; once
    the socket has closed the event does nothing. *)
Example error_on_a_socket_turned_away :
  run (H0 := two_slots) [Error 3%nat] turned_away = None
  /\ run (H0 := two_slots) [Close 3%nat; Error 3%nat] turned_away
     = Some (on_close 3%nat turned_away).2.
Proof. vm_compute. split; reflexivity. Qed.

(** Witness of C2: in the paired session a [state] frame of the game
    reaches the agent as it was parsed. *)
Lemma C2_forwarding_witness :
  on_message 1%nat (Some state_msg) 30 uuid (after paired_events)
  = (Forwarded 2%nat,
     set_socks (ws_send 2%nat (Some state_msg) (socks (after paired_events)))
       (counted 1%nat 30 (after paired_events) game_conn).2).
Proof.
  destruct (C2_forwarding (H:=host) (H0:=defaults) 1%nat (Some state_msg) 30 uuid
              (after paired_events) game_conn Game state_msg)
    as (id & agent & payload & Eid & Ea & -> & ->).
  - exact paired_reachable.
  - vm_compute. reflexivity.
  - reflexivity.
  - vm_compute. reflexivity.
  - reflexivity.
  - vm_compute. reflexivity.
  - injection Eid as <-.
    assert (agent = session_x_paired) as ->.
    { vm_compute in Ea. injection Ea as <-. reflexivity. }
    cbn [role_socket peer_role session_x_paired agentWs].
    assert (is_open (socks (after paired_events)) 2%nat = true) as ->
      by (vm_compute; reflexivity).
    reflexivity.
Defined.

(** Counterexample to C2 as stated: an authenticated agent socket with an
    open game peer sends two messages that carry [steer] and [jump].  The
    one of type [auth] is answered with a failure and the game socket gets
    nothing; the one of type [move] reaches the game socket under its own
    type, not as an [action]. *)
Lemma C2_counterexample :
  let st := after paired_events in
  let st1 := (on_message 2%nat (Some auth_steer_msg) 30 uuid st).2 in
  let st2 := (on_message 2%nat (Some tagged_steer_msg) 30 uuid st).2 in
  conns st !! 2%nat = Some agent_conn
  /\ agents st !! lit "x" = Some session_x_paired
  /\ is_open (socks st) 1%nat = true
  /\ is_action auth_steer_msg = true
  /\ (on_message 2%nat (Some auth_steer_msg) 30 uuid st).1 = AuthFailure
  /\ (sent <$> socks st1 !! 1%nat) = (sent <$> socks st !! 1%nat)
  /\ is_action tagged_steer_msg = true
  /\ (on_message 2%nat (Some tagged_steer_msg) 30 uuid st).1 = Forwarded 1%nat
  /\ (sent <$> socks st2 !! 1%nat)
     = ((fun s => sent s ++ [Some tagged_steer_msg]) <$> socks st !! 1%nat)
  /\ get_prop tagged_steer_msg (lit "type") = Some (str "move")
  /\ get_prop tagged_steer_msg (lit "type") ≠ Some (str "action").
Proof.
  vm_compute. repeat split; try reflexivity. intros [=].
Qed.

(** Witness of C3: a third socket authenticates as the agent of ["x"]
    while socket 2 holds that role. *)
Lemma C3_role_eviction_witness :
  let st := after challenger_events in
  let st' := (on_message 3%nat (auth_x "agent") 40 uuid st).2 in
  socks st' !! 2%nat
  = Some {| readyState := CLOSING; closeCode := Some 4000;
            sent := sent agent_socket; pings := pings agent_socket |}
  /\ (exists a', agents st' !! lit "x" = Some a' /\ role_socket Agent a' = Some 3%nat)
  /\ (exists a', agents (on_close 2%nat st').2 !! lit "x" = Some a'
                 /\ role_socket Agent a' = Some 3%nat).
Proof.
  intros st st'.
  destruct (C3_role_eviction (H:=host) (H0:=defaults) 2%nat 3%nat
              (auth_x "agent") 40 uuid st st' (lit "x") Agent session_x_paired
              agent_socket)
    as (H1 & H2 & H3 & _).
  - apply outcome_eta. vm_compute. reflexivity.
  - vm_compute. reflexivity.
  - reflexivity.
  - intros [=].
  - vm_compute. reflexivity.
  - reflexivity.
  - split; [exact H1|]. split; [exact H2|exact H3].
Defined.

(** Witness of C4: with two slots taken out of two, a third socket is
    rejected and the count stays at two. *)
Lemma C4_admission_control_witness :
  (on_connection (H0 := two_slots) 3%nat 30 full_house).1 = Rejected
  /\ totalConnections (on_connection (H0 := two_slots) 3%nat 30 full_house).2
     = totalConnections full_house
  /\ conns (on_connection (H0 := two_slots) 3%nat 30 full_house).2 = conns full_house.
Proof.
  destruct (C4_admission_control (H:=host) (H0:=two_slots)) as (_ & Hrej & _).
  - vm_compute. intros [=].
  - destruct (Hrej 3%nat 30 full_house) as (E1 & E2 & E3 & _).
    + vm_compute. intros [=].
    + split; [exact E1|]. split; [exact E2|exact E3].
Defined.

(** Witness of C5: the connection that authenticated as game after
    twenty-four frames of noise has its next frame dropped. *)
Lemma C5_rate_limiter_witness :
  (on_message 1%nat (Some state_msg) 30 uuid (after noisy_events)).1 = RateDropped.
Proof.
  destruct (C5_rate_limiter (H:=host) (H0:=defaults) 1%nat (Some state_msg) 30 uuid
              (after noisy_events) (set_rateCount 25 game_conn))
    as (_ & Hdrop & _).
  - vm_compute. reflexivity.
  - rewrite (Hdrop Game).
    + reflexivity.
    + reflexivity.
    + vm_compute. intros [=].
Defined.

(** Counterexample to C5 as stated: a frame on a connection whose role is
    unset moves the counter from 0 to 1; after twenty-four such frames and
    the [auth] message the counter is at the game ceiling, and the first
    frame after authentication is dropped; and the environment may set
    the game ceiling above the agent ceiling. *)
Lemma C5_counterexample :
  let st := after connected_events in
  (role <$> conns st !! 1%nat) = Some None
  /\ (rateCount <$> conns st !! 1%nat) = Some 0
  /\ (rateCount <$> conns (on_message 1%nat None 15 uuid st).2 !! 1%nat) = Some 1
  /\ (rateCount <$> conns (after noisy_events) !! 1%nat) = Some 25
  /\ (on_message 1%nat (Some state_msg) 30 uuid (after noisy_events)).1 = RateDropped
  /\ @RATE_LIMIT_AGENT game_heavy < @RATE_LIMIT_GAME game_heavy.
Proof. vm_compute. repeat split; reflexivity. Qed.

(** Witness of C6: the connection admitted at time 10 and never
    acknowledged is closed by the tick at 45010. *)
Lemma C6_heartbeat_monitor_witness :
  exists t,
    t ∈ ticks /\ 30000 < t - 10 /\ 2 * (t - 10) <= 3 * 30000
    /\ (readyState <$> socks (run_ticks 1%nat ticks (after connected_events)) !! 1%nat)
       = Some CLOSING
    /\ (closeCode <$> socks (run_ticks 1%nat ticks (after connected_events)) !! 1%nat)
       = Some (Some 1000).
Proof.
  destruct (C6_heartbeat_monitor (H:=host) (H0:=defaults)) as (_ & _ & _ & Hrec).
  - vm_compute. intros [=].
  - destruct (Hrec 1%nat (after connected_events) (new_conn 10) accepted_socket 0 ticks)
      as (pre & t & post & Ets & _ & Hlate & Hb & Hrun & _).
    + vm_compute. reflexivity.
    + eexists. reflexivity.
    + vm_compute. reflexivity.
    + reflexivity.
    + vm_compute. repeat split; intros [=].
    + exists 45010. split; [|vm_compute; reflexivity].
      unfold ticks. do 2 apply list_elem_of_further. apply list_elem_of_here.
    + exists t. split; [|split; [exact Hlate|split; [|split]]].
      * rewrite Ets. apply elem_of_app. right. apply elem_of_cons. by left.
      * change (inject_Z (t - 10) <= inject_Z 30000 + (30000 # 2) + inject_Z 0)%Q in Hb.
        unfold Qle, Qplus, inject_Z in Hb. simpl in Hb. lia.
      * rewrite Hrun. cbn [socks set_socks]. rewrite lookup_insert_eq. reflexivity.
      * rewrite Hrun. cbn [socks set_socks]. rewrite lookup_insert_eq. reflexivity.
Defined.

(** Witness of C7: a wrong response on the fresh connection. *)
Lemma C7_auth_failure_witness :
  (on_message 1%nat bad_auth_x 20 uuid (after connected_events)).1 = AuthFailure.
Proof.
  destruct (C7_auth_failure (H:=host) (H0:=defaults) 1%nat bad_auth_x 20 uuid
              (after connected_events) (new_conn 10)
              (auth_msg "x" "wrong" "c0ffee" "game"))
    as (E & _).
  - vm_compute. reflexivity.
  - reflexivity.
  - reflexivity.
  - vm_compute. reflexivity.
  - intros agent Hag. vm_compute in Hag. injection Hag as <-.
    vm_compute. reflexivity.
  - rewrite E. reflexivity.
Defined.

(** Counterexample to C7 as stated: the failed attempt changes the state
    of the connection, whose counter goes from 0 to 1. *)
Lemma C7_counterexample :
  let st := after connected_events in
  let st' := (on_message 1%nat bad_auth_x 20 uuid st).2 in
  (on_message 1%nat bad_auth_x 20 uuid st).1 = AuthFailure
  /\ conns st !! 1%nat = Some (new_conn 10)
  /\ conns st' !! 1%nat = Some (set_rateCount 1 (new_conn 10))
  /\ conns st' !! 1%nat ≠ conns st !! 1%nat.
Proof. vm_compute. repeat split; try reflexivity. intros [=]. Qed.

(** Witness of C8: a chat message of the authenticated game socket is
    ignored. *)
Lemma C8_authenticated_connection_witness :
  socks (on_message 1%nat (Some chat_msg) 30 uuid (after paired_events)).2
  = socks (after paired_events)
  /\ agents (on_message 1%nat (Some chat_msg) 30 uuid (after paired_events)).2
     = agents (after paired_events).
Proof.
  destruct (C8_authenticated_connection (H:=host) (H0:=defaults) 1%nat
              (Some chat_msg) 30 uuid (after paired_events) game_conn Game)
    as (Hign & _).
  - vm_compute. reflexivity.
  - reflexivity.
  - destruct Hign as (E1 & E2 & _).
    + right. right. exists chat_msg. repeat split; try (vm_compute; reflexivity).
      intros [=].
    + split; [exact E1|exact E2].
Defined.

(** Counterexample to C8 as stated: the authenticated game socket of
    ["x"] sends a valid [auth] message for the agent role.  It is
    answered, the connection becomes an agent, the agent field of the
    session changes from socket 2 to socket 1 and socket 2 is closed with
    code 4000. *)
Lemma C8_counterexample :
  let st := after paired_events in
  let r := on_message 1%nat (auth_x "agent") 30 uuid st in
  (role <$> conns st !! 1%nat) = Some (Some Game)
  /\ r.1 = AuthSuccess (lit "x") Agent
  /\ (role <$> conns r.2 !! 1%nat) = Some (Some Agent)
  /\ (agentWs <$> agents st !! lit "x") = Some (Some 2%nat)
  /\ (agentWs <$> agents r.2 !! lit "x") = Some (Some 1%nat)
  /\ (closeCode <$> socks r.2 !! 2%nat) = Some (Some 4000)
  /\ (length <$> (sent <$> socks st !! 1%nat)) = Some 1%nat
  /\ (length <$> (sent <$> socks r.2 !! 1%nat)) = Some 2%nat.
Proof. vm_compute. repeat split; reflexivity. Qed.

(** Witness of C9: authentication leaves the secret of ["x"] alone. *)
Lemma C9_secret_of_a_session_witness :
  exists a',
    agents (handle (Message 1%nat (auth_x "game") 20 uuid)
              (after connected_events)).2 !! lit "x" = Some a'
    /\ accessKey a' = lit "7331".
Proof.
  destruct (C9_secret_of_a_session (H:=host) (H0:=defaults)
              (Message 1%nat (auth_x "game") 20 uuid) (after connected_events)
              (lit "x")) as (_ & Hkeep).
  destruct (Hkeep {| accessKey := lit "7331"; created := 0;
                     gameWs := None; agentWs := None |})
    as (a' & E & Ek & _).
  - vm_compute. reflexivity.
  - intros key. vm_compute. intros [=].
  - exists a'. split; [exact E|exact Ek].
Defined.

(** Counterexample to C9 as stated: a second registration of ["x"]
    changes the secret of its session. *)
Lemma C9_counterexample :
  (accessKey <$> agents (after [register_x]) !! lit "x") = Some (lit "7331")
  /\ (accessKey <$> agents (after [register_x; register_x_again]) !! lit "x")
     = Some (lit "abcd")
  /\ lit "7331" ≠ lit "abcd".
Proof. vm_compute. repeat split; try reflexivity. intros [=]. Qed.


(** ** Witnesses of the further properties *)

Lemma connected_reachable : reachable (after connected_events).
Proof. apply after_reachable. vm_compute. reflexivity. Defined.

Lemma X1_digest_closed_form_witness : (length (lit "17862") <= 9)%nat.
Proof.
  apply (proj2 (proj2 (X1_digest_closed_form (H:=host) (Some (str "abc")) []))).
  vm_compute. reflexivity.
Defined.

Lemma X2_digest_rendering_is_injective_witness :
  parse16 (toString16 (-255)) = -255.
Proof. exact (proj1 (X2_digest_rendering_is_injective (H:=host)) (-255)). Defined.

Lemma X3_colliding_secrets_witness :
  verifyChallenge (Some (str "c0ffee")) (Some (JStr (digest "c0ffee" "kAa1")))
    (lit "k" ++ lit "BB" ++ lit "1")
  = Some true.
Proof.
  destruct (X3_colliding_secrets (H:=host) (Some (str "c0ffee")) (lit "k") (lit "1"))
    as (_ & _ & Hacc & _).
  apply Hacc. vm_compute. reflexivity.
Defined.

Lemma X4_last_unit_matters_witness :
  verifyChallenge (Some (str "c0ffee")) (Some (JStr (digest "c0ffee" "s1")))
    (lit "s" ++ [50%N])
  = Some false.
Proof.
  destruct (X4_last_unit_matters (H:=host) (Some (str "c0ffee")) (lit "s") 49 50)
    as [_ Hrej].
  - reflexivity.
  - reflexivity.
  - intros [=].
  - destruct (Hrej (digest "c0ffee" "s1")) as [_ E].
    + vm_compute. reflexivity.
    + exact E.
Defined.

Lemma X6_registration_witness :
  agents (handle register_x (init 0)).2 !! lit "x" = Some session_x_fresh.
Proof.
  destruct (X6_registration (H:=host)
              body_x 0 [] [Byte.x73; Byte.x31] (init 0)) as [Hreg _].
  destruct (Hreg (lit "x") (lit "7331")) as (_ & _ & E & _).
  - vm_compute. reflexivity.
  - exact E.
Defined.

Lemma X7_minted_secret_witness :
  lit "7331" = hex_of_bytes [Byte.x73; Byte.x31]
  /\ length (lit "7331") = (2 * length [Byte.x73; Byte.x31])%nat.
Proof.
  destruct (X7_minted_secret (H:=host)
              body_x 0 [] [Byte.x73; Byte.x31] (init 0) (lit "x") (lit "7331"))
    as (E1 & E2 & _).
  - vm_compute. reflexivity.
  - split; [exact E1|exact E2].
Defined.

Lemma X8_closeSafe_witness :
  closeSafe (Some 2%nat) 4000 (socks (after paired_events)) !! 2%nat
  = Some {| readyState := CLOSING; closeCode := Some 4000;
            sent := sent agent_socket; pings := pings agent_socket |}.
Proof.
  destruct (X8_closeSafe (H:=host) 4000 (socks (after paired_events)))
    as (_ & _ & Hclose & _).
  apply (Hclose 2%nat agent_socket).
  - vm_compute. reflexivity.
  - reflexivity.
  - reflexivity.
Defined.

Lemma X9_sockets_only_move_forward_witness :
  sockets_grow (socks (after challenger_events))
    (socks (handle (Message 3%nat (auth_x "agent") 40 uuid)
              (after challenger_events)).2).
Proof.
  apply (X9_sockets_only_move_forward (H:=host) (H0:=defaults)). reflexivity.
Defined.

Lemma X10_closures_are_isolated_witness :
  conns (handle (Message 1%nat (auth_x "agent") 30 uuid) (after paired_events)).2
    !! 2%nat
  = conns (after paired_events) !! 2%nat.
Proof.
  apply (X10_closures_are_isolated (H:=host) (H0:=defaults)). intros [=].
Defined.

Lemma X11_no_closure_no_callback_witness :
  run (H0 := two_slots) [Error 3%nat; Close 3%nat] turned_away = None.
Proof.
  destruct (X11_no_closure_no_callback (H:=host) (H0:=two_slots)
              (Error 3%nat) turned_away 3%nat)
    as [Hthrown _].
  - vm_compute. reflexivity.
  - reflexivity.
  - intros now [=].
  - destruct Hthrown as [_ E].
    + vm_compute. reflexivity.
    + exact (E [Close 3%nat]).
Defined.

Lemma X12_unauthenticated_cannot_forward_witness :
  (on_message 1%nat (Some steer_msg) 20 uuid (after connected_events)).1
  = ParseError
  \/ (on_message 1%nat (Some steer_msg) 20 uuid (after connected_events)).1
     = Uncaught
  \/ (on_message 1%nat (Some steer_msg) 20 uuid (after connected_events)).1
     = NotBound.
Proof.
  destruct (X12_unauthenticated_cannot_forward (H:=host) (H0:=defaults) 1%nat
              (Some steer_msg) 20 uuid (after connected_events) (new_conn 10))
    as [_ E].
  - exact connected_reachable.
  - vm_compute. reflexivity.
  - reflexivity.
  - destruct E as (_ & _ & E).
    + intros data [= <-]. vm_compute. reflexivity.
    + exact E.
Defined.

Lemma X13_null_frame_throws_witness :
  run [Message 1%nat (Some JNull) 20 uuid] (after connected_events) = None.
Proof.
  destruct (X13_null_frame_throws (H:=host) (H0:=defaults) 1%nat (Some JNull) 20
              uuid (after connected_events) (new_conn 10)) as [_ E].
  - vm_compute. reflexivity.
  - vm_compute. reflexivity.
  - reflexivity.
  - exact (E []).
Defined.

Lemma X14_shared_window_clock_witness :
  (on_message 1%nat (Some state_msg) 1600 uuid
     (on_message 2%nat (Some steer_msg) 1500 uuid (after throttled_events)).2).1
  = RateDropped.
Proof.
  destruct (X14_shared_window_clock (H:=host) (H0:=defaults) 2%nat 1%nat
              (Some steer_msg) (Some state_msg) 1500 1600 uuid uuid
              (after throttled_events) agent_conn (set_rateCount 25 game_conn)
              Agent Game)
    as (_ & _ & _ & _ & E & _).
  - intros [=].
  - vm_compute. reflexivity.
  - reflexivity.
  - vm_compute. reflexivity.
  - reflexivity.
  - vm_compute. reflexivity.
  - vm_compute. reflexivity.
  - vm_compute. intros [=].
  - vm_compute. reflexivity.
  - vm_compute. reflexivity.
  - vm_compute. intros [=].
  - exact E.
Defined.

Lemma X15_answering_peer_stays_open_witness :
  socks (run_heartbeat 1%nat answers (after connected_events)) !! 1%nat
  = Some {| readyState := OPEN; closeCode := closeCode accepted_socket;
            sent := sent accepted_socket;
            pings := (pings accepted_socket + ticks_in answers)%nat |}.
Proof.
  destruct (X15_answering_peer_stays_open (H:=host) (H0:=defaults) 1%nat answers
              (after connected_events) (new_conn 10) accepted_socket) as [E _].
  - vm_compute. reflexivity.
  - eexists. reflexivity.
  - vm_compute. reflexivity.
  - reflexivity.
  - vm_compute. repeat split; intros [=].
  - exact E.
Defined.

Lemma X16_stats_count_live_connections_witness :
  open_sockets_live (after paired_events).
Proof.
  exact (proj1 (X16_stats_count_live_connections (H:=host) (H0:=defaults)
                  (after paired_events) paired_reachable)).
Defined.

Lemma X17_close_detaches_witness :
  conns (on_close 2%nat (after paired_events)).2 !! 2%nat = None.
Proof.
  destruct (X17_close_detaches (H:=host) 2%nat
              (after paired_events) agent_conn (lit "x") Agent session_x_paired)
    as [E _].
  - vm_compute. reflexivity.
  - reflexivity.
  - intros [=].
  - reflexivity.
  - vm_compute. reflexivity.
  - exact E.
Defined.

Lemma X18_nothing_goes_to_a_socket_that_is_not_open_witness :
  socks (handle (Message 1%nat (Some state_msg) 30 uuid)
           (after agent_gone_events)).2 !! 2%nat
  = socks (after agent_gone_events) !! 2%nat.
Proof.
  apply (X18_nothing_goes_to_a_socket_that_is_not_open (H:=host) (H0:=defaults)).
  - intros [=].
  - vm_compute. reflexivity.
Defined.

Lemma X19_client_is_accepted_witness :
  exists msg,
    BotClient.auth_message (lit "x") (lit "7331") [Byte.x01; Byte.xab] 0 = Some msg
    /\ (on_message 1%nat (Some msg) 20 uuid (after connected_events)).1
       = AuthSuccess (lit "x") Agent.
Proof.
  destruct (X19_client_is_accepted (H:=host) (H0:=defaults) 1%nat 20 uuid
              (after connected_events) (new_conn 10) (lit "x") session_x_fresh
              [Byte.x01; Byte.xab] 0) as (msg & Emsg & Hacc).
  exists msg. split; [exact Emsg|].
  destruct Hacc as [E _].
  - vm_compute. reflexivity.
  - reflexivity.
  - vm_compute. reflexivity.
  - reflexivity.
  - exact E.
Defined.

Lemma X20_error_stops_the_heartbeat_witness :
  conns (on_error 1%nat (after connected_events)).2 !! 1%nat
  = Some (set_heartbeat None (new_conn 10)).
Proof.
  destruct (X20_error_stops_the_heartbeat (H:=host) (H0:=defaults) 1%nat
              (after connected_events) (new_conn 10) ticks) as [E _].
  - vm_compute. reflexivity.
  - exact E.
Defined.

Lemma X21_listed_agents_witness :
  lit "x" ∈ (on_list_agents (after paired_events)).1.
Proof.
  apply (proj1 (X21_listed_agents (H:=host) (after paired_events))).
  exists session_x_paired. vm_compute. reflexivity.
Defined.

Lemma X22_register_then_connect_witness :
  exists msg,
    BotClient.auth_message (lit "y") (lit "abcd") [Byte.x01; Byte.xab] 0 = Some msg
    /\ (on_message 1%nat (Some msg) 20 uuid
          (on_register (Some (BotClient.register_body (lit " y "))) 15 []
             [Byte.xab; Byte.xcd] (after connected_events)).2).1
       = AuthSuccess (lit "y") Agent.
Proof.
  destruct (X22_register_then_connect (H:=host) (H0:=defaults) (lit " y ") 15 []
              [Byte.xab; Byte.xcd] [Byte.x01; Byte.xab] 0 (after connected_events)
              1%nat (new_conn 10) 20 uuid) as (msg & Emsg & Hacc).
  exists msg. split; [exact Emsg|].
  destruct Hacc as [_ E].
  - reflexivity.
  - reflexivity.
  - vm_compute. reflexivity.
  - reflexivity.
  - exact E.
Defined.

End Runs.
